(** * mini-qiankun3.js, modelled and checked

    The file follows the program:
    - the regular expressions of [parseHtml] and of [loadStyles], run by a
      small backtracking matcher that tries the alternatives in the order
      of the JavaScript one;
    - the sandbox made by [createSandbox]: the handlers [get] and [set] of
      its proxies, the proxy cache, [exec];
    - the orchestrator: [registerMicroApps], [start], [patchRouter],
      [reroute], [loadAndMountApp], [unmountApp].  A call of the [async]
      function [loadAndMountApp] that waits for the network is kept in
      the state and goes on when its request settles, so that runs in
      which a navigation arrives in between are runs of the model;
    - [parseHTML] and [reroute] of the tutorial text that comes with the
      program and shows an earlier version of it.

    The properties come after the definitions. *)

From Stdlib Require Import Ascii String List Bool Arith ZArith Lia.
From stdpp Require Import base option list gmap strings fin_maps.

Open Scope string_scope.
Open Scope list_scope.

(** ** Text *)

(** A JavaScript string is modelled as the list of its characters. *)
Abbreviation chars := (list ascii).

Definition cs (s : string) : chars := list_ascii_of_string s.

(** The double quote. *)
Definition dq : ascii := "034"%char.
Definition gt_char : ascii := ">"%char.
Definition lbrace : ascii := "{"%char.

Definition ascii_eqb (a b : ascii) : bool := Ascii.eqb a b.

(** ASCII lower case, to compare letters under the [i] flag. *)
Definition lower (c : ascii) : ascii :=
  let n := nat_of_ascii c in
  if Nat.leb 65 n && Nat.leb n 90 then ascii_of_nat (n + 32) else c.

(** [strip ci l s]: [s] starts with the literal [l] (up to case when [ci]);
    the result is the text matched and what follows it. *)
Fixpoint strip (ci : bool) (l s : chars) : option (chars * chars) :=
  match l with
  | [] => Some ([], s)
  | a :: l' =>
      match s with
      | [] => None
      | b :: s' =>
          if (if ci then ascii_eqb (lower a) (lower b) else ascii_eqb a b)
          then match strip ci l' s' with
               | Some (m, r) => Some (b :: m, r)
               | None => None
               end
          else None
      end
  end.

(** [hay.includes(needle)] *)
Fixpoint includes (needle hay : chars) : bool :=
  match strip false needle hay with
  | Some _ => true
  | None => match hay with
            | [] => false
            | _ :: hay' => includes needle hay'
            end
  end.

(** ** Regular expressions

    Every regular expression of the program is a sequence of literals
    (compared up to case under the [i] flag), of single characters of a
    class, and of repetitions of a character class ([*] or [+], greedy or
    lazy); some of these are capture groups. *)
Inductive item :=
| Lit (cap ci : bool) (l : chars)
| One (cls : ascii -> bool)
| Rep (cap lazy plus : bool) (cls : ascii -> bool).

Abbreviation regex := (list item).

(** A match: the groups, in order, and the text after the match. *)
Abbreviation mresult := (option (list chars * chars)).

Definition push (cap : bool) (m : chars) (r : mresult) : mresult :=
  match r with
  | Some (caps, rest) => Some (if cap then m :: caps else caps, rest)
  | None => None
  end.

(** Greedy repetition: take as many characters of the class as there
    are, and give them back one by one while what follows fails. *)
Fixpoint rep_greedy (cls : ascii -> bool) (k : chars -> chars -> mresult)
    (taken s : chars) : mresult :=
  match s with
  | c :: s' =>
      if cls c then
        match rep_greedy cls k (taken ++ [c]) s' with
        | Some r => Some r
        | None => k taken s
        end
      else k taken s
  | [] => k taken s
  end.

(** Lazy repetition: try what follows first, and take one more character
    of the class when it fails. *)
Fixpoint rep_lazy (cls : ascii -> bool) (k : chars -> chars -> mresult)
    (taken s : chars) : mresult :=
  match k taken s with
  | Some r => Some r
  | None =>
      match s with
      | c :: s' => if cls c then rep_lazy cls k (taken ++ [c]) s' else None
      | [] => None
      end
  end.

Definition is_nil (l : chars) : bool :=
  match l with [] => true | _ => false end.

(** The match of a regular expression at the start of [s]. *)
Fixpoint match_items (re : regex) (s : chars) {struct re} : mresult :=
  match re with
  | [] => Some ([], s)
  | Lit cap ci l :: re' =>
      match strip ci l s with
      | Some (m, s') => push cap m (match_items re' s')
      | None => None
      end
  | One cls :: re' =>
      match s with
      | c :: s' => if cls c then match_items re' s' else None
      | [] => None
      end
  | Rep cap lazy plus cls :: re' =>
      let k := fun taken s' =>
                 if plus && is_nil taken then None
                 else push cap taken (match_items re' s') in
      if lazy then rep_lazy cls k [] s else rep_greedy cls k [] s
  end.

(** [while ((match = re.exec(text)) !== null)] for an expression with the
    [g] flag: the matches from left to right, each search starting where
    the match before ended.  [skip] counts the characters of the current
    match that are still to be passed.  (No expression of the program
    matches the empty string.) *)
Fixpoint exec_all (re : regex) (skip : nat) (s : chars) : list (list chars) :=
  match s with
  | [] => []
  | _ :: s' =>
      match skip with
      | S n => exec_all re n s'
      | O =>
          match match_items re s with
          | Some (caps, rest) =>
              caps :: exec_all re (length s - length rest - 1) s'
          | None => exec_all re 0 s'
          end
      end
  end.

(** [text.replace(re, f)] for an expression with the [g] flag; [f] is
    given the text matched and the groups. *)
Fixpoint replace_all (re : regex) (f : chars -> list chars -> chars)
    (skip : nat) (s : chars) : chars :=
  match s with
  | [] => []
  | c :: s' =>
      match skip with
      | S n => replace_all re f n s'
      | O =>
          match match_items re s with
          | Some (caps, rest) =>
              let n := length s - length rest in
              match n with
              | O => f [] caps ++ c :: replace_all re f 0 s'
              | S n' => f (take n s) caps ++ replace_all re f n' s'
              end
          | None => c :: replace_all re f 0 s'
          end
      end
  end.

(** [match[1]] *)
Definition group1 (caps : list chars) : chars :=
  match caps with
  | g :: _ => g
  | [] => []
  end.

(** The class of all characters but [x]. *)
Definition neq_char (x : ascii) : ascii -> bool := fun c => negb (ascii_eqb c x).

(** *** What a match looks like *)

(** [lit_eq ci l m]: the text [m] is the literal [l], up to case when
    [ci]. *)
Definition lit_eq (ci : bool) (l m : chars) : Prop :=
  Forall2 (fun a b => if ci then lower a = lower b else a = b) l m.

(** [den re m caps]: the text [m] has the form of [re], with the groups
    [caps]. *)
Fixpoint den (re : regex) (m : chars) (caps : list chars) : Prop :=
  match re with
  | [] => m = [] /\ caps = []
  | Lit cap ci l :: re' =>
      exists m1 m2 caps',
        m = m1 ++ m2 /\ lit_eq ci l m1 /\ den re' m2 caps' /\
        caps = (if cap then m1 :: caps' else caps')
  | One cls :: re' =>
      exists c m2, m = c :: m2 /\ cls c = true /\ den re' m2 caps
  | Rep cap lazy plus cls :: re' =>
      exists t m2 caps',
        m = t ++ m2 /\ forallb cls t = true /\ (plus = true -> t <> []) /\
        den re' m2 caps' /\
        caps = (if cap then t :: caps' else caps')
  end.

(** [found_in_order shape text l]: the items of [l] come from pieces of
    [text] that follow one another without overlap, piece and item being
    related by [shape]. *)
Inductive found_in_order {A : Type} (shape : chars -> A -> Prop)
  : chars -> list A -> Prop :=
| found_nil text : found_in_order shape text []
| found_cons before piece rest x l :
    shape piece x ->
    found_in_order shape rest l ->
    found_in_order shape (before ++ piece ++ rest) (x :: l).

(** ** [parseHtml] *)

(** [/<script[^>]*src=Q([^Q]+)Q[^>]*><\/script>/g], where [Q] stands for
    the double quote. *)
Definition scriptRegex : regex :=
  [ Lit false false (cs "<script");
    Rep false false false (neq_char gt_char);
    Lit false false (cs "src=" ++ [dq]);
    Rep true false true (neq_char dq);
    Lit false false [dq];
    Rep false false false (neq_char gt_char);
    Lit false false (cs "></script>") ].

(** [/<link[^>]*rel=QstylesheetQ[^>]*href=Q([^Q]+)Q[^>]*>/g] *)
Definition styleRegex : regex :=
  [ Lit false false (cs "<link");
    Rep false false false (neq_char gt_char);
    Lit false false (cs "rel=" ++ [dq] ++ cs "stylesheet" ++ [dq]);
    Rep false false false (neq_char gt_char);
    Lit false false (cs "href=" ++ [dq]);
    Rep true false true (neq_char dq);
    Lit false false [dq];
    Rep false false false (neq_char gt_char);
    Lit false false [gt_char] ].

Record parsed := {
  scripts : list chars;
  styles : list chars;
  htmlContent : chars
}.

Definition parseHtml (html : chars) : parsed :=
  {| scripts := map group1 (exec_all scriptRegex 0 html);
     styles := map group1 (exec_all styleRegex 0 html);
     htmlContent :=
       replace_all styleRegex (fun _ _ => []) 0
         (replace_all scriptRegex (fun _ _ => []) 0 html) |}.

(** A script element with a [src] attribute in double quotes whose start
    tag is directly followed by the end tag. *)
Definition external_script (tag src : chars) : Prop :=
  exists a b,
    tag = cs "<script" ++ a ++ cs "src=" ++ [dq] ++ src ++ [dq] ++ b ++ cs "></script>" /\
    src <> [] /\ (dq ∉ src) /\ (gt_char ∉ a) /\ (gt_char ∉ b).

(** A [link] tag with [rel] and then [href], both in double quotes. *)
Definition stylesheet_link (tag href : chars) : Prop :=
  exists a b c,
    tag = cs "<link" ++ a ++ cs "rel=" ++ [dq] ++ cs "stylesheet" ++ [dq] ++ b
          ++ cs "href=" ++ [dq] ++ href ++ [dq] ++ c ++ [gt_char] /\
    href <> [] /\ (dq ∉ href) /\ (gt_char ∉ a) /\ (gt_char ∉ b) /\ (gt_char ∉ c).

(** ** The style rewriting of [loadStyles] *)

(** [/([^{]+)({)/g] *)
Definition selectorRegex : regex :=
  [ Rep true false true (neq_char lbrace);
    Lit true false [lbrace] ].

(** The function given to [cssText.replace]: [match] and [selector]. *)
Definition scope_selector (appName : chars) (m : chars) (caps : list chars) : chars :=
  let selector := group1 caps in
  if includes (cs "@media") selector || includes (cs "@keyframes") selector
  then m
  else cs ".micro-app-" ++ appName ++ cs " " ++ selector ++ cs " {".

Definition scopedCss (cssText appName : chars) : chars :=
  replace_all selectorRegex (scope_selector appName) 0 cssText.

(** ** Values and objects

    An object is known by a reference.  A proxy made by [createProxy] is
    determined by its target and by the application name its handler
    closes over. *)
Inductive ref :=
| RWindow
| RSandboxWindow
| RObj (n : nat)
| RProxy (target : ref) (appName : option string).

Inductive value :=
| VUndefined
| VNull
| VBool (b : bool)
| VNum (n : Z)
| VStr (s : string)
| VFun (f : nat)
| VNative (f : string)
| VObj (r : ref).

#[global] Instance ref_eq_dec : EqDecision ref.
Proof. solve_decision. Defined.

#[global] Instance value_eq_dec : EqDecision value.
Proof. solve_decision. Defined.

(** [typeof v === 'function'] *)
Definition is_function (v : value) : bool :=
  match v with
  | VFun _ | VNative _ => true
  | _ => false
  end.

(** [v && typeof v === 'object'] *)
Definition is_object (v : value) : option ref :=
  match v with
  | VObj r => Some r
  | _ => None
  end.

(** The own properties of an object.  Inherited properties, and the
    properties of functions and of primitive values, are not modelled. *)
Abbreviation props := (gmap string value).

(** The page as the sandbox sees it: the host's global object [window],
    the other plain objects of the page ([heap]), and the three parts of
    the sandbox made by [createSandbox]: [sandboxWindow], the stores
    [global] (one for each application name) and [proxyCache].  Before
    [start] the variable [sandbox] is [null] and nothing reads it; the
    record then holds empty parts. *)
Record realm := {
  window : props;
  heap : gmap nat props;
  sandboxWindow : props;
  global : gmap string props;
  proxyCache : list (ref * ref)
}.

Definition set_window (f : props -> props) (rl : realm) : realm :=
  {| window := f (window rl); heap := heap rl; sandboxWindow := sandboxWindow rl;
     global := global rl; proxyCache := proxyCache rl |}.

Definition set_heap (f : gmap nat props -> gmap nat props) (rl : realm) : realm :=
  {| window := window rl; heap := f (heap rl); sandboxWindow := sandboxWindow rl;
     global := global rl; proxyCache := proxyCache rl |}.

Definition set_sandboxWindow (f : props -> props) (rl : realm) : realm :=
  {| window := window rl; heap := heap rl; sandboxWindow := f (sandboxWindow rl);
     global := global rl; proxyCache := proxyCache rl |}.

Definition set_global (f : gmap string props -> gmap string props) (rl : realm) : realm :=
  {| window := window rl; heap := heap rl; sandboxWindow := sandboxWindow rl;
     global := f (global rl); proxyCache := proxyCache rl |}.

Definition set_proxyCache (f : list (ref * ref) -> list (ref * ref)) (rl : realm) : realm :=
  {| window := window rl; heap := heap rl; sandboxWindow := sandboxWindow rl;
     global := global rl; proxyCache := f (proxyCache rl) |}.

(** The names [Object.prototype] defines.  A plain object has them
    without holding them: [name in obj] is true of them and [obj[name]]
    is the inherited value, and an assignment to [__proto__] changes the
    prototype and stores nothing.  The stores, [global] and
    [sandboxWindow] are plain objects.  The lookups and assignments
    below go by own properties: they follow the code for the application
    names and property names that are [ordinary], and the statements
    about the sandbox say where they need a name to be so. *)
Definition object_prototype_names : list string :=
  ["constructor"; "__defineGetter__"; "__defineSetter__"; "hasOwnProperty";
   "__lookupGetter__"; "__lookupSetter__"; "isPrototypeOf"; "propertyIsEnumerable";
   "toString"; "valueOf"; "__proto__"; "toLocaleString"].

Definition ordinary (n : string) : Prop := n ∉ object_prototype_names.

(** [proxyCache.get(target)] *)
Fixpoint cache_get (target : ref) (c : list (ref * ref)) : option ref :=
  match c with
  | [] => None
  | (t, p) :: c' => if decide (t = target) then Some p else cache_get target c'
  end.

(** The key under which [global[appName]] is looked up: the handler of the
    base proxy closes over [null], which as a property key is the string
    null. *)
Definition store_key (appName : option string) : string :=
  match appName with
  | Some a => a
  | None => "null"
  end.

(** [appName] as a condition: [null] and the empty string count as
    false. *)
Definition name_truthy (appName : option string) : bool :=
  match appName with
  | Some a => negb (String.eqb a "")
  | None => false
  end.

Definition createProxy (target : ref) (appName : option string) (rl : realm)
  : ref * realm :=
  match cache_get target (proxyCache rl) with
  | Some p => (p, rl)
  | None =>
      let p := RProxy target appName in
      (p, set_proxyCache (fun c => c ++ [(target, p)]) rl)
  end.

(** [const sandboxProxy = createProxy(sandboxWindow, null)] *)
Definition sandboxProxy : ref := RProxy RSandboxWindow None.

Definition self_names : list string := ["window"; "self"; "globalThis"].
Definition passthrough_names : list string :=
  ["document"; "location"; "navigator"; "history"].

(** [if (value && typeof value === 'object') return createProxy(value,
    appName); return value] *)
Definition wrap (v : value) (appName : option string) (rl : realm) : value * realm :=
  match is_object v with
  | Some r => let '(p, rl') := createProxy r appName rl in (VObj p, rl')
  | None => (v, rl)
  end.

(** [r[prop]]: a lookup for a plain object, the handler [get] for a
    proxy. *)
Fixpoint get_prop (r : ref) (prop : string) (rl : realm) : value * realm :=
  match r with
  | RWindow => (default VUndefined (window rl !! prop), rl)
  | RSandboxWindow => (default VUndefined (sandboxWindow rl !! prop), rl)
  | RObj n => (default VUndefined (heap rl !! n ≫= (fun o => o !! prop)), rl)
  | RProxy target appName =>
      match global rl !! store_key appName ≫= (fun st => st !! prop) with
      | Some v => wrap v appName rl
      | None =>
          let '(v, rl1) := get_prop target prop rl in
          if bool_decide (prop ∈ self_names) then (VObj sandboxProxy, rl1)
          else if bool_decide (prop ∈ passthrough_names) then (v, rl1)
          else wrap v appName rl1
      end
  end.

(** [r[prop] = v]: an assignment for a plain object, the handler [set]
    for a proxy. *)
Fixpoint set_prop (r : ref) (prop : string) (v : value) (rl : realm) : realm :=
  match r with
  | RWindow => set_window (fun w => <[prop := v]> w) rl
  | RSandboxWindow => set_sandboxWindow (fun w => <[prop := v]> w) rl
  | RObj n => set_heap (fun h => <[n := <[prop := v]> (default ∅ (h !! n))]> h) rl
  | RProxy target appName =>
      if name_truthy appName && negb (is_function v) then
        set_global (fun g =>
          <[store_key appName := <[prop := v]> (default ∅ (g !! store_key appName))]> g) rl
      else set_prop target prop v rl
  end.

(** What the code of an application does with the [window] it is given.
    [SSet] and [SGet] go through the proxy, along a path of property
    reads.  [SRegister prop v] is [sandbox.global[name][prop] = v] for
    the running application: code made by [new Function] runs in the
    global scope, where the top-level binding [sandbox] of the program is
    in reach. *)
Inductive stmt :=
| SSet (path : list string) (prop : string) (v : value)
| SGet (path : list string) (prop : string)
| SRegister (prop : string) (v : value).

(** Following a path of property reads; [None] is a [TypeError] (a
    property of [undefined] or of [null]). *)
Fixpoint follow (cur : value) (path : list string) (rl : realm)
  : option (value * realm) :=
  match path with
  | [] => Some (cur, rl)
  | p :: path' =>
      match cur with
      | VUndefined | VNull => None
      | VObj r => let '(v, rl') := get_prop r p rl in follow v path' rl'
      | _ => follow VUndefined path' rl
      end
  end.

Definition run_stmt (w : ref) (appName : string) (st : stmt) (rl : realm)
  : option realm :=
  match st with
  | SSet path prop v =>
      match follow (VObj w) path rl with
      | Some (VObj r, rl') => Some (set_prop r prop v rl')
      | Some (VUndefined, _) | Some (VNull, _) | None => None
      | Some (_, rl') => Some rl'
      end
  | SGet path prop =>
      match follow (VObj w) (path ++ [prop]) rl with
      | Some (_, rl') => Some rl'
      | None => None
      end
  | SRegister prop v =>
      match global rl !! appName with
      | Some st => Some (set_global (fun g => <[appName := <[prop := v]> st]> g) rl)
      | None => None
      end
  end.

(** The body of [func(appProxy, ...)] inside [try]: the statements run
    until one throws. *)
Fixpoint run_code (w : ref) (appName : string) (code : list stmt) (rl : realm)
  : realm :=
  match code with
  | [] => rl
  | st :: code' =>
      match run_stmt w appName st rl with
      | Some rl' => run_code w appName code' rl'
      | None => rl
      end
  end.

(** [createSandbox()] *)
Definition createSandbox (rl : realm) : realm :=
  {| window := window rl;
     heap := heap rl;
     sandboxWindow :=
       <["getGlobalState" := VNative "getGlobalState"]>
       (<["setGlobalState" := VNative "setGlobalState"]>
       (<["__MICRO_APP_NAME__" := VNull]>
       (<["__MICRO_APP_ENVIRONMENT__" := VBool true]> (window rl))));
     global := ∅;
     proxyCache := [(RSandboxWindow, sandboxProxy)] |}.

(** [sandbox.exec(code, appName)] *)
Definition exec (code : list stmt) (appName : string) (rl : realm) : realm :=
  let rl1 := set_sandboxWindow (fun w => <["__MICRO_APP_NAME__" := VStr appName]> w) rl in
  let rl2 := set_proxyCache (fun _ => []) rl1 in
  let '(appProxy, rl3) := createProxy RSandboxWindow (Some appName) rl2 in
  run_code appProxy appName code rl3.

(** The code given to [sandbox.exec] throws: the [catch] of [exec] prints
    an error. *)
Fixpoint run_code_throws (w : ref) (appName : string) (code : list stmt) (rl : realm)
  : bool :=
  match code with
  | [] => false
  | st :: code' =>
      match run_stmt w appName st rl with
      | Some rl' => run_code_throws w appName code' rl'
      | None => true
      end
  end.

Definition exec_throws (code : list stmt) (appName : string) (rl : realm) : bool :=
  let rl1 := set_sandboxWindow (fun w => <["__MICRO_APP_NAME__" := VStr appName]> w) rl in
  let rl2 := set_proxyCache (fun _ => []) rl1 in
  let '(appProxy, rl3) := createProxy RSandboxWindow (Some appName) rl2 in
  run_code_throws appProxy appName code rl3.

(** The proxy of [sandboxWindow] for an application name. *)
Definition view (appName : option string) : ref := RProxy RSandboxWindow appName.

(** ** The orchestrator *)

(** A registered application: [{ name, entry, container, activeRule }]. *)
Record app := {
  name : string;
  entry : string;
  container : string;
  activeRule : string
}.

#[global] Instance app_eq_dec : EqDecision app.
Proof. solve_decision. Defined.

(** The element [loadAndMountApp] makes for an application, and the style
    element [loadStyles] adds to the head. *)
Record element := {
  el_id : string;
  el_class : string;
  el_html : chars
}.

Record style_el := {
  data_app : string;
  css : chars
}.

(** What the network answers for a URL: the text, and for a script what
    the text does when it is run. *)
Record response := {
  body : chars;
  program : list stmt
}.

(** What the program does that can be seen from outside, in order: the
    lines on the console, the requests, the changes to the containers
    ([container.innerHTML = ''] and [container.appendChild]) and the
    calls [sandbox.global[n][hook](...)] of the applications' hooks.  A
    hook returns or throws (see [throws] below); it is taken not to call
    back into the program. *)
Inductive event :=
| LRegistered (n : string)
| LRoute (path : string)
| LMatched (m : option app)
| LMounted (n : string)
| LUnmounted (n : string)
| ENoContainer (c : string)
| ELoadFailed (n : string)
| EStyleFailed (url : chars)
| EScriptFailed (url : chars)
| EExecFailed
| Fetch (url : chars)
| Cleared (c : string)
| Appended (c id : string)
| Hook (n hook : string).

#[global] Instance event_eq_dec : EqDecision event.
Proof. solve_decision. Defined.

(** [window.history.pushState] and [replaceState]: the browser's own
    function, or a wrapper made by [patchRouter] around the function that
    was installed before. *)
Inductive hist_fn :=
| Native
| Patched (original : hist_fn).

(** A call of [loadAndMountApp] suspended at an [await]: on the entry
    document, on a style sheet (with the style sheets and the scripts
    still to come), or on a script.  An [await] that does not wait for
    the network is passed without a stop. *)
Inductive stage :=
| AwaitEntry
| AwaitStyle (url : chars) (more : list chars) (scripts_todo : list chars)
| AwaitScript (url : chars) (more : list chars).

Record task := {
  t_app : app;
  t_stage : stage
}.

(** The variables of the program ([apps], [activeApp], [sandbox]), the
    part of the page it uses (the path of the location, the two history
    functions, the number of [popstate] listeners, the containers by
    selector with their children, the style elements of the head), the
    suspended calls, the network, and the trace of events so far.  A
    selector stands for one element, and the set of containers does not
    change.  Three more fields say what the browser and the applications
    do where a call of the program can be left by an exception:
    [bad_selector] holds of the selectors that [document.querySelector]
    refuses with a [SyntaxError]; [throws] holds of the functions that
    throw when they are called as a hook; [resolve cur url] is the path
    of the URL that [history.pushState] or [replaceState] makes of its
    argument [url] on a page whose path is [cur], and [None] where the
    browser refuses the URL with a [SecurityError]. *)
Record state := {
  apps : list app;
  activeApp : option app;
  sandbox : realm;
  pathname : string;
  pushState : hist_fn;
  replaceState : hist_fn;
  popstate : nat;
  containers : gmap string (list element);
  head : list style_el;
  tasks : list task;
  trace : list event;
  net : chars -> option response;
  bad_selector : string -> bool;
  throws : value -> bool;
  resolve : string -> string -> option string
}.

Definition set_apps (f : (list app) -> (list app)) (s : state) : state :=
  {| apps := f (apps s); activeApp := activeApp s; sandbox := sandbox s;
     pathname := pathname s; pushState := pushState s; replaceState := replaceState s;
     popstate := popstate s; containers := containers s; head := head s;
     tasks := tasks s; trace := trace s; net := net s;
     bad_selector := bad_selector s; throws := throws s; resolve := resolve s |}.

Definition set_activeApp (f : (option app) -> (option app)) (s : state) : state :=
  {| apps := apps s; activeApp := f (activeApp s); sandbox := sandbox s;
     pathname := pathname s; pushState := pushState s; replaceState := replaceState s;
     popstate := popstate s; containers := containers s; head := head s;
     tasks := tasks s; trace := trace s; net := net s;
     bad_selector := bad_selector s; throws := throws s; resolve := resolve s |}.

Definition set_sandbox (f : realm -> realm) (s : state) : state :=
  {| apps := apps s; activeApp := activeApp s; sandbox := f (sandbox s);
     pathname := pathname s; pushState := pushState s; replaceState := replaceState s;
     popstate := popstate s; containers := containers s; head := head s;
     tasks := tasks s; trace := trace s; net := net s;
     bad_selector := bad_selector s; throws := throws s; resolve := resolve s |}.

Definition set_pathname (f : string -> string) (s : state) : state :=
  {| apps := apps s; activeApp := activeApp s; sandbox := sandbox s;
     pathname := f (pathname s); pushState := pushState s; replaceState := replaceState s;
     popstate := popstate s; containers := containers s; head := head s;
     tasks := tasks s; trace := trace s; net := net s;
     bad_selector := bad_selector s; throws := throws s; resolve := resolve s |}.

Definition set_pushState (f : hist_fn -> hist_fn) (s : state) : state :=
  {| apps := apps s; activeApp := activeApp s; sandbox := sandbox s;
     pathname := pathname s; pushState := f (pushState s); replaceState := replaceState s;
     popstate := popstate s; containers := containers s; head := head s;
     tasks := tasks s; trace := trace s; net := net s;
     bad_selector := bad_selector s; throws := throws s; resolve := resolve s |}.

Definition set_replaceState (f : hist_fn -> hist_fn) (s : state) : state :=
  {| apps := apps s; activeApp := activeApp s; sandbox := sandbox s;
     pathname := pathname s; pushState := pushState s; replaceState := f (replaceState s);
     popstate := popstate s; containers := containers s; head := head s;
     tasks := tasks s; trace := trace s; net := net s;
     bad_selector := bad_selector s; throws := throws s; resolve := resolve s |}.

Definition set_popstate (f : nat -> nat) (s : state) : state :=
  {| apps := apps s; activeApp := activeApp s; sandbox := sandbox s;
     pathname := pathname s; pushState := pushState s; replaceState := replaceState s;
     popstate := f (popstate s); containers := containers s; head := head s;
     tasks := tasks s; trace := trace s; net := net s;
     bad_selector := bad_selector s; throws := throws s; resolve := resolve s |}.

Definition set_containers (f : (gmap string (list element)) -> (gmap string (list element))) (s : state) : state :=
  {| apps := apps s; activeApp := activeApp s; sandbox := sandbox s;
     pathname := pathname s; pushState := pushState s; replaceState := replaceState s;
     popstate := popstate s; containers := f (containers s); head := head s;
     tasks := tasks s; trace := trace s; net := net s;
     bad_selector := bad_selector s; throws := throws s; resolve := resolve s |}.

Definition set_head (f : (list style_el) -> (list style_el)) (s : state) : state :=
  {| apps := apps s; activeApp := activeApp s; sandbox := sandbox s;
     pathname := pathname s; pushState := pushState s; replaceState := replaceState s;
     popstate := popstate s; containers := containers s; head := f (head s);
     tasks := tasks s; trace := trace s; net := net s;
     bad_selector := bad_selector s; throws := throws s; resolve := resolve s |}.

Definition set_tasks (f : (list task) -> (list task)) (s : state) : state :=
  {| apps := apps s; activeApp := activeApp s; sandbox := sandbox s;
     pathname := pathname s; pushState := pushState s; replaceState := replaceState s;
     popstate := popstate s; containers := containers s; head := head s;
     tasks := f (tasks s); trace := trace s; net := net s;
     bad_selector := bad_selector s; throws := throws s; resolve := resolve s |}.

Definition set_trace (f : (list event) -> (list event)) (s : state) : state :=
  {| apps := apps s; activeApp := activeApp s; sandbox := sandbox s;
     pathname := pathname s; pushState := pushState s; replaceState := replaceState s;
     popstate := popstate s; containers := containers s; head := head s;
     tasks := tasks s; trace := f (trace s); net := net s;
     bad_selector := bad_selector s; throws := throws s; resolve := resolve s |}.

Definition set_bad_selector (f : string -> bool) (s : state) : state :=
  {| apps := apps s; activeApp := activeApp s; sandbox := sandbox s;
     pathname := pathname s; pushState := pushState s; replaceState := replaceState s;
     popstate := popstate s; containers := containers s; head := head s;
     tasks := tasks s; trace := trace s; net := net s;
     bad_selector := f; throws := throws s; resolve := resolve s |}.

Definition set_throws (f : value -> bool) (s : state) : state :=
  {| apps := apps s; activeApp := activeApp s; sandbox := sandbox s;
     pathname := pathname s; pushState := pushState s; replaceState := replaceState s;
     popstate := popstate s; containers := containers s; head := head s;
     tasks := tasks s; trace := trace s; net := net s;
     bad_selector := bad_selector s; throws := f; resolve := resolve s |}.

Definition set_resolve (f : string -> string -> option string) (s : state) : state :=
  {| apps := apps s; activeApp := activeApp s; sandbox := sandbox s;
     pathname := pathname s; pushState := pushState s; replaceState := replaceState s;
     popstate := popstate s; containers := containers s; head := head s;
     tasks := tasks s; trace := trace s; net := net s;
     bad_selector := bad_selector s; throws := throws s; resolve := f |}.

Definition log (e : event) (s : state) : state :=
  set_trace (fun t => t ++ [e]) s.

(** How a call of a function of the program ends: it returns, or it is
    left by an exception; either way it leaves a state behind. *)
Inductive outcome :=
| Returned (s : state)
| Thrown (s : state).

Definition after (o : outcome) : state :=
  match o with
  | Returned s | Thrown s => s
  end.

Definition thrown (o : outcome) : bool :=
  match o with
  | Thrown _ => true
  | Returned _ => false
  end.

Definition registerMicroApps (a : app) (s : state) : state :=
  log (LRegistered (name a)) (set_apps (fun l => l ++ [a]) s).

(** [apps.find(app => pathname.startsWith(app.activeRule))] *)
Definition find_app (s : state) : option app :=
  List.find (fun a => String.prefix (activeRule a) (pathname s)) (apps s).

(** [sandbox.global[n] && typeof sandbox.global[n][hook] === 'function'] *)
Definition has_hook (n hook : string) (s : state) : bool :=
  match global (sandbox s) !! n ≫= (fun st => st !! hook) with
  | Some v => is_function v
  | None => false
  end.

(** The call [sandbox.global[n][hook](...)] throws. *)
Definition hook_throws (n hook : string) (s : state) : bool :=
  match global (sandbox s) !! n ≫= (fun st => st !! hook) with
  | Some v => throws s v
  | None => false
  end.

(** Step 6 of [loadAndMountApp]: the call of the [mount] hook.  The call
    is inside the [try] of [loadAndMountApp]: when the hook throws, the
    [catch] prints the error of a failed load. *)
Definition mount_step (a : app) (s : state) : state :=
  if has_hook (name a) "mount" s
  then
    let s1 := log (Hook (name a) "mount") s in
    if hook_throws (name a) "mount" s then log (ELoadFailed (name a)) s1
    else log (LMounted (name a)) s1
  else s.

(** The loop of [executeScripts] from the scripts still to run: request
    the next one and wait, or go on to step 6. *)
Definition next_script (a : app) (todo : list chars) (s : state)
  : state * option stage :=
  match todo with
  | [] => (mount_step a s, None)
  | u :: more => (log (Fetch u) s, Some (AwaitScript u more))
  end.

(** [executeScripts(scripts, app)] up to its first [await]. *)
Definition executeScripts (a : app) (todo : list chars) (s : state)
  : state * option stage :=
  next_script a todo
    (set_sandbox (set_global (fun g => <[name a := ∅]> g)) s).

(** The loop of [loadStyles] from the style sheets still to load, and
    then [executeScripts]. *)
Definition next_style (a : app) (todo scripts_todo : list chars) (s : state)
  : state * option stage :=
  match todo with
  | [] => executeScripts a scripts_todo s
  | u :: more => (log (Fetch u) s, Some (AwaitStyle u more scripts_todo))
  end.

Definition appElement (a : app) (html : chars) : element :=
  {| el_id := "app-" +:+ name a;
     el_class := "micro-app micro-app-" +:+ name a;
     el_html := html |}.

(** A suspended call goes on when its request has settled, up to the next
    [await] or to its end. *)
Definition resume (a : app) (st : stage) (s : state) : state * option stage :=
  match st with
  | AwaitEntry =>
      match net s (cs (entry a)) with
      | None => (log (ELoadFailed (name a)) s, None)
      | Some r =>
          let p := parseHtml (body r) in
          let el := appElement a (htmlContent p) in
          let s1 := set_containers (alter (fun l => l ++ [el]) (container a)) s in
          next_style a (styles p) (scripts p) (log (Appended (container a) (el_id el)) s1)
      end
  | AwaitStyle u more scripts_todo =>
      let s1 := match net s u with
                | None => log (EStyleFailed u) s
                | Some r =>
                    set_head (fun h => h ++ [ {| data_app := name a;
                                                 css := scopedCss (body r) (cs (name a)) |} ]) s
                end in
      next_style a more scripts_todo s1
  | AwaitScript u more =>
      let s1 := match net s u with
                | None => log (EScriptFailed u) s
                | Some r =>
                    let s' := set_sandbox (exec (program r) (name a)) s in
                    if exec_throws (program r) (name a) (sandbox s)
                    then log EExecFailed s' else s'
                end in
      next_script a more s1
  end.

(** [loadAndMountApp(app)] up to its first [await].  The function is
    [async]: when [document.querySelector] throws on the selector, the
    promise it returns is rejected, the caller goes on, and nothing is
    printed by the program. *)
Definition loadAndMountApp (a : app) (s : state) : state :=
  if bad_selector s (container a) then s
  else
    match containers s !! container a with
    | None => log (ENoContainer (container a)) s
    | Some _ =>
        let s1 := log (Cleared (container a))
                    (set_containers (fun d => <[container a := []]> d) s) in
        set_tasks (fun ts => ts ++ [ {| t_app := a; t_stage := AwaitEntry |} ])
          (log (Fetch (cs (entry a))) s1)
    end.

(** [unmountApp(app)].  It is left by an exception, with [activeApp] as
    it was, when [document.querySelector] throws on the selector, and
    when the [unmount] hook throws: nothing catches either. *)
Definition unmountApp (a : app) (s : state) : outcome :=
  if bad_selector s (container a) then Thrown s
  else
    match containers s !! container a with
    | None => Returned (set_activeApp (fun _ => None) s)
    | Some _ =>
        let called := has_hook (name a) "unmount" s in
        let s1 := if called then log (Hook (name a) "unmount") s else s in
        if called && hook_throws (name a) "unmount" s then Thrown s1
        else
          let s2 := if called then log (LUnmounted (name a)) s1 else s1 in
          let s3 := log (Cleared (container a))
                      (set_containers (fun d => <[container a := []]> d) s2) in
          Returned (set_activeApp (fun _ => None)
                      (set_sandbox (set_global (fun g => delete (name a) g)) s3))
    end.

(** [reroute()], with the way it ends: an exception of [unmountApp]
    leaves it before [activeApp = matchedApp]. *)
Definition reroute_call (s : state) : outcome :=
  let s1 := log (LRoute (pathname s)) s in
  let matchedApp := find_app s1 in
  let s2 := log (LMatched matchedApp) s1 in
  match matchedApp with
  | None => Returned s2
  | Some m =>
      match activeApp s2 with
      | Some act =>
          if String.eqb (name act) (name m) then Returned s2
          else
            match unmountApp act s2 with
            | Thrown s3 => Thrown s3
            | Returned s3 =>
                Returned (loadAndMountApp m (set_activeApp (fun _ => Some m) s3))
            end
      | None => Returned (loadAndMountApp m (set_activeApp (fun _ => Some m) s2))
      end
  end.

(** The state a call of [reroute] leaves, however it ends. *)
Definition reroute (s : state) : state := after (reroute_call s).

(** A call of the function installed as [pushState] or [replaceState]
    with the argument [url].  The browser's own function puts the page
    on the path the URL resolves to, or throws.  A wrapper made by
    [patchRouter] calls the function it wraps and then [reroute]; an
    exception of either leaves the wrapper, and the wrappers around
    it. *)
Fixpoint call_history (f : hist_fn) (url : string) (s : state) : outcome :=
  match f with
  | Native =>
      match resolve s (pathname s) url with
      | Some path => Returned (set_pathname (fun _ => path) s)
      | None => Thrown s
      end
  | Patched original =>
      match call_history original url s with
      | Thrown s' => Thrown s'
      | Returned s' => reroute_call s'
      end
  end.

Definition patchRouter (s : state) : state :=
  set_popstate S
    (set_replaceState Patched
       (set_pushState Patched s)).

Definition start (s : state) : state :=
  reroute (patchRouter (set_sandbox createSandbox s)).

(** [window.navigateTo(path)] *)
Definition navigateTo (path : string) (s : state) : state :=
  after (call_history (pushState s) path s).

(** The browser goes to another entry of the history, whose path is
    [path], and fires [popstate]: every listener is called, also after
    one of them has thrown. *)
Definition fire_popstate (path : string) (s : state) : state :=
  Nat.iter (popstate s) reroute (set_pathname (fun _ => path) s).

(** The request awaited by the [i]-th suspended call settles. *)
Definition settle (i : nat) (s : state) : state :=
  match tasks s !! i with
  | None => s
  | Some t =>
      match resume (t_app t) (t_stage t) s with
      | (s', Some st) =>
          set_tasks (fun ts => <[i := {| t_app := t_app t; t_stage := st |}]> ts) s'
      | (s', None) => set_tasks (fun ts => delete i ts) s'
      end
  end.

(** What happens to the page, one thing at a time. *)
Inductive action :=
| ARegister (a : app)
| AStart
| ANavigate (path : string)
| AReplace (path : string)
| APopstate (path : string)
| ASettle (i : nat).

Definition step (s : state) (x : action) : state :=
  match x with
  | ARegister a => registerMicroApps a s
  | AStart => start s
  | ANavigate path => navigateTo path s
  | AReplace path => after (call_history (replaceState s) path s)
  | APopstate path => fire_popstate path s
  | ASettle i => settle i s
  end.

Definition run (s : state) (xs : list action) : state := fold_left step xs s.

Definition empty_realm : realm :=
  {| window := ∅; heap := ∅; sandboxWindow := ∅; global := ∅; proxyCache := [] |}.

(** The page before the program has done anything: its path, its
    containers, the properties of its [window], the network.  On this
    page every selector is a valid one, no hook throws, and the
    arguments given to [pushState] and [replaceState] are taken to be
    paths as the browser writes them ([/a], not [/b/../a]), which it
    keeps as they are. *)

Definition page (path : string) (cont : list string) (w : props)
    (network : chars -> option response) : state :=
  {| apps := []; activeApp := None;
     sandbox := set_window (fun _ => w) empty_realm;
     pathname := path; pushState := Native; replaceState := Native; popstate := 0;
     containers := list_to_map (map (fun c => (c, [])) cont);
     head := []; tasks := []; trace := []; net := network;
     bad_selector := fun _ => false; throws := fun _ => false;
     resolve := fun _ url => Some url |}.

(** The suspended loads go on to their end, the oldest first. *)
Fixpoint drain (fuel : nat) (s : state) : state :=
  match fuel with
  | O => s
  | S n =>
      match tasks s with
      | [] => s
      | _ :: _ => drain n (settle 0 s)
      end
  end.

(** ** Notions used by the statements *)

(** Lines on the console, as opposed to requests, changes to the page
    and hook calls. *)
Definition is_console (e : event) : bool :=
  match e with
  | LRegistered _ | LRoute _ | LMatched _ | LMounted _ | LUnmounted _ => true
  | _ => false
  end.

Definition work (tr : list event) : list event :=
  List.filter (fun e => negb (is_console e)) tr.

(** A state with the console lines left out of its trace: two states with
    the same [observable] differ only in what was printed. *)
Definition observable (s : state) : state := set_trace work s.

(** The calls of [reroute] recorded in a trace, by its first console
    line. *)
Definition is_route (e : event) : bool :=
  match e with
  | LRoute _ => true
  | _ => false
  end.

Definition notifications (tr : list event) : nat :=
  length (List.filter is_route tr).

Definition is_hook (e : event) : bool :=
  match e with
  | Hook _ _ => true
  | _ => false
  end.

Definition hook_calls (tr : list event) : list event := List.filter is_hook tr.

Definition is_bootstrap (e : event) : bool :=
  match e with
  | Hook _ h => String.eqb h "bootstrap"
  | _ => false
  end.

(** No call of a [bootstrap] hook in a trace. *)
Definition no_bootstrap (tr : list event) : Prop :=
  Forall (fun e => is_bootstrap e = false) tr.

Definition count_event (e : event) (tr : list event) : nat :=
  length (List.filter (fun e' => bool_decide (e' = e)) tr).

(** Reading the hook calls of a trace: [live] lists the applications
    whose [mount] hook has been called and whose [unmount] hook has not
    been called since.  The result tells whether some [mount] hook is
    called while another application is live. *)
Fixpoint mount_overlap (tr : list event) (live : list string) : bool :=
  match tr with
  | [] => false
  | Hook n h :: tr' =>
      if String.eqb h "mount" then
        existsb (fun n' => negb (String.eqb n' n)) live
        || mount_overlap tr' (n :: live)
      else if String.eqb h "unmount" then
        mount_overlap tr' (List.filter (fun n' => negb (String.eqb n' n)) live)
      else mount_overlap tr' live
  | _ :: tr' => mount_overlap tr' live
  end.

(** The current path is served: no application matches it, or the active
    application has the name of the one that matches. *)
Definition served (s : state) : Prop :=
  match find_app s with
  | None => True
  | Some m => exists act, activeApp s = Some act /\ name act = name m
  end.

(** *** What [reroute] adds to the trace *)

(** The two console lines. *)
Definition logged (s : state) : state :=
  log (LMatched (find_app s)) (log (LRoute (pathname s)) s).

(** [unmountApp(act)] is left by an exception: the selector of the
    container is refused, or the container is found and the [unmount]
    hook on record throws. *)
Definition unmount_throws (act : app) (s : state) : bool :=
  bad_selector s (container act)
  || (bool_decide (is_Some (containers s !! container act))
      && has_hook (name act) "unmount" s
      && hook_throws (name act) "unmount" s).

Definition unmount_events (act : app) (s : state) : list event :=
  if bad_selector s (container act) then []
  else
    match containers s !! container act with
    | Some _ =>
        if has_hook (name act) "unmount" s then
          if hook_throws (name act) "unmount" s then [Hook (name act) "unmount"]
          else [Hook (name act) "unmount"; LUnmounted (name act);
                Cleared (container act)]
        else [Cleared (container act)]
    | None => []
    end.

Definition load_events (m : app) (s : state) : list event :=
  if bad_selector s (container m) then []
  else
    match containers s !! container m with
    | Some _ => [Cleared (container m); Fetch (cs (entry m))]
    | None => [ENoContainer (container m)]
    end.

Definition reroute_events (s : state) : list event :=
  match find_app s with
  | None => []
  | Some m =>
      match activeApp s with
      | Some act =>
          if String.eqb (name act) (name m) then []
          else if unmount_throws act s then unmount_events act s
          else unmount_events act s ++ load_events m s
      | None => load_events m s
      end
  end.

(** *** What is in the page *)

(** The elements in the page, by their [id]. *)
Definition mounted (s : state) : list string :=
  map el_id (concat (map snd (map_to_list (containers s)))).

(** At most one application has its element in the page: any two
    elements found in the containers are one and the same, alone in its
    container. *)
Definition single_mounted (s : state) : Prop :=
  forall c1 c2 els1 els2 e1 e2,
    containers s !! c1 = Some els1 -> containers s !! c2 = Some els2 ->
    e1 ∈ els1 -> e2 ∈ els2 ->
    c1 = c2 /\ e1 = e2 /\ els1 = [e1].

(** The containers are empty, but for the one of application [a], which
    may hold the element of [a] and nothing else. *)
Definition page_ok (s : state) (a : option app) : Prop :=
  forall c els, containers s !! c = Some els ->
    els = [] \/
    exists act html, a = Some act /\ c = container act /\ els = [appElement act html].

(** Nothing is suspended, and the page holds at most the element of the
    active application. *)
Definition quiet (s : state) : Prop :=
  tasks s = [] /\ page_ok s (activeApp s).

(** The same with at most one load suspended, that of the active
    application; until its entry document has arrived the page is
    empty. *)
Definition loading (s : state) : Prop :=
  match tasks s with
  | [] => page_ok s (activeApp s)
  | [t] =>
      activeApp s = Some (t_app t) /\
      match t_stage t with
      | AwaitEntry => page_ok s None
      | _ => page_ok s (activeApp s)
      end
  | _ => False
  end.

(** The requests a suspended load has still to wait for, at most. *)
Definition requests_left (s : state) (t : task) : nat :=
  match t_stage t with
  | AwaitEntry =>
      match net s (cs (entry (t_app t))) with
      | Some r => S (length (styles (parseHtml (body r))) + length (scripts (parseHtml (body r))))
      | None => 1
      end
  | AwaitStyle _ more scripts_todo => S (length more + length scripts_todo)
  | AwaitScript _ more => S (length more)
  end.

Definition is_settle (x : action) : bool :=
  match x with
  | ASettle _ => true
  | _ => false
  end.

(** [serial s s']: [s'] is reached from [s] by a run in which every load
    has settled before the next registration, start or navigation. *)
Inductive serial : state -> state -> Prop :=
| serial_here s : serial s s
| serial_next s s1 x n :
    serial s s1 ->
    is_settle x = false ->
    tasks (drain n (step s1 x)) = [] ->
    serial s (drain n (step s1 x)).

(** *** Blanks *)

Definition is_blank (c : ascii) : bool :=
  ascii_eqb c " "%char || ascii_eqb c "010"%char || ascii_eqb c "009"%char
  || ascii_eqb c "013"%char.

Fixpoint trim_left (s : chars) : chars :=
  match s with
  | c :: s' => if is_blank c then trim_left s' else s
  | [] => []
  end.

(** A text without the blanks around it, and without any blank. *)
Definition trim (s : chars) : chars := rev (trim_left (rev (trim_left s))).

Definition squeeze (s : chars) : chars :=
  List.filter (fun c => negb (is_blank c)) s.

(** ** Sample pages *)

Definition script_tag (src : chars) : chars :=
  cs "<script src=" ++ [dq] ++ src ++ [dq] ++ cs "></script>".

(** An entry document with two external scripts and one inline script. *)
Definition sample_entry : chars :=
  cs "<div id=app></div>" ++ script_tag (cs "./a.js") ++ script_tag (cs "./b.js")
  ++ cs "<script>boot()</script>".

Definition media_block : chars :=
  cs "@media (max-width: 600px) { .btn { color: red; } }".

(** A script that puts a [mount] and an [unmount] hook into the store of
    its application. *)
Definition hooks_program : list stmt :=
  [SRegister "mount" (VFun 1); SRegister "unmount" (VFun 2)].

Definition appA : app :=
  {| name := "a"; entry := "http://x/a"; container := "#c"; activeRule := "/a" |}.
Definition appB : app :=
  {| name := "b"; entry := "http://x/b"; container := "#c"; activeRule := "/b" |}.

Definition sample_net (u : chars) : option response :=
  if decide (u = cs "http://x/a")
  then Some {| body := cs "<p>A</p>" ++ script_tag (cs "a.js"); program := [] |}
  else if decide (u = cs "http://x/b")
  then Some {| body := cs "<p>B</p>" ++ script_tag (cs "b.js"); program := [] |}
  else if decide (u = cs "a.js") then Some {| body := []; program := hooks_program |}
  else if decide (u = cs "b.js") then Some {| body := []; program := hooks_program |}
  else None.

(** Two applications registered on one container, the program started on
    the path [/]. *)
Definition sample_page : state :=
  run (page "/" ["#c"] ∅ sample_net) [ARegister appA; ARegister appB; AStart].

(** Two navigations in a row, the requests settling afterwards. *)
Definition quick_navigation : list action :=
  [ANavigate "/a"; ANavigate "/b"; ASettle 0; ASettle 0; ASettle 0; ASettle 0].

(** The same navigations, each load settling before the next one. *)
Definition slow_navigation : list action :=
  [ANavigate "/a"; ASettle 0; ASettle 0; ANavigate "/b"; ASettle 0; ASettle 0].

(** The first application active and mounted, on its own path. *)
Definition served_page : state :=
  run sample_page [ANavigate "/a"; ASettle 0; ASettle 0].

(** The same, on a path that matches nothing. *)
Definition unmatched_page : state :=
  set_pathname (fun _ => "/nowhere") served_page.

(** The same, on the path of the second application. *)
Definition switch_page : state :=
  set_pathname (fun _ => "/b") served_page.

(** A host page that defines [alert], and the sandbox made over it. *)
Definition host_realm : realm :=
  createSandbox (set_window (fun _ => {[ "alert" := VNative "alert" ]}) empty_realm).

(** A host page with an object [console], and the sandbox made over
    it. *)
Definition console_realm : realm :=
  createSandbox (set_window (fun _ => {[ "console" := VObj (RObj 0) ]}) empty_realm).

(** ** Statements of the specification that the program does not meet *)

(** At most one application is mounted: [single_mounted] above. *)

(** A write through the view of [a] is kept in the store of [a], and is
    seen neither through the view of [b] nor in the host's [window]. *)
Definition write_isolated (a b prop : string) (v : value) (rl : realm) : Prop :=
  let rl' := set_prop (view (Some a)) prop v rl in
  (global rl' !! a ≫= (fun st => st !! prop)) = Some v /\
  (get_prop (view (Some b)) prop rl').1 = (get_prop (view (Some b)) prop rl).1 /\
  window rl' !! prop = window rl !! prop.

(** An active application is unmounted when nothing matches the path. *)
Definition unmounts_when_unmatched (s : state) : Prop :=
  forall act, activeApp s = Some act -> find_app s = None ->
    activeApp (reroute s) = None /\
    containers (reroute s) !! container act = Some [].

(** Registering a name that is there already leaves the registry as it
    is. *)
Definition rejects_duplicate (a : app) (s : state) : Prop :=
  (exists b, b ∈ apps s /\ name b = name a) ->
  apps (registerMicroApps a s) = apps s.

(** After a second [start], a navigation still notifies once. *)
Definition start_does_not_stack (path : string) (s : state) : Prop :=
  let s' := start (start s) in
  notifications (trace (navigateTo path s')) = notifications (trace s') + 1.

(** Markup with two external scripts and one inline script gives three
    references. *)
Definition three_references {A : Type} (refs : list A) : Prop := length refs = 3.

(** An at-rule block comes back as it went in, the blanks around it
    apart. *)
Definition passes_through (block appName : chars) : Prop :=
  trim (scopedCss block appName) = trim block.

(** The output for [.btn { color: red; }] and [app-a] is
    [.app-a .btn { color: red; }], blanks apart. *)
Definition btn_as_written : Prop :=
  squeeze (scopedCss (cs ".btn { color: red; }") (cs "app-a"))
  = squeeze (cs ".app-a .btn { color: red; }").

(** The entry document of an application is requested at most once. *)
Definition entry_fetched_once (a : app) (s : state) : Prop :=
  count_event (Fetch (cs (entry a))) (trace s) <= 1.

(** * The tutorial text: [parseHTML] and [reroute]

    The repository also holds the text of a tutorial with an earlier
    version of the program.  Its [parseHTML] lists inline scripts and
    resolves URLs; its [reroute] keeps the applications it has loaded in
    a list [apps]. *)

Module Tutorial.

Inductive asset :=
| External (href : chars)
| Inline (content : chars).

Definition quote (c : ascii) : bool := ascii_eqb c dq || ascii_eqb c "'"%char.
Definition not_quote (c : ascii) : bool := negb (quote c).
Definition any_char (c : ascii) : bool := true.

(** [/<script[^>]*src=[Q']([^Q']+)[Q'][^>]*><\/script>/gi], where [Q]
    stands for the double quote. *)
Definition scriptRegex : regex :=
  [ Lit false true (cs "<script");
    Rep false false false (neq_char gt_char);
    Lit false true (cs "src=");
    One quote;
    Rep true false true not_quote;
    One quote;
    Rep false false false (neq_char gt_char);
    Lit false true (cs "></script>") ].

(** [/<script[^>]*>([\s\S]*?)<\/script>/gi] *)
Definition inlineScriptRegex : regex :=
  [ Lit false true (cs "<script");
    Rep false false false (neq_char gt_char);
    Lit false true [gt_char];
    Rep true true false any_char;
    Lit false true (cs "</script>") ].

(** [/<link[^>]+rel=[Q']stylesheet[Q'][^>]*href=[Q']([^Q']+)[Q'][^>]*>/gi] *)
Definition styleRegex : regex :=
  [ Lit false true (cs "<link");
    Rep false false true (neq_char gt_char);
    Lit false true (cs "rel=");
    One quote;
    Lit false true (cs "stylesheet");
    One quote;
    Rep false false false (neq_char gt_char);
    Lit false true (cs "href=");
    One quote;
    Rep true false true not_quote;
    One quote;
    Rep false false false (neq_char gt_char);
    Lit false true [gt_char] ].

(** [/<style[^>]*>([\s\S]*?)<\/style>/gi] *)
Definition inlineStyleRegex : regex :=
  [ Lit false true (cs "<style");
    Rep false false false (neq_char gt_char);
    Lit false true [gt_char];
    Rep true true false any_char;
    Lit false true (cs "</style>") ].

(** [parseHTML(html, baseUrl)].  [resolve rel base] stands for
    [new URL(rel, base).href]; it gives [None] where the constructor
    throws, and then [parseHTML] throws. *)
Definition parseHTML (resolve : chars -> chars -> option chars) (html baseUrl : chars)
  : option (list asset * list asset) :=
  ext_scripts ← mapM (fun caps => External <$> resolve (group1 caps) baseUrl)
                     (exec_all scriptRegex 0 html);
  let inl_scripts := map (fun caps => Inline (group1 caps))
                       (exec_all inlineScriptRegex 0 html) in
  ext_styles ← mapM (fun caps => External <$> resolve (group1 caps) baseUrl)
                    (exec_all styleRegex 0 html);
  let inl_styles := map (fun caps => Inline (group1 caps))
                      (exec_all inlineStyleRegex 0 html) in
  Some (ext_scripts ++ inl_scripts, ext_styles ++ inl_styles).

(** The status stored in the [status] property of a loaded application. *)
Inductive status := NOT_LOADED | NOT_MOUNTED | MOUNTED.

#[global] Instance status_eq_dec : EqDecision status.
Proof. solve_decision. Defined.

(** An entry of [apps]: the object made by [loadMicroApp].  Its hooks
    assign to the local variable [status] of [loadMicroApp], not to the
    property. *)
Record loaded := {
  l_name : string;
  l_status : status
}.

Inductive t_event :=
| TFetch (url : chars)
| TMount (n : string)
| TUnmount (n : string).

(** A call of [reroute] suspended in [loadMicroApp]: on the entry
    document, or on the external style sheets, requested all at once. *)
Inductive t_stage :=
| TAwaitEntry
| TAwaitStyles (urls : list chars).

Record t_task := {
  tt_config : app;
  tt_stage : t_stage
}.

Record t_state := {
  microApps : list app;
  t_apps : list loaded;
  t_pathname : string;
  t_tasks : list t_task;
  t_trace : list t_event;
  t_net : chars -> option chars;
  t_resolve : chars -> chars -> option chars
}.

Definition t_log (es : list t_event) (s : t_state) : t_state :=
  {| microApps := microApps s; t_apps := t_apps s; t_pathname := t_pathname s;
     t_tasks := t_tasks s; t_trace := t_trace s ++ es; t_net := t_net s;
     t_resolve := t_resolve s |}.

Definition t_set_apps (f : list loaded -> list loaded) (s : t_state) : t_state :=
  {| microApps := microApps s; t_apps := f (t_apps s); t_pathname := t_pathname s;
     t_tasks := t_tasks s; t_trace := t_trace s; t_net := t_net s;
     t_resolve := t_resolve s |}.

Definition t_set_tasks (f : list t_task -> list t_task) (s : t_state) : t_state :=
  {| microApps := microApps s; t_apps := t_apps s; t_pathname := t_pathname s;
     t_tasks := f (t_tasks s); t_trace := t_trace s; t_net := t_net s;
     t_resolve := t_resolve s |}.

Definition t_set_pathname (path : string) (s : t_state) : t_state :=
  {| microApps := microApps s; t_apps := t_apps s; t_pathname := path;
     t_tasks := t_tasks s; t_trace := t_trace s; t_net := t_net s;
     t_resolve := t_resolve s |}.

(** [m.activeRule === pathname || pathname.startsWith(m.activeRule)] *)
Definition rule_matches (path : string) (m : app) : bool :=
  String.eqb (activeRule m) path || String.prefix (activeRule m) path.

(** The first loop of [reroute]: the applications with status [MOUNTED]
    that no rule matches are unmounted.  (The calls of the hooks are
    taken as one step each.) *)
Definition unmount_step (s : t_state) : t_state :=
  if existsb (rule_matches (t_pathname s)) (microApps s) then s
  else
    let gone := List.filter (fun l => bool_decide (l_status l = MOUNTED)) (t_apps s) in
    t_log (map (fun l => TUnmount (l_name l)) gone)
      (t_set_apps (map (fun l =>
         if bool_decide (l_status l = MOUNTED)
         then {| l_name := l_name l; l_status := NOT_MOUNTED |} else l)) s).

(** [if (app.status === 'NOT_MOUNTED') { await app.mount(); app.status =
    'MOUNTED' }] for the first entry of [apps] named [n]. *)
Fixpoint mount_first (n : string) (l : list loaded) : list loaded * list t_event :=
  match l with
  | [] => ([], [])
  | x :: l' =>
      if String.eqb (l_name x) n then
        if bool_decide (l_status x = NOT_MOUNTED)
        then ({| l_name := n; l_status := MOUNTED |} :: l', [TMount n])
        else (l, [])
      else let '(l'', es) := mount_first n l' in (x :: l'', es)
  end.

Definition mount_if_ready (n : string) (s : t_state) : t_state :=
  let '(l, es) := mount_first n (t_apps s) in
  t_log es (t_set_apps (fun _ => l) s).

(** [reroute()] up to its first [await] on the network. *)
Definition reroute (s : t_state) : t_state :=
  let s1 := unmount_step s in
  match List.find (rule_matches (t_pathname s1)) (microApps s1) with
  | None => s1
  | Some m =>
      match List.find (fun l => String.eqb (l_name l) (name m)) (t_apps s1) with
      | Some _ => mount_if_ready (name m) s1
      | None =>
          t_set_tasks (fun ts => ts ++ [ {| tt_config := m; tt_stage := TAwaitEntry |} ])
            (t_log [TFetch (cs (entry m))] s1)
      end
  end.

Definition external_urls (l : list asset) : list chars :=
  omap (fun x => match x with External u => Some u | Inline _ => None end) l.

(** The end of [loadMicroApp] and what [reroute] does with its result:
    [apps.push(app)], then the test of [app.status] and the call of
    [app.mount].  The body of a hook is not modelled: a call is one
    event. *)
Definition loaded_step (m : app) (s : t_state) : t_state :=
  let app_object := {| l_name := name m; l_status := NOT_LOADED |} in
  if bool_decide (l_status app_object = NOT_MOUNTED)
  then t_log [TMount (name m)]
         (t_set_apps (fun l => l ++ [ {| l_name := name m; l_status := MOUNTED |} ]) s)
  else t_set_apps (fun l => l ++ [app_object]) s.

(** The requests awaited by the [i]-th suspended call settle.  A failed
    request or a URL that does not resolve ends the call with an error. *)
Definition settle (i : nat) (s : t_state) : t_state :=
  match t_tasks s !! i with
  | None => s
  | Some t =>
      let m := tt_config t in
      match tt_stage t with
      | TAwaitEntry =>
          match t_net s (cs (entry m)) ≫= (fun html =>
                  parseHTML (t_resolve s) html (cs (entry m))) with
          | None => t_set_tasks (delete i) s
          | Some (_, styles) =>
              match external_urls styles with
              | [] => loaded_step m (t_set_tasks (delete i) s)
              | urls =>
                  t_set_tasks
                    (fun ts => <[i := {| tt_config := m; tt_stage := TAwaitStyles urls |}]> ts)
                    (t_log (map TFetch urls) s)
              end
          end
      | TAwaitStyles urls =>
          if forallb (fun u => bool_decide (is_Some (t_net s u))) urls
          then loaded_step m (t_set_tasks (delete i) s)
          else t_set_tasks (delete i) s
      end
  end.

Inductive t_action :=
| TNotify (path : string)
| TSettle (i : nat).

Definition step (s : t_state) (x : t_action) : t_state :=
  match x with
  | TNotify path => reroute (t_set_pathname path s)
  | TSettle i => settle i s
  end.

Definition run (s : t_state) (xs : list t_action) : t_state := fold_left step xs s.

Definition join_url (rel base : chars) : option chars := Some (base ++ cs "/" ++ rel).

Definition sample_net (u : chars) : option chars :=
  if decide (u = cs "http://x/a") then Some (cs "<p>A</p>")
  else if decide (u = cs "http://x/b") then Some (cs "<p>B</p>")
  else None.

Definition sample_state : t_state :=
  {| microApps := [appA; appB]; t_apps := []; t_pathname := "/"; t_tasks := [];
     t_trace := []; t_net := sample_net; t_resolve := join_url |}.

(** An application object never leaves the status it is made with, and
    the trace holds requests only. *)
Definition never_mounted (s : t_state) : Prop :=
  Forall (fun l => l_status l = NOT_LOADED) (t_apps s) /\
  Forall (fun e => exists u, e = TFetch u) (t_trace s).

End Tutorial.

(** * Further notions, for the properties at the end *)

(** The applications a run registers, in order. *)
Definition registered (xs : list action) : list app :=
  omap (fun x => match x with ARegister a => Some a | _ => None end) xs.

(** The URLs requested in a trace, in order. *)
Definition fetches (tr : list event) : list chars :=
  omap (fun e => match e with Fetch u => Some u | _ => None end) tr.

(** A statement that reads or assigns a property of the [window] it is
    given, and not of an object below it. *)
Definition direct (st : stmt) : Prop :=
  match st with
  | SSet path _ _ | SGet path _ => path = []
  | SRegister _ _ => True
  end.

(** An application whose container is not in the page. *)
Definition appLost : app :=
  {| name := "lost"; entry := "http://x/lost"; container := "#none"; activeRule := "/lost" |}.

(** An application whose entry document cannot be fetched. *)
Definition appDown : app :=
  {| name := "down"; entry := "http://x/down"; container := "#c"; activeRule := "/down" |}.

Definition more_page : state :=
  run (page "/" ["#c"] ∅ sample_net)
      [ARegister appA; ARegister appLost; ARegister appDown; AStart].

(** The request a suspended load waits for, followed by those it has
    still to make; the entry document is left out. *)
Definition requests_of (st : stage) : list chars :=
  match st with
  | AwaitEntry => []
  | AwaitStyle u more scripts_todo => u :: more ++ scripts_todo
  | AwaitScript u more => u :: more
  end.

(** *** Documents in the plain form *)

Definition lt_char : ascii := "<"%char.
Definition eq_char : ascii := "="%char.

Definition link_tag (href : chars) : chars :=
  cs "<link rel=" ++ [dq] ++ cs "stylesheet" ++ [dq] ++ cs " href=" ++ [dq] ++ href
  ++ [dq] ++ cs ">".

(** A document as a sequence of text, script elements and style sheet
    links, the elements written as [script_tag] and [link_tag] write
    them. *)
Inductive node :=
| Text (t : chars)
| Script (src : chars)
| Link (href : chars).

Definition render (n : node) : chars :=
  match n with
  | Text t => t
  | Script src => script_tag src
  | Link href => link_tag href
  end.

Definition document (ns : list node) : chars := concat (map render ns).

Definition plain_url (u : chars) : Prop :=
  u <> [] /\ (dq ∉ u) /\ (lt_char ∉ u) /\ (gt_char ∉ u) /\ (eq_char ∉ u).

(** Text in which every [<] is followed by a character other than [s]
    and [l]: no tag of the text is a [script], a [style] or a [link]
    tag. *)
Fixpoint plain_text (t : chars) : bool :=
  match t with
  | [] => true
  | c :: t' =>
      (if ascii_eqb c lt_char then
         match t' with
         | c' :: _ => negb (ascii_eqb c' "s"%char) && negb (ascii_eqb c' "l"%char)
         | [] => false
         end
       else true)
      && plain_text t'
  end.

(** Such text, and addresses that are not empty and hold no double
    quote, [<], [>] or [=]. *)
Definition plain (n : node) : Prop :=
  match n with
  | Text t => plain_text t = true
  | Script u | Link u => plain_url u
  end.

Definition srcs (ns : list node) : list chars :=
  omap (fun n => match n with Script u => Some u | _ => None end) ns.

Definition hrefs (ns : list node) : list chars :=
  omap (fun n => match n with Link u => Some u | _ => None end) ns.

Definition texts (ns : list node) : chars :=
  concat (omap (fun n => match n with Text t => Some t | _ => None end) ns).

(** Two forms the expressions of [parseHtml] do not take: a link with
    [href] before [rel], and a script element with its address in single
    quotes. *)
Definition link_tag_href_first (href : chars) : chars :=
  cs "<link href=" ++ [dq] ++ href ++ [dq] ++ cs " rel=" ++ [dq] ++ cs "stylesheet"
  ++ [dq] ++ cs ">".

Definition script_tag_single (src : chars) : chars :=
  cs "<script src='" ++ src ++ cs "'></script>".

(** *** Pages for the exceptions *)

(** The two applications registered, and [start] not yet called. *)
Definition registered_page : state :=
  run (page "/" ["#c"] ∅ sample_net) [ARegister appA; ARegister appB].

(** An application whose container selector is not a valid one, on a
    page where [document.querySelector] refuses it. *)
Definition appBad : app :=
  {| name := "bad"; entry := "http://x/bad"; container := "#1c"; activeRule := "/bad" |}.

Definition bad_page : state :=
  run (set_bad_selector (fun c => String.eqb c "#1c") (page "/bad" ["#c"] ∅ sample_net))
      [ARegister appA; ARegister appBad; AStart].

(** * Properties *)

(** ** [reroute] *)

Section Reroute.

Implicit Types (s : state) (a m act : app) (e : event).

Lemma work_app (t1 t2 : list event) : work (t1 ++ t2) = work t1 ++ work t2.
Proof. unfold work. apply List.filter_app. Qed.

Lemma observable_log_console e s :
  is_console e = true -> observable (log e s) = observable s.
Proof.
  intros He. unfold observable, log, set_trace; cbn.
  rewrite work_app. cbn. rewrite He. cbn. rewrite app_nil_r. reflexivity.
Qed.

Lemma observable_logged s : observable (logged s) = observable s.
Proof. unfold logged. rewrite !observable_log_console; done. Qed.

(** [reroute] with its two console lines set apart. *)
Lemma reroute_call_eq s :
  reroute_call s =
  match find_app s with
  | None => Returned (logged s)
  | Some m =>
      match activeApp s with
      | Some act =>
          if String.eqb (name act) (name m) then Returned (logged s)
          else
            match unmountApp act (logged s) with
            | Thrown s3 => Thrown s3
            | Returned s3 =>
                Returned (loadAndMountApp m (set_activeApp (fun _ => Some m) s3))
            end
      | None => Returned (loadAndMountApp m (set_activeApp (fun _ => Some m) (logged s)))
      end
  end.
Proof. reflexivity. Qed.

Lemma reroute_eq s :
  reroute s =
  match find_app s with
  | None => logged s
  | Some m =>
      match activeApp s with
      | Some act =>
          if String.eqb (name act) (name m) then logged s
          else
            match unmountApp act (logged s) with
            | Thrown s3 => s3
            | Returned s3 => loadAndMountApp m (set_activeApp (fun _ => Some m) s3)
            end
      | None => loadAndMountApp m (set_activeApp (fun _ => Some m) (logged s))
      end
  end.
Proof.
  unfold reroute. rewrite reroute_call_eq.
  destruct (find_app s) as [m|]; [|done].
  destruct (activeApp s) as [act|]; [|done].
  destruct (String.eqb _ _); [done|].
  by destruct (unmountApp act (logged s)).
Qed.

(** Neither [loadAndMountApp] (up to its first [await]) nor [unmountApp]
    touches the registry, the location or the history functions. *)
Lemma loadAndMountApp_frame a s :
  apps (loadAndMountApp a s) = apps s /\
  pathname (loadAndMountApp a s) = pathname s /\
  activeApp (loadAndMountApp a s) = activeApp s /\
  pushState (loadAndMountApp a s) = pushState s /\
  popstate (loadAndMountApp a s) = popstate s /\
  sandbox (loadAndMountApp a s) = sandbox s /\
  replaceState (loadAndMountApp a s) = replaceState s.
Proof.
  unfold loadAndMountApp. destruct (bad_selector s (container a)); [done|].
  destruct (containers s !! container a); done.
Qed.

Lemma loadAndMountApp_page a s :
  bad_selector (loadAndMountApp a s) = bad_selector s /\
  throws (loadAndMountApp a s) = throws s /\
  resolve (loadAndMountApp a s) = resolve s /\
  net (loadAndMountApp a s) = net s /\
  head (loadAndMountApp a s) = head s.
Proof.
  unfold loadAndMountApp. destruct (bad_selector s (container a)); [done|].
  destruct (containers s !! container a); done.
Qed.

Lemma unmountApp_frame a s :
  apps (after (unmountApp a s)) = apps s /\
  pathname (after (unmountApp a s)) = pathname s /\
  pushState (after (unmountApp a s)) = pushState s /\
  popstate (after (unmountApp a s)) = popstate s /\
  replaceState (after (unmountApp a s)) = replaceState s /\
  tasks (after (unmountApp a s)) = tasks s.
Proof.
  unfold unmountApp. destruct (bad_selector s (container a)); [done|].
  destruct (containers s !! container a); [|done].
  destruct (has_hook (name a) "unmount" s); [|done].
  destruct (hook_throws (name a) "unmount" s); done.
Qed.

Lemma unmountApp_page a s :
  bad_selector (after (unmountApp a s)) = bad_selector s /\
  throws (after (unmountApp a s)) = throws s /\
  resolve (after (unmountApp a s)) = resolve s /\
  net (after (unmountApp a s)) = net s /\
  head (after (unmountApp a s)) = head s.
Proof.
  unfold unmountApp. destruct (bad_selector s (container a)); [done|].
  destruct (containers s !! container a); [|done].
  destruct (has_hook (name a) "unmount" s); [|done].
  destruct (hook_throws (name a) "unmount" s); done.
Qed.

Lemma unmountApp_thrown a s : thrown (unmountApp a s) = unmount_throws a s.
Proof.
  unfold unmountApp, unmount_throws.
  destruct (bad_selector s (container a)); [done|].
  destruct (containers s !! container a) as [els|] eqn:E; [|done].
  rewrite bool_decide_eq_true_2 by eauto. cbn [orb andb].
  destruct (has_hook (name a) "unmount" s); [|done].
  by destruct (hook_throws (name a) "unmount" s).
Qed.

(** Left by an exception, [unmountApp] has changed nothing but the
    trace. *)
Lemma unmountApp_Thrown a s s' :
  unmountApp a s = Thrown s' ->
  unmount_throws a s = true /\
  activeApp s' = activeApp s /\ containers s' = containers s /\
  sandbox s' = sandbox s.
Proof.
  intros H. split; [by rewrite <- unmountApp_thrown, H|]. revert H.
  unfold unmountApp. destruct (bad_selector s (container a)); [by intros [= <-]|].
  destruct (containers s !! container a); [|done].
  destruct (has_hook (name a) "unmount" s); [|done].
  destruct (hook_throws (name a) "unmount" s); [|done].
  by intros [= <-].
Qed.

Lemma unmountApp_Returned a s s' :
  unmountApp a s = Returned s' ->
  unmount_throws a s = false /\
  activeApp s' = None /\
  containers s' =
    match containers s !! container a with
    | Some _ => <[container a := []]> (containers s)
    | None => containers s
    end /\
  global (sandbox s') =
    match containers s !! container a with
    | Some _ => delete (name a) (global (sandbox s))
    | None => global (sandbox s)
    end.
Proof.
  intros H. split; [by rewrite <- unmountApp_thrown, H|]. revert H.
  unfold unmountApp. destruct (bad_selector s (container a)); [done|].
  destruct (containers s !! container a); [|by intros [= <-]].
  destruct (has_hook (name a) "unmount" s); [|by intros [= <-]].
  destruct (hook_throws (name a) "unmount" s); [done|].
  by intros [= <-].
Qed.

Lemma find_app_frame s s' :
  apps s' = apps s -> pathname s' = pathname s -> find_app s' = find_app s.
Proof. unfold find_app. by intros -> ->. Qed.

Lemma find_app_loadAndMountApp a s : find_app (loadAndMountApp a s) = find_app s.
Proof. apply find_app_frame; apply loadAndMountApp_frame. Qed.

Lemma find_app_unmountApp a s : find_app (after (unmountApp a s)) = find_app s.
Proof. apply find_app_frame; apply unmountApp_frame. Qed.

Lemma reroute_frame s :
  apps (reroute s) = apps s /\ pathname (reroute s) = pathname s /\
  pushState (reroute s) = pushState s /\ popstate (reroute s) = popstate s /\
  replaceState (reroute s) = replaceState s.
Proof.
  rewrite reroute_eq.
  destruct (find_app s) as [m|]; [|done].
  destruct (activeApp s) as [act|]; [destruct (String.eqb _ _); [done|]|].
  - pose proof (unmountApp_frame act (logged s)) as (H1 & H2 & H3 & H4 & H5 & _).
    destruct (unmountApp act (logged s)) as [s3|s3]; cbn [after] in *.
    + destruct (loadAndMountApp_frame m (set_activeApp (fun _ => Some m) s3))
        as (-> & -> & _ & -> & -> & _ & ->). done.
    + done.
  - destruct (loadAndMountApp_frame m (set_activeApp (fun _ => Some m) (logged s)))
      as (-> & -> & _ & -> & -> & _ & ->). done.
Qed.

Lemma reroute_page s :
  bad_selector (reroute s) = bad_selector s /\
  throws (reroute s) = throws s /\
  resolve (reroute s) = resolve s /\
  net (reroute s) = net s /\
  head (reroute s) = head s.
Proof.
  rewrite reroute_eq.
  destruct (find_app s) as [m|]; [|done].
  destruct (activeApp s) as [act|]; [destruct (String.eqb _ _); [done|]|].
  - pose proof (unmountApp_page act (logged s)) as (H1 & H2 & H3 & H4 & H5).
    destruct (unmountApp act (logged s)) as [s3|s3]; cbn [after] in *.
    + destruct (loadAndMountApp_page m (set_activeApp (fun _ => Some m) s3))
        as (-> & -> & -> & -> & ->). done.
    + done.
  - destruct (loadAndMountApp_page m (set_activeApp (fun _ => Some m) (logged s)))
      as (-> & -> & -> & -> & ->). done.
Qed.

(** A notification that is not left by an exception leaves the path
    served. *)
Lemma reroute_served s : thrown (reroute_call s) = false -> served (reroute s).
Proof.
  unfold served.
  assert (find_app (reroute s) = find_app s) as ->
    by (apply find_app_frame; apply reroute_frame).
  unfold reroute. rewrite reroute_call_eq.
  destruct (find_app s) as [m|] eqn:Hm; [|done].
  destruct (activeApp s) as [act|] eqn:Hact.
  - destruct (String.eqb (name act) (name m)) eqn:E.
    + intros _. exists act. split; [done|]. by apply String.eqb_eq.
    + destruct (unmountApp act (logged s)) as [s3|s3]; [|done].
      intros _. exists m. split; [|done]. cbn [after].
      by destruct (loadAndMountApp_frame m (set_activeApp (fun _ => Some m) s3))
        as (_ & _ & -> & _).
  - intros _. exists m. split; [|done]. cbn [after].
    by destruct (loadAndMountApp_frame m
      (set_activeApp (fun _ => Some m) (logged s))) as (_ & _ & -> & _).
Qed.

Lemma reroute_call_served s : served s -> reroute_call s = Returned (logged s).
Proof.
  unfold served. rewrite reroute_call_eq.
  destruct (find_app s) as [m|]; [|done].
  intros (act & -> & ->). by rewrite String.eqb_refl.
Qed.

Lemma reroute_served_eq s : served s -> reroute s = logged s.
Proof. intros H. unfold reroute. by rewrite reroute_call_served. Qed.

(** A notification for a path that is served does nothing but print. *)
Lemma reroute_quiet s :
  served s -> observable (reroute s) = observable s /\ served (reroute s).
Proof.
  intros Hs. rewrite reroute_served_eq by done.
  split; [apply observable_logged|exact Hs].
Qed.

Lemma iter_reroute_quiet n s :
  served s ->
  observable (Nat.iter n reroute s) = observable s /\ served (Nat.iter n reroute s).
Proof.
  intros Hs. induction n as [|n [IH1 IH2]]; [done|].
  change (Nat.iter (S n) reroute s) with (reroute (Nat.iter n reroute s)).
  destruct (reroute_quiet _ IH2) as [H1 H2]. split; [congruence|done].
Qed.

(** What one notification adds to the trace. *)
Lemma trace_loadAndMountApp m s :
  trace (loadAndMountApp m s) = trace s ++ load_events m s.
Proof.
  unfold loadAndMountApp, load_events.
  destruct (bad_selector s (container m)); [by rewrite app_nil_r|].
  destruct (containers s !! container m); [|reflexivity].
  cbn. by rewrite <- app_assoc.
Qed.

Lemma trace_unmountApp act s :
  trace (after (unmountApp act s)) = trace s ++ unmount_events act s.
Proof.
  unfold unmountApp, unmount_events.
  destruct (bad_selector s (container act)); [by rewrite app_nil_r|].
  destruct (containers s !! container act); [|by rewrite app_nil_r].
  destruct (has_hook (name act) "unmount" s); [|done].
  destruct (hook_throws (name act) "unmount" s); cbn; [done|].
  by rewrite <- !app_assoc.
Qed.

Lemma containers_unmountApp_key act s c :
  is_Some (containers (after (unmountApp act s)) !! c) <-> is_Some (containers s !! c).
Proof.
  destruct (unmountApp act s) as [s'|s'] eqn:E; cbn [after].
  - apply unmountApp_Returned in E as (_ & _ & -> & _).
    destruct (containers s !! container act) eqn:E2; [|reflexivity].
    destruct (decide (container act = c)) as [<-|];
      [rewrite lookup_insert_eq, E2; split; eauto | by rewrite lookup_insert_ne].
  - by apply unmountApp_Thrown in E as (_ & _ & -> & _).
Qed.

Lemma load_events_key m s s' :
  bad_selector s' = bad_selector s ->
  (is_Some (containers s' !! container m) <-> is_Some (containers s !! container m)) ->
  load_events m s' = load_events m s.
Proof.
  unfold load_events. intros -> H.
  destruct (bad_selector s (container m)); [done|].
  destruct (containers s' !! container m) eqn:E1, (containers s !! container m) eqn:E2;
    try done.
  - destruct H as [H _]. destruct H; [eauto|done].
  - destruct H as [_ H]. destruct H; [eauto|done].
Qed.

Lemma trace_logged s :
  trace (logged s) = trace s ++ [LRoute (pathname s); LMatched (find_app s)].
Proof. unfold logged, log. cbn. by rewrite <- app_assoc. Qed.

Lemma unmount_events_logged act s : unmount_events act (logged s) = unmount_events act s.
Proof. reflexivity. Qed.

Lemma unmount_throws_logged act s : unmount_throws act (logged s) = unmount_throws act s.
Proof. reflexivity. Qed.

Lemma reroute_call_thrown s :
  thrown (reroute_call s) =
  match find_app s, activeApp s with
  | Some m, Some act => negb (String.eqb (name act) (name m)) && unmount_throws act s
  | _, _ => false
  end.
Proof.
  rewrite reroute_call_eq.
  destruct (find_app s) as [m|]; [|done].
  destruct (activeApp s) as [act|]; [|done].
  destruct (String.eqb _ _); [done|]. cbn [negb andb].
  rewrite <- (unmount_throws_logged act s), <- unmountApp_thrown.
  by destruct (unmountApp act (logged s)).
Qed.

Lemma trace_reroute s :
  trace (reroute s) =
  trace s ++ [LRoute (pathname s); LMatched (find_app s)] ++ reroute_events s.
Proof.
  rewrite reroute_eq, app_assoc, <- trace_logged. unfold reroute_events.
  destruct (find_app s) as [m|] eqn:Hm; [|by rewrite app_nil_r].
  destruct (activeApp s) as [act|] eqn:Hact.
  - destruct (String.eqb (name act) (name m)); [by rewrite app_nil_r|].
    pose proof (trace_unmountApp act (logged s)) as Ht.
    pose proof (containers_unmountApp_key act (logged s) (container m)) as Hk.
    pose proof (unmountApp_page act (logged s)) as (Hb & _).
    rewrite unmount_events_logged in Ht.
    destruct (unmountApp act (logged s)) as [s3|s3] eqn:E; cbn [after] in *.
    + apply unmountApp_Returned in E as (Hth & _).
      rewrite unmount_throws_logged in Hth. rewrite Hth.
      rewrite trace_loadAndMountApp.
      change (trace (set_activeApp _ ?x)) with (trace x).
      rewrite Ht.
      rewrite (load_events_key m s (set_activeApp (fun _ => Some m) s3)); [|done|done].
      by rewrite <- !app_assoc.
    + apply unmountApp_Thrown in E as (Hth & _).
      rewrite unmount_throws_logged in Hth. rewrite Hth. exact Ht.
  - rewrite trace_loadAndMountApp. reflexivity.
Qed.

Lemma reroute_events_no_route s :
  List.filter is_route (reroute_events s) = [].
Proof.
  unfold reroute_events, unmount_events, load_events.
  repeat case_match; reflexivity.
Qed.

Lemma notifications_reroute s :
  notifications (trace (reroute s)) = S (notifications (trace s)).
Proof.
  unfold notifications. rewrite trace_reroute, !List.filter_app.
  rewrite reroute_events_no_route. cbn. rewrite !length_app. cbn. lia.
Qed.

End Reroute.

(** C4.  A notification for a path whose matching application has the
    name of the active one, and any number of such notifications in a
    row, leave the whole state as it is apart from lines printed on the
    console: no request, no hook call, no change to the page, the
    sandbox, the suspended loads or the active application. *)
Theorem reroute_active_match_noop (s : state) (m act : app) (n : nat) :
  find_app s = Some m ->
  activeApp s = Some act ->
  name act = name m ->
  observable (Nat.iter n reroute s) = observable s.
Proof.
  intros Hm Hact Hname. apply iter_reroute_quiet.
  unfold served. rewrite Hm. eauto.
Qed.

Lemma reroute_active_match_noop_witness :
  observable (Nat.iter 3 reroute served_page) = observable served_page.
Proof.
  refine (reroute_active_match_noop served_page appA appA 3 _ _ _);
    vm_compute; reflexivity.
Defined.

(** ** Switching and keeping the active application *)



(** The other branch, on a page where the selector of the active
    application is refused: the notification for the path of another
    application is left by the exception, the active application stays,
    nothing is requested. *)
Example refused_selector_blocks_switch :
  let s := set_pathname (fun _ => "/a") bad_page in
  activeApp s = Some appBad /\
  find_app s = Some appA /\
  thrown (reroute_call s) = true /\
  activeApp (reroute s) = Some appBad /\
  tasks (reroute s) = [] /\
  work (trace (reroute s)) = [].
Proof. cbv zeta. repeat split; vm_compute; reflexivity. Qed.


(** ** Registration *)

(** C6, as the code has it.  Every registration appends the descriptor to
    the registry, whatever names are already there; nothing else changes
    but one line on the console. *)
Theorem registerMicroApps_appends (a : app) (s : state) :
  apps (registerMicroApps a s) = apps s ++ [a] /\
  observable (registerMicroApps a s) = set_apps (fun l => l ++ [a]) (observable s).
Proof.
  split; [reflexivity|].
  unfold registerMicroApps. by rewrite observable_log_console.
Qed.

(** C6, counterexample: a second registration under the same name is
    accepted and the registry grows. *)
Lemma duplicate_name_accepted :
  ~ rejects_duplicate appA (registerMicroApps appA (page "/" ["#c"] ∅ sample_net)).
Proof.
  intros H. unfold rejects_duplicate in H.
  assert (exists b, b ∈ apps (registerMicroApps appA (page "/" ["#c"] ∅ sample_net))
                    /\ name b = name appA) as Hdup.
  { exists appA. split; [|reflexivity]. cbn. apply list_elem_of_here. }
  specialize (H Hdup). vm_compute in H. discriminate.
Qed.

(** ** [start] and [patchRouter] *)

Section Start.

Implicit Types (s : state).

Lemma start_frame s :
  pushState (start s) = Patched (pushState s) /\
  replaceState (start s) = Patched (replaceState s) /\
  popstate (start s) = S (popstate s).
Proof.
  unfold start.
  destruct (reroute_frame (patchRouter (set_sandbox createSandbox s)))
    as (_ & _ & -> & -> & ->). done.
Qed.

Lemma start_page s :
  pathname (start s) = pathname s /\ resolve (start s) = resolve s.
Proof.
  unfold start.
  destruct (reroute_frame (patchRouter (set_sandbox createSandbox s))) as (_ & -> & _).
  destruct (reroute_page (patchRouter (set_sandbox createSandbox s))) as (_ & _ & -> & _).
  done.
Qed.

Lemma iter_start_frame n s :
  pushState (Nat.iter n start s) = Nat.iter n Patched (pushState s) /\
  replaceState (Nat.iter n start s) = Nat.iter n Patched (replaceState s) /\
  popstate (Nat.iter n start s) = popstate s + n.
Proof.
  induction n as [|n (IH1 & IH2 & IH3)]; [cbn; repeat split; lia|].
  change (Nat.iter (S n) start s) with (start (Nat.iter n start s)).
  destruct (start_frame (Nat.iter n start s)) as (-> & -> & ->).
  rewrite IH1, IH2, IH3. repeat split; lia.
Qed.

Lemma notifications_iter_reroute n s :
  notifications (trace (Nat.iter n reroute s)) = notifications (trace s) + n.
Proof.
  induction n as [|n IH]; [cbn; lia|].
  change (Nat.iter (S n) reroute s) with (reroute (Nat.iter n reroute s)).
  rewrite notifications_reroute, IH. lia.
Qed.

(** The browser refuses the URL: the innermost function throws and no
    wrapper notifies. *)
Lemma call_history_refused n url s :
  resolve s (pathname s) url = None ->
  call_history (Nat.iter n Patched Native) url s = Thrown s.
Proof.
  intros H. induction n as [|n IH].
  - change (Nat.iter 0 Patched Native) with Native. cbn [call_history]. by rewrite H.
  - change (call_history (Nat.iter (S n) Patched Native) url s)
      with (match call_history (Nat.iter n Patched Native) url s with
            | Thrown s' => Thrown s'
            | Returned s' => reroute_call s'
            end).
    by rewrite IH.
Qed.

(** The wrappers of [n + 1] calls of [start] around the browser's
    function: the innermost notifies; when that notification is left by
    an exception the others are passed over, and otherwise they find the
    path served. *)
Lemma call_history_wrapped n url s path :
  resolve s (pathname s) url = Some path ->
  call_history (Nat.iter (S n) Patched Native) url s =
  if thrown (reroute_call (set_pathname (fun _ => path) s))
  then Thrown (reroute (set_pathname (fun _ => path) s))
  else Returned (Nat.iter (S n) reroute (set_pathname (fun _ => path) s)).
Proof.
  intros H. induction n as [|n IH].
  - change (Nat.iter 1 Patched Native) with (Patched Native).
    cbn [call_history]. rewrite H.
    change (Nat.iter 1 reroute ?x) with (reroute x). unfold reroute.
    by destruct (reroute_call (set_pathname (fun _ => path) s)).
  - change (call_history (Nat.iter (S (S n)) Patched Native) url s)
      with (match call_history (Nat.iter (S n) Patched Native) url s with
            | Thrown s' => Thrown s'
            | Returned s' => reroute_call s'
            end).
    rewrite IH.
    destruct (thrown (reroute_call (set_pathname (fun _ => path) s))) eqn:E; [done|].
    rewrite reroute_call_served.
    + change (Nat.iter (S (S n)) reroute ?x) with (reroute (Nat.iter (S n) reroute x)).
      rewrite (reroute_served_eq (Nat.iter (S n) reroute _)); [done|].
      rewrite Nat.iter_succ_r. by apply iter_reroute_quiet, reroute_served.
    + rewrite Nat.iter_succ_r. by apply iter_reroute_quiet, reroute_served.
Qed.

Lemma history_notifications n url s :
  match resolve s (pathname s) url with
  | None => after (call_history (Nat.iter n Patched Native) url s) = s
  | Some path =>
      let s1 := set_pathname (fun _ => path) s in
      notifications (trace (after (call_history (Nat.iter n Patched Native) url s)))
        = notifications (trace s)
          + (if thrown (reroute_call s1) then Nat.min n 1 else n) /\
      (0 < n ->
       observable (after (call_history (Nat.iter n Patched Native) url s))
       = observable (reroute s1))
  end.
Proof.
  destruct (resolve s (pathname s) url) as [path|] eqn:H.
  - cbv zeta. destruct n as [|n].
    + change (Nat.iter 0 Patched Native) with Native.
      cbn [call_history]. rewrite H. cbn [after trace set_pathname Nat.min].
      split; [by destruct (thrown _); lia|lia].
    + rewrite (call_history_wrapped n url s path H).
      destruct (thrown (reroute_call (set_pathname (fun _ => path) s))) eqn:E;
        cbn [after].
      * split; [|done]. rewrite notifications_reroute. cbn [trace set_pathname].
        destruct n; cbn [Nat.min]; lia.
      * split.
        -- rewrite notifications_iter_reroute. done.
        -- intros _. rewrite Nat.iter_succ_r.
           by apply iter_reroute_quiet, reroute_served.
  - by rewrite call_history_refused.
Qed.

End Start.



(** On that page, with the two applications registered: the navigation
    after two calls of [start] yields two notifications and one load. *)
Example two_starts_one_load :
  let s' := Nat.iter 2 start registered_page in
  notifications (trace (navigateTo "/a" s')) = notifications (trace s') + 2 /\
  work (trace (navigateTo "/a" s')) = [Cleared "#c"; Fetch (cs "http://x/a")] /\
  tasks (navigateTo "/a" s') = [ {| t_app := appA; t_stage := AwaitEntry |} ].
Proof. cbv zeta. repeat split; vm_compute; reflexivity. Qed.


(** ** Loads are started anew at every activation *)

Section Bootstrap.

Implicit Types (s : state) (a : app).

Lemma no_bootstrap_app t1 t2 :
  no_bootstrap t1 -> no_bootstrap t2 -> no_bootstrap (t1 ++ t2).
Proof. apply Forall_app_2. Qed.

Ltac nb :=
  repeat first
    [ assumption
    | apply no_bootstrap_app
    | apply Forall_app_2
    | apply Forall_nil_2
    | apply Forall_cons_2; [reflexivity|] ].

Lemma no_bootstrap_reroute s :
  no_bootstrap (trace s) -> no_bootstrap (trace (reroute s)).
Proof.
  intros H. rewrite trace_reroute.
  unfold reroute_events, unmount_events, load_events.
  repeat case_match; nb.
Qed.

Lemma no_bootstrap_iter_reroute n s :
  no_bootstrap (trace s) -> no_bootstrap (trace (Nat.iter n reroute s)).
Proof.
  intros H. induction n as [|n IH]; [done|].
  change (Nat.iter (S n) reroute s) with (reroute (Nat.iter n reroute s)).
  by apply no_bootstrap_reroute.
Qed.

Lemma no_bootstrap_resume a st s :
  no_bootstrap (trace s) -> no_bootstrap (trace (resume a st s).1).
Proof.
  intros H. unfold resume, next_style, executeScripts, next_script, mount_step, no_bootstrap.
  repeat case_match; cbn; nb.
Qed.

Lemma no_bootstrap_settle i s :
  no_bootstrap (trace s) -> no_bootstrap (trace (settle i s)).
Proof.
  intros H. unfold settle. destruct (tasks s !! i) as [t|]; [|done].
  pose proof (no_bootstrap_resume (t_app t) (t_stage t) s H) as Hr.
  destruct (resume (t_app t) (t_stage t) s) as [s' [st|]]; exact Hr.
Qed.

Lemma no_bootstrap_call_history f path s :
  no_bootstrap (trace s) -> no_bootstrap (trace (after (call_history f path s))).
Proof.
  intros H. induction f as [|f IH]; cbn [call_history].
  - by destruct (resolve s (pathname s) path).
  - destruct (call_history f path s) as [s'|s']; cbn [after] in *; [|done].
    by apply (no_bootstrap_reroute s').
Qed.

Lemma no_bootstrap_step s x :
  no_bootstrap (trace s) -> no_bootstrap (trace (step s x)).
Proof.
  intros H. destruct x as [a| |path|path|path|i]; cbn [step].
  - unfold registerMicroApps. cbn. unfold no_bootstrap. nb.
  - unfold start. by apply no_bootstrap_reroute.
  - by apply no_bootstrap_call_history.
  - by apply no_bootstrap_call_history.
  - unfold fire_popstate. by apply no_bootstrap_iter_reroute.
  - by apply no_bootstrap_settle.
Qed.

Lemma no_bootstrap_run xs s :
  no_bootstrap (trace s) -> no_bootstrap (trace (run s xs)).
Proof.
  revert s. induction xs as [|x xs IH]; intros s H; [done|].
  cbn. apply IH. by apply no_bootstrap_step.
Qed.

End Bootstrap.

(** C10, as the code has it.  No [bootstrap] hook is ever called.  Nothing
    is kept from one activation to the next: whatever happened before, a
    notification that activates an application whose container is found
    empties the container, requests the entry document again and starts a
    new load.  (An application is activated when it matches the path,
    no application of its name is active, and the call of [unmountApp]
    for the one that is active, if any, is not left by an exception.) *)
Theorem activation_fetches_again (s : state) (xs : list action) (path : string)
    (m : app) :
  no_bootstrap (trace s) ->
  let s1 := set_pathname (fun _ => path) (run s xs) in
  find_app s1 = Some m ->
  (forall act, activeApp s1 = Some act ->
     name act <> name m /\ unmount_throws act s1 = false) ->
  bad_selector s1 (container m) = false ->
  is_Some (containers s1 !! container m) ->
  no_bootstrap (trace (reroute s1)) /\
  (exists pre, trace (reroute s1) = pre ++ [Fetch (cs (entry m))]) /\
  containers (reroute s1) !! container m = Some [] /\
  tasks (reroute s1) = tasks s1 ++ [ {| t_app := m; t_stage := AwaitEntry |} ].
Proof.
  intros Hnb s1.
  assert (no_bootstrap (trace s1)) as Hnb1 by (by apply (no_bootstrap_run xs s)).
  clearbody s1. intros Hm Hact Hbad Hc.
  split; [by apply no_bootstrap_reroute|].
  assert (load_events m s1 = [Cleared (container m); Fetch (cs (entry m))]) as Hl
    by (unfold load_events; rewrite Hbad; by destruct Hc as [els ->]).
  assert (forall s0, bad_selector s0 = bad_selector s1 ->
            is_Some (containers s0 !! container m) ->
            containers (loadAndMountApp m s0) !! container m = Some [] /\
            tasks (loadAndMountApp m s0) =
              tasks s0 ++ [ {| t_app := m; t_stage := AwaitEntry |} ]) as Hload.
  { intros s0 Hb [els0 H0]. unfold loadAndMountApp. rewrite Hb, Hbad, H0. cbn.
    by rewrite lookup_insert_eq. }
  split.
  - rewrite trace_reroute. unfold reroute_events. rewrite Hm, Hl.
    destruct (activeApp s1) as [act|] eqn:E.
    + destruct (Hact act eq_refl) as [Hne ->].
      assert (String.eqb (name act) (name m) = false) as ->
        by (by apply String.eqb_neq).
      eexists.
      change [Cleared (container m); Fetch (cs (entry m))]
        with ([Cleared (container m)] ++ [Fetch (cs (entry m))]).
      by rewrite !app_assoc.
    + eexists.
      change [Cleared (container m); Fetch (cs (entry m))]
        with ([Cleared (container m)] ++ [Fetch (cs (entry m))]).
      by rewrite !app_assoc.
  - rewrite reroute_eq, Hm.
    destruct (activeApp s1) as [act|] eqn:E.
    + destruct (Hact act eq_refl) as [Hne Hth].
      assert (String.eqb (name act) (name m) = false) as ->
        by (by apply String.eqb_neq).
      pose proof (containers_unmountApp_key act (logged s1) (container m)) as Hk.
      pose proof (unmountApp_frame act (logged s1)) as (_ & _ & _ & _ & _ & Hts).
      pose proof (unmountApp_page act (logged s1)) as (Hb & _).
      destruct (unmountApp act (logged s1)) as [s3|s3] eqn:Eu; cbn [after] in *.
      * destruct (Hload (set_activeApp (fun _ => Some m) s3)) as [H1 H2].
        { exact Hb. }
        { by apply Hk. }
        split; [exact H1|]. rewrite H2.
        change (tasks (set_activeApp _ ?x)) with (tasks x). by rewrite Hts.
      * apply unmountApp_Thrown in Eu as (Hf & _).
        rewrite unmount_throws_logged in Hf. congruence.
    + by apply (Hload (set_activeApp (fun _ => Some m) (logged s1))).
Qed.

Lemma sample_page_no_bootstrap : no_bootstrap (trace sample_page).
Proof. vm_compute. repeat constructor. Qed.

Lemma activation_fetches_again_witness :
  let s1 := set_pathname (fun _ => "/a") (run sample_page slow_navigation) in
  no_bootstrap (trace (reroute s1)) /\
  (exists pre, trace (reroute s1) = pre ++ [Fetch (cs (entry appA))]) /\
  containers (reroute s1) !! container appA = Some [] /\
  tasks (reroute s1) = tasks s1 ++ [ {| t_app := appA; t_stage := AwaitEntry |} ].
Proof.
  refine (activation_fetches_again sample_page slow_navigation "/a" appA
            sample_page_no_bootstrap _ _ _ _).
  - vm_compute. reflexivity.
  - intros act H. vm_compute in H. injection H as <-.
    split; [vm_compute; discriminate|vm_compute; reflexivity].
  - vm_compute. reflexivity.
  - vm_compute. eauto.
Defined.

(** C10, counterexample: going to the first application, to the second
    and back, each load settling in between, requests the entry document
    of the first application twice. *)
Lemma entry_requested_twice :
  ~ entry_fetched_once appA (run sample_page (slow_navigation ++ [ANavigate "/a"])).
Proof. unfold entry_fetched_once. vm_compute. lia. Qed.

(** ** Runs in which every load settles before the next thing happens *)

Section Serial.

Implicit Types (s : state) (a m act : app) (t : task).

Lemma page_ok_None s (o : option app) : page_ok s None -> page_ok s o.
Proof.
  intros H c els Hc. destruct (H c els Hc) as [->|(act & html & ? & _)]; [by left|done].
Qed.

Lemma tasks_unmountApp act s : tasks (after (unmountApp act s)) = tasks s.
Proof. apply unmountApp_frame. Qed.

Lemma page_ok_unmountApp act s s' :
  page_ok s (Some act) -> unmountApp act s = Returned s' -> page_ok s' None.
Proof.
  intros H E c els Hc. left.
  apply unmountApp_Returned in E as (_ & _ & Hcs & _). rewrite Hcs in Hc.
  destruct (containers s !! container act) eqn:E.
  - destruct (decide (c = container act)) as [->|Hne].
    + rewrite lookup_insert_eq in Hc. congruence.
    + rewrite lookup_insert_ne in Hc by done.
      destruct (H c els Hc) as [->|(act' & html & Ha & -> & _)]; [done|].
      congruence.
  - destruct (H c els Hc) as [->|(act' & html & Ha & -> & _)]; [done|].
    congruence.
Qed.

Lemma loadAndMountApp_cases m s :
  (tasks (loadAndMountApp m s) = tasks s /\
   containers (loadAndMountApp m s) = containers s) \/
  (tasks (loadAndMountApp m s) = tasks s ++ [ {| t_app := m; t_stage := AwaitEntry |} ] /\
   containers (loadAndMountApp m s) = <[container m := []]> (containers s)).
Proof.
  unfold loadAndMountApp. destruct (bad_selector s (container m)); [by left|].
  destruct (containers s !! container m); [by right|by left].
Qed.

Lemma loading_loadAndMountApp m s :
  tasks s = [] -> page_ok s None -> activeApp s = Some m ->
  loading (loadAndMountApp m s).
Proof.
  intros Ht Hp Ha. unfold loading.
  destruct (loadAndMountApp_frame m s) as (_ & _ & Hact & _).
  destruct (loadAndMountApp_cases m s) as [(-> & Hc)|[-> Hc]]; rewrite Ht.
  - rewrite Hact, Ha. apply page_ok_None. intros c els. rewrite Hc. apply Hp.
  - cbn [Datatypes.app t_app t_stage]. split; [by rewrite Hact|].
    intros c els. rewrite Hc. intros Hl. left.
    destruct (decide (c = container m)) as [->|Hne].
    + rewrite lookup_insert_eq in Hl. congruence.
    + rewrite lookup_insert_ne in Hl by done.
      by destruct (Hp c els Hl) as [->|(? & ? & ? & _)].
Qed.

Lemma quiet_loading s : quiet s -> loading s.
Proof. intros [Ht Hp]. unfold loading. by rewrite Ht. Qed.

(** After a notification on a page where nothing is suspended: the
    notification was left by an exception and nothing is suspended
    still, or the page is loading and the path is served. *)
Lemma loading_reroute s :
  quiet s -> quiet (reroute s) \/ (loading (reroute s) /\ served (reroute s)).
Proof.
  intros [Ht Hp].
  destruct (thrown (reroute_call s)) eqn:Eth.
  - left. revert Eth. unfold reroute. rewrite reroute_call_eq.
    destruct (find_app s) as [m|]; [|done].
    destruct (activeApp s) as [act|] eqn:Ha; [|done].
    destruct (String.eqb (name act) (name m)); [done|].
    pose proof (tasks_unmountApp act (logged s)) as Hts.
    destruct (unmountApp act (logged s)) as [s3|s3] eqn:E; [done|].
    intros _. cbn [after] in *.
    apply unmountApp_Thrown in E as (_ & Ha3 & Hc3 & _).
    change (activeApp (logged s)) with (activeApp s) in Ha3. rewrite Ha in Ha3.
    change (containers (logged s)) with (containers s) in Hc3.
    split; [by rewrite Hts|].
    rewrite Ha3. intros c els. rewrite Hc3. apply Hp.
  - right. split; [|by apply reroute_served].
    clear Eth. rewrite reroute_eq.
    assert (loading (logged s)) as Hl by (unfold loading; cbn; by rewrite Ht).
    destruct (find_app s) as [m|]; [|done].
    destruct (activeApp s) as [act|] eqn:Ha.
    + destruct (String.eqb (name act) (name m)); [done|].
      pose proof (tasks_unmountApp act (logged s)) as Hts.
      destruct (unmountApp act (logged s)) as [s3|s3] eqn:E; cbn [after] in *.
      * apply loading_loadAndMountApp; [by rewrite <- Ht| |done].
        change (page_ok s3 None).
        apply (page_ok_unmountApp act (logged s)); [|done].
        exact Hp.
      * apply unmountApp_Thrown in E as (_ & Ha3 & Hc3 & _).
        change (activeApp (logged s)) with (activeApp s) in Ha3. rewrite Ha in Ha3.
        change (containers (logged s)) with (containers s) in Hc3.
        apply quiet_loading. split; [by rewrite Hts|].
        rewrite Ha3. intros c els. rewrite Hc3. apply Hp.
    + by apply loading_loadAndMountApp.
Qed.

(** A notification leaves a page in order, provided that nothing is
    suspended or the path is served already (as it is for the second
    and later wrappers around [pushState]). *)
Lemma loading_notified s :
  quiet s \/ (loading s /\ served s) ->
  quiet (reroute s) \/ (loading (reroute s) /\ served (reroute s)).
Proof.
  intros [H|[H Hs]]; [by apply loading_reroute|].
  right. rewrite reroute_served_eq by done. by split.
Qed.

Lemma loading_iter_reroute n s :
  quiet s \/ (loading s /\ served s) ->
  quiet (Nat.iter n reroute s) \/
  (loading (Nat.iter n reroute s) /\ served (Nat.iter n reroute s)).
Proof.
  intros H. induction n as [|n IH]; [done|].
  change (Nat.iter (S n) reroute s) with (reroute (Nat.iter n reroute s)).
  by apply loading_notified.
Qed.

Lemma loading_call_history f path s :
  quiet s ->
  quiet (after (call_history f path s)) \/
  (loading (after (call_history f path s)) /\ served (after (call_history f path s))).
Proof.
  intros H. induction f as [|f IH]; cbn [call_history].
  - left. by destruct (resolve s (pathname s) path).
  - destruct (call_history f path s) as [s'|s']; cbn [after] in *; [|done].
    by apply (loading_notified s').
Qed.

Lemma loading_step s x : quiet s -> is_settle x = false -> loading (step s x).
Proof.
  intros H Hx.
  assert (forall s', quiet s' \/ (loading s' /\ served s') -> loading s') as Hor.
  { intros s' [H'|[H' _]]; [by apply quiet_loading|done]. }
  destruct x as [a| |path|path|path|i]; cbn [step]; [| | | | |done].
  - by apply quiet_loading.
  - apply Hor. unfold start. apply loading_reroute. exact H.
  - by apply Hor, loading_call_history.
  - by apply Hor, loading_call_history.
  - apply Hor. unfold fire_popstate. apply loading_iter_reroute. by left.
Qed.

(** What going on with a suspended load changes. *)
Lemma next_script_frame a todo s s' o :
  next_script a todo s = (s', o) ->
  tasks s' = tasks s /\ activeApp s' = activeApp s /\ containers s' = containers s /\
  net s' = net s /\
  match o with
  | Some (AwaitScript _ more) => S (length more) = length todo
  | Some _ => False
  | None => todo = []
  end.
Proof.
  unfold next_script, mount_step. destruct todo as [|u more]; intros H.
  - injection H as <- <-. destruct (has_hook (name a) "mount" s); [|done].
    by destruct (hook_throws (name a) "mount" s).
  - injection H as <- <-. done.
Qed.

Lemma next_style_frame a todo scripts_todo s s' o :
  next_style a todo scripts_todo s = (s', o) ->
  tasks s' = tasks s /\ activeApp s' = activeApp s /\ containers s' = containers s /\
  net s' = net s /\
  match o with
  | Some (AwaitStyle _ more scr) =>
      S (length more + length scr) = length todo + length scripts_todo
  | Some (AwaitScript _ more) => S (length more) <= length todo + length scripts_todo
  | Some AwaitEntry => False
  | None => True
  end.
Proof.
  unfold next_style, executeScripts. destruct todo as [|u more]; intros H.
  - apply next_script_frame in H as (H1 & H2 & H3 & H4 & H5).
    repeat split; try done.
    destruct o as [[| |u more]|]; try done. cbn. lia.
  - injection H as <- <-. repeat split; try done; cbn; lia.
Qed.

Lemma resume_frame a st s s' o :
  resume a st s = (s', o) ->
  tasks s' = tasks s /\ activeApp s' = activeApp s /\ net s' = net s /\
  o <> Some AwaitEntry /\
  match st with
  | AwaitEntry =>
      containers s' = containers s \/
      exists html,
        containers s' = alter (fun l => l ++ [appElement a html]) (container a) (containers s)
  | _ => containers s' = containers s
  end /\
  match o with
  | Some st' =>
      requests_left s' {| t_app := a; t_stage := st' |}
      < requests_left s {| t_app := a; t_stage := st |}
  | None => True
  end.
Proof.
  destruct st as [|u more scr|u more]; cbn [resume]; intros H.
  - unfold requests_left at 2. cbn [t_stage t_app].
    destruct (net s (cs (entry a))) as [r|].
    + apply next_style_frame in H as (H1 & H2 & H3 & H4 & H5).
      cbn [tasks activeApp containers net log set_trace set_containers] in H1, H2, H3, H4.
      repeat split; try done.
      * by destruct o as [[]|].
      * right. by eexists.
      * destruct o as [[|u more scr|u more]|]; try done;
          unfold requests_left; cbn [t_stage t_app]; lia.
    + injection H as <- <-. repeat split; try done. by left.
  - apply next_style_frame in H as (H1 & H2 & H3 & H4 & H5).
    assert (forall X, X = match net s u with
                          | Some r => set_head (fun h => h ++ [ {| data_app := name a;
                                         css := scopedCss (body r) (cs (name a)) |} ]) s
                          | None => log (EStyleFailed u) s
                          end ->
            tasks X = tasks s /\ activeApp X = activeApp s /\
            containers X = containers s /\ net X = net s) as HX
      by (intros X ->; by destruct (net s u)).
    destruct (HX _ eq_refl) as (E1 & E2 & E3 & E4).
    rewrite E1 in H1. rewrite E2 in H2. rewrite E3 in H3. rewrite E4 in H4.
    repeat split; try done.
    + by destruct o as [[]|].
    + destruct o as [[|u' more' scr'|u' more']|]; try done;
        unfold requests_left; cbn [t_stage t_app length] in *; lia.
  - apply next_script_frame in H as (H1 & H2 & H3 & H4 & H5).
    assert (forall X, X = match net s u with
                          | Some r =>
                              if exec_throws (program r) (name a) (sandbox s)
                              then log EExecFailed
                                     (set_sandbox (exec (program r) (name a)) s)
                              else set_sandbox (exec (program r) (name a)) s
                          | None => log (EScriptFailed u) s
                          end ->
            tasks X = tasks s /\ activeApp X = activeApp s /\
            containers X = containers s /\ net X = net s) as HX
      by (intros X ->; destruct (net s u) as [r|]; [|done];
          cbv zeta; by destruct (exec_throws _ _ _)).
    destruct (HX _ eq_refl) as (E1 & E2 & E3 & E4).
    rewrite E1 in H1. rewrite E2 in H2. rewrite E3 in H3. rewrite E4 in H4.
    repeat split; try done.
    + by destruct o as [[]|].
    + destruct o as [[|u' more' scr'|u' more']|]; try done;
        unfold requests_left; cbn [t_stage t_app length] in *; lia.
Qed.

Lemma settle_one s t :
  tasks s = [t] ->
  exists s' o,
    resume (t_app t) (t_stage t) s = (s', o) /\
    tasks (settle 0 s) =
      match o with
      | Some st => [ {| t_app := t_app t; t_stage := st |} ]
      | None => []
      end /\
    activeApp (settle 0 s) = activeApp s' /\
    containers (settle 0 s) = containers s' /\
    net (settle 0 s) = net s'.
Proof.
  intros Ht. unfold settle. rewrite Ht. cbn [lookup list_lookup].
  destruct (resume (t_app t) (t_stage t) s) as [s' o] eqn:E.
  exists s', o. split; [done|].
  apply resume_frame in E as (H1 & _).
  destruct o as [st|]; cbn; rewrite H1, Ht; done.
Qed.

Lemma page_ok_eq s s' (o : option app) :
  containers s' = containers s -> page_ok s o -> page_ok s' o.
Proof. unfold page_ok. by intros ->. Qed.

Lemma page_ok_appended s s' a html :
  page_ok s None ->
  containers s' = alter (fun l => l ++ [appElement a html]) (container a) (containers s) ->
  page_ok s' (Some a).
Proof.
  intros Hp Hc c els. rewrite Hc.
  destruct (decide (c = container a)) as [->|Hne].
  - rewrite lookup_alter_eq.
    destruct (containers s !! container a) as [l|] eqn:E; [|done].
    intros [= <-]. right. exists a, html.
    by destruct (Hp _ _ E) as [->|(? & ? & ? & _)].
  - rewrite lookup_alter_ne by done. intros Hl. left.
    by destruct (Hp _ _ Hl) as [->|(? & ? & ? & _)].
Qed.

(** Going on with the suspended load keeps the page in order. *)
Lemma loading_settle s : loading s -> loading (settle 0 s).
Proof.
  unfold loading at 1.
  destruct (tasks s) as [|t [|t2 ts]] eqn:Ht; [| |done].
  - intros Hp. unfold settle. rewrite Ht. cbn [lookup list_lookup].
    unfold loading. by rewrite Ht.
  - intros [Ha Hst].
    destruct (settle_one s t Ht) as (s' & o & E & Hts & Hact & Hcs & _).
    destruct (resume_frame _ _ _ _ _ E) as (_ & H2 & _ & Hne & Hc & _).
    assert (page_ok s' (Some (t_app t))) as Hp'.
    { destruct (t_stage t).
      - destruct Hc as [Hc|[html Hc]].
        + by apply page_ok_None, (page_ok_eq s).
        + by apply (page_ok_appended s s' _ html).
      - rewrite <- Ha. by apply (page_ok_eq s).
      - rewrite <- Ha. by apply (page_ok_eq s). }
    assert (page_ok (settle 0 s) (activeApp (settle 0 s))) as Hp''.
    { rewrite Hact, H2, Ha. by apply (page_ok_eq s'). }
    unfold loading. rewrite Hts. destruct o as [st|]; [|done].
    cbn [t_app t_stage]. split; [by rewrite Hact, H2|].
    by destruct st.
Qed.

Lemma loading_drain n s : loading s -> loading (drain n s).
Proof.
  revert s. induction n as [|n IH]; intros s H; [done|].
  cbn [drain]. destruct (tasks s); [done|]. by apply IH, loading_settle.
Qed.

Lemma serial_quiet s s' : quiet s -> serial s s' -> quiet s'.
Proof.
  intros Hq Hs. induction Hs as [s|s s1 x n Hs IH Hx Ht]; [done|].
  specialize (IH Hq).
  pose proof (loading_drain n _ (loading_step s1 x IH Hx)) as Hl.
  unfold loading in Hl. rewrite Ht in Hl. by split.
Qed.

Lemma quiet_single_mounted s : quiet s -> single_mounted s.
Proof.
  intros [_ Hp] c1 c2 els1 els2 e1 e2 H1 H2 He1 He2.
  destruct (Hp c1 els1 H1) as [->|(act & html & Ha & -> & ->)];
    [by apply elem_of_nil in He1|].
  destruct (Hp c2 els2 H2) as [->|(act' & html' & Ha' & -> & ->)];
    [by apply elem_of_nil in He2|].
  assert (act' = act) as -> by congruence.
  rewrite H1 in H2. injection H2 as H2.
  apply list_elem_of_singleton in He1 as ->.
  apply list_elem_of_singleton in He2 as ->.
  by rewrite H2.
Qed.

Lemma drain_nil n s : tasks s = [] -> drain n s = s.
Proof. intros H. destruct n; [done|]. cbn. by rewrite H. Qed.

Lemma requests_left_net s s' t : net s' = net s -> requests_left s' t = requests_left s t.
Proof. unfold requests_left. by intros ->. Qed.

Lemma requests_left_pos s t : 0 < requests_left s t.
Proof.
  unfold requests_left. destruct (t_stage t); [|lia|lia].
  destruct (net s _); lia.
Qed.

(** A suspended load comes to its end. *)
Lemma drain_ends n s t :
  tasks s = [t] -> requests_left s t <= n -> tasks (drain n s) = [].
Proof.
  revert s t. induction n as [|n IH]; intros s t Ht Hn.
  - pose proof (requests_left_pos s t). lia.
  - cbn [drain]. rewrite Ht.
    destruct (settle_one s t Ht) as (s' & o & E & Hts & _ & _ & Hnet).
    destruct (resume_frame _ _ _ _ _ E) as (_ & _ & _ & _ & _ & Hlt).
    destruct o as [st|].
    + apply (IH _ _ Hts).
      rewrite (requests_left_net s' (settle 0 s)) by done.
      destruct t as [a st0]. cbn [t_app t_stage] in *. lia.
    + by rewrite drain_nil.
Qed.

End Serial.


(** X10.  Such a run can always go on: the load a notification starts
    comes to its end. *)
Theorem serial_can_settle (s : state) (x : action) :
  quiet s -> is_settle x = false -> exists n, tasks (drain n (step s x)) = [].
Proof.
  intros Hq Hx. pose proof (loading_step s x Hq Hx) as Hl.
  unfold loading in Hl.
  destruct (tasks (step s x)) as [|t [|t2 ts]] eqn:Ht; [|  |done].
  - exists 0. done.
  - exists (requests_left (step s x) t). by apply (drain_ends _ _ t).
Qed.

Lemma page_quiet path cont w network : quiet (page path cont w network).
Proof.
  split; [done|]. intros c els Hc. left.
  unfold page in Hc. cbn [containers] in Hc.
  apply elem_of_list_to_map_2 in Hc.
  by apply list_elem_of_fmap in Hc as (c' & [= _ ->] & _).
Qed.

(** From the page as it is before the program has done anything, every
    such run keeps at most one application in the page. *)
Corollary serial_from_page path cont w network (s' : state) :
  serial (page path cont w network) s' -> single_mounted s'.
Proof.
  intros H. apply quiet_single_mounted.
  by apply (serial_quiet _ _ (page_quiet path cont w network)).
Qed.

(** The sample run in which each load settles before the next navigation
    is such a run. *)
Example slow_navigation_serial :
  serial (page "/" ["#c"] ∅ sample_net) (run sample_page slow_navigation).
Proof.
  pose (s0 := page "/" ["#c"] ∅ sample_net).
  pose (s1 := drain 0 (step s0 (ARegister appA))).
  pose (s2 := drain 0 (step s1 (ARegister appB))).
  pose (s3 := drain 0 (step s2 AStart)).
  pose (s4 := drain 2 (step s3 (ANavigate "/a"))).
  pose (s5 := drain 2 (step s4 (ANavigate "/b"))).
  assert (run sample_page slow_navigation = s5) as -> by (vm_compute; reflexivity).
  assert (serial s0 s1) as H1 by (apply (serial_next s0 s0); [constructor|done|done]).
  assert (serial s0 s2) as H2 by (apply (serial_next s0 s1); done).
  assert (serial s0 s3) as H3 by (apply (serial_next s0 s2); done).
  assert (serial s0 s4) as H4
    by (apply (serial_next s0 s3); [done|done|vm_compute; reflexivity]).
  apply (serial_next s0 s4); [done|done|vm_compute; reflexivity].
Qed.

(** ** Two navigations in a row *)

(** C1.  Two applications registered on one container; the program is
    started; [navigateTo] is called for the first and then for the second
    before the entry document of the first has arrived; then the requests
    settle.  The elements of both applications end up in the container,
    while [activeApp] is the second. *)
Theorem quick_navigation_two_mounted :
  let s := run sample_page quick_navigation in
  containers s !! "#c" =
    Some [appElement appA (cs "<p>A</p>"); appElement appB (cs "<p>B</p>")] /\
  mounted s = ["app-a"; "app-b"] /\
  activeApp s = Some appB /\
  tasks s = [] /\
  ~ single_mounted s.
Proof.
  cbv zeta.
  assert (containers (run sample_page quick_navigation) !! "#c" =
          Some [appElement appA (cs "<p>A</p>"); appElement appB (cs "<p>B</p>")]) as Hc
    by (vm_compute; reflexivity).
  repeat split; try (vm_compute; reflexivity).
  intros H.
  destruct (H "#c" "#c" _ _ (appElement appA (cs "<p>A</p>"))
              (appElement appB (cs "<p>B</p>")) Hc Hc) as (_ & Heq & _).
  - apply list_elem_of_here.
  - apply list_elem_of_further, list_elem_of_here.
  - discriminate Heq.
Qed.

(** The same navigations with each load settling before the next one:
    one element in the page. *)
Example slow_navigation_single_mounted :
  mounted (run sample_page slow_navigation) = ["app-b"].
Proof. vm_compute. reflexivity. Qed.

(** C2.  On the same run the [mount] hook of the first application is
    called after [unmountApp] has been run for it, its [unmount] hook is
    never called, and the [mount] hook of the second application is called
    while the first is mounted. *)
Theorem quick_navigation_mount_overlap :
  let s := run sample_page quick_navigation in
  work (trace s) =
    [ Cleared "#c"; Fetch (cs "http://x/a");
      Cleared "#c";
      Cleared "#c"; Fetch (cs "http://x/b");
      Appended "#c" "app-a"; Fetch (cs "a.js"); Hook "a" "mount";
      Appended "#c" "app-b"; Fetch (cs "b.js"); Hook "b" "mount" ] /\
  hook_calls (trace s) = [Hook "a" "mount"; Hook "b" "mount"] /\
  mount_overlap (trace s) [] = true.
Proof. cbv zeta. repeat split; vm_compute; reflexivity. Qed.

Example slow_navigation_no_overlap :
  let s := run sample_page slow_navigation in
  work (trace s) =
    [ Cleared "#c"; Fetch (cs "http://x/a");
      Appended "#c" "app-a"; Fetch (cs "a.js"); Hook "a" "mount";
      Hook "a" "unmount"; Cleared "#c";
      Cleared "#c"; Fetch (cs "http://x/b");
      Appended "#c" "app-b"; Fetch (cs "b.js"); Hook "b" "mount" ] /\
  mount_overlap (trace s) [] = false.
Proof. cbv zeta. split; vm_compute; reflexivity. Qed.

(** ** The sandbox *)

Section Sandbox.

Implicit Types (rl : realm) (v : value) (prop : string).

(** The [get] handler of a proxy of [sandboxWindow]. *)
Lemma get_prop_view (b : option string) prop rl :
  get_prop (view b) prop rl =
  match global rl !! store_key b ≫= (fun st => st !! prop) with
  | Some v => wrap v b rl
  | None =>
      let v := default VUndefined (sandboxWindow rl !! prop) in
      if bool_decide (prop ∈ self_names) then (VObj sandboxProxy, rl)
      else if bool_decide (prop ∈ passthrough_names) then (v, rl)
      else wrap v b rl
  end.
Proof. reflexivity. Qed.

Lemma wrap_fst v (b : option string) rl rl' :
  proxyCache rl' = proxyCache rl -> (wrap v b rl').1 = (wrap v b rl).1.
Proof.
  intros Hc. unfold wrap. destruct (is_object v) as [r|]; [|done].
  unfold createProxy. rewrite Hc. by destruct (cache_get r (proxyCache rl)).
Qed.

Lemma wrap_not_object v (b : option string) rl :
  is_function v = true -> wrap v b rl = (v, rl).
Proof. by destruct v. Qed.

Lemma name_truthy_Some (a : string) : a <> "" -> name_truthy (Some a) = true.
Proof. intros H. cbn. apply negb_true_iff. by apply String.eqb_neq. Qed.

End Sandbox.

(** C3, as the code has it, for application names and property names
    that [Object.prototype] does not define.  A write made on the proxy
    an application named [a] is given leaves the host's [window] and
    every other object of the page as they were.  A value that is not a
    function goes to the store of [a] and to no other store, and what any
    other view reads for the property is what it read before.  A function
    goes to the shared [sandboxWindow] instead: every view whose own store
    lacks the property reads it from then on. *)
Theorem sandbox_write (rl : realm) (a : string) (b : option string)
    (prop : string) (v : value) :
  a <> "" ->
  store_key b <> a ->
  ordinary a ->
  ordinary (store_key b) ->
  ordinary prop ->
  let rl' := set_prop (view (Some a)) prop v rl in
  window rl' = window rl /\
  heap rl' = heap rl /\
  (forall n, n <> a -> global rl' !! n = global rl !! n) /\
  if is_function v then
    global rl' = global rl /\
    sandboxWindow rl' = <[prop := v]> (sandboxWindow rl) /\
    (global rl !! store_key b ≫= (fun st => st !! prop) = None ->
     prop ∉ self_names ->
     (get_prop (view b) prop rl').1 = v)
  else
    sandboxWindow rl' = sandboxWindow rl /\
    global rl' !! a ≫= (fun st => st !! prop) = Some v /\
    (get_prop (view b) prop rl').1 = (get_prop (view b) prop rl).1.
Proof.
  intros Ha Hb _ _ _ rl'.
  assert (rl' =
          if is_function v
          then set_sandboxWindow (fun w => <[prop := v]> w) rl
          else set_global (fun g =>
                 <[a := <[prop := v]> (default ∅ (g !! a))]> g) rl) as ->.
  { subst rl'. unfold view. cbn [set_prop store_key].
    rewrite (name_truthy_Some a Ha). by destruct (is_function v). }
  destruct (is_function v) eqn:Hf.
  - repeat split.
    intros Hnone Hself. rewrite get_prop_view.
    cbn [global sandboxWindow set_sandboxWindow].
    rewrite Hnone, lookup_insert_eq. cbn [default].
    rewrite bool_decide_eq_false_2 by done. cbn zeta.
    destruct (bool_decide (prop ∈ passthrough_names)); [done|].
    by rewrite wrap_not_object.
  - repeat split.
    + intros n Hn. cbn. by rewrite lookup_insert_ne.
    + cbn. rewrite lookup_insert_eq. cbn. by rewrite lookup_insert_eq.
    + rewrite !get_prop_view. cbn [global sandboxWindow set_global].
      rewrite (lookup_insert_ne _ a (store_key b)) by done.
      destruct (global rl !! store_key b ≫= (fun st => st !! prop)) as [v0|].
      * by apply wrap_fst.
      * cbn zeta. destruct (bool_decide (prop ∈ self_names)); [done|].
        destruct (bool_decide (prop ∈ passthrough_names)); [done|].
        by apply wrap_fst.
Qed.

Lemma sandbox_write_witness :
  let rl' := set_prop (view (Some "a")) "alert" (VNum 1) host_realm in
  window rl' = window host_realm /\
  heap rl' = heap host_realm /\
  (forall n, n <> "a" -> global rl' !! n = global host_realm !! n) /\
  if is_function (VNum 1) then
    global rl' = global host_realm /\
    sandboxWindow rl' = <["alert" := VNum 1]> (sandboxWindow host_realm) /\
    (global host_realm !! store_key (Some "b") ≫= (fun st => st !! "alert") = None ->
     "alert" ∉ self_names ->
     (get_prop (view (Some "b")) "alert" rl').1 = VNum 1)
  else
    sandboxWindow rl' = sandboxWindow host_realm /\
    global rl' !! "a" ≫= (fun st => st !! "alert") = Some (VNum 1) /\
    (get_prop (view (Some "b")) "alert" rl').1 =
    (get_prop (view (Some "b")) "alert" host_realm).1.
Proof.
  refine (sandbox_write host_realm "a" (Some "b") "alert" (VNum 1) _ _ _ _ _).
  - discriminate.
  - discriminate.
  - apply (bool_decide_unpack _). vm_compute. exact I.
  - apply (bool_decide_unpack _). vm_compute. exact I.
  - apply (bool_decide_unpack _). vm_compute. exact I.
Defined.

(** C3, counterexample: the host defines [alert]; one application assigns
    a function to [window.alert]; the store of that application does not
    hold it, and another application reads the new function. *)
Lemma function_write_leaks : ~ write_isolated "a" "b" "alert" (VFun 7) host_realm.
Proof.
  intros (_ & H & _). vm_compute in H. discriminate.
Qed.

(** Through [window.window] an application reaches the base proxy, whose
    handler has no application name: what it writes there lands on the
    shared [sandboxWindow], whatever the value. *)
Example write_through_window_window :
  let rl := exec [SSet ["window"] "shared" (VNum 1)] "a" host_realm in
  global rl !! "a" = None /\
  sandboxWindow rl !! "shared" = Some (VNum 1) /\
  (get_prop (view (Some "b")) "shared" rl).1 = VNum 1 /\
  window rl !! "shared" = None.
Proof. cbv zeta. repeat split; vm_compute; reflexivity. Qed.

(** A proxy of an object below [window] is taken from the cache whatever
    application it was made for.  Here the code of [a] has run, then the
    code of [b], which has read [window.console]; when a function of [a]
    later assigns to [window.console.x] through the [window] it was
    given, the value lands in the store of [b]. *)
Example stale_proxy_writes_other_store :
  let rl1 := exec [] "a" console_realm in
  let rl2 := exec [SGet [] "console"] "b" rl1 in
  let rl3 := run_code (view (Some "a")) "a" [SSet ["console"] "x" (VNum 1)] rl2 in
  global rl3 !! "b" = Some {[ "x" := VNum 1 ]} /\
  global rl3 !! "a" = None /\
  window rl3 = window console_realm /\
  heap rl3 = heap console_realm.
Proof. cbv zeta. repeat split; vm_compute; reflexivity. Qed.

(** ** The matcher *)

Section Matcher.

Implicit Types (re : regex) (s m rest taken : chars) (caps : list chars).

Lemma strip_sound ci l s m rest :
  strip ci l s = Some (m, rest) -> s = m ++ rest /\ lit_eq ci l m.
Proof.
  revert s m rest. induction l as [|a l IH]; intros s m rest H; cbn in H.
  - injection H as <- <-. split; [done|constructor].
  - destruct s as [|b s]; [done|].
    destruct (if ci then ascii_eqb (lower a) (lower b) else ascii_eqb a b) eqn:E; [|done].
    destruct (strip ci l s) as [[m' r']|] eqn:Hs; [|done].
    injection H as <- <-. destruct (IH _ _ _ Hs) as [-> Hl].
    split; [done|]. constructor; [|done].
    destruct ci; by apply Ascii.eqb_eq.
Qed.

Lemma rep_greedy_sound cls k taken s r :
  rep_greedy cls k taken s = Some r ->
  exists t s2, s = t ++ s2 /\ forallb cls t = true /\ k (taken ++ t) s2 = Some r.
Proof.
  revert taken. induction s as [|c s IH]; intros taken H; cbn in H.
  - exists [], []. split; [done|]. split; [done|]. by rewrite app_nil_r.
  - destruct (cls c) eqn:Hc.
    + destruct (rep_greedy cls k (taken ++ [c]) s) as [r'|] eqn:Hg.
      * injection H as <-. destruct (IH _ Hg) as (t & s2 & -> & Ht & Hk).
        exists (c :: t), s2. cbn. rewrite Hc, Ht. rewrite <- app_assoc in Hk. done.
      * exists [], (c :: s). split; [done|]. split; [done|]. by rewrite app_nil_r.
    + exists [], (c :: s). split; [done|]. split; [done|]. by rewrite app_nil_r.
Qed.

Lemma rep_lazy_sound cls k taken s r :
  rep_lazy cls k taken s = Some r ->
  exists t s2, s = t ++ s2 /\ forallb cls t = true /\ k (taken ++ t) s2 = Some r.
Proof.
  revert taken. induction s as [|c s IH]; intros taken H; cbn in H.
  - destruct (k taken []) eqn:Hk; [|done]. injection H as <-.
    exists [], []. split; [done|]. split; [done|]. by rewrite app_nil_r.
  - destruct (k taken (c :: s)) eqn:Hk.
    + injection H as <-. exists [], (c :: s). split; [done|]. split; [done|]. by rewrite app_nil_r.
    + destruct (cls c) eqn:Hc; [|done].
      destruct (IH _ H) as (t & s2 & -> & Ht & Hk').
      exists (c :: t), s2. cbn. rewrite Hc, Ht. rewrite <- app_assoc in Hk'. done.
Qed.

Lemma push_Some cap m (r : option (list chars * chars)) caps rest :
  push cap m r = Some (caps, rest) ->
  exists caps', r = Some (caps', rest) /\ caps = if cap then m :: caps' else caps'.
Proof.
  destruct r as [[caps' rest']|]; [|done]. cbn. intros H. injection H as <- <-. eauto.
Qed.

(** A match found by [match_items] is a match: the text splits into the
    matched part and the rest, and the matched part has the form of the
    expression. *)
Lemma match_items_sound re s caps rest :
  match_items re s = Some (caps, rest) ->
  exists m, s = m ++ rest /\ den re m caps.
Proof.
  revert s caps rest. induction re as [|it re IH]; intros s caps rest H.
  - cbn in H. injection H as <- <-. exists []. done.
  - destruct it as [cap ci l|cls|cap lazy plus cls]; cbn [match_items] in H.
    + destruct (strip ci l s) as [[m1 s']|] eqn:Hs; [|done].
      destruct (strip_sound _ _ _ _ _ Hs) as [-> Hl].
      destruct (push_Some _ _ _ _ _ H) as (caps' & Hm & ->).
      destruct (IH _ _ _ Hm) as (m2 & -> & Hd).
      exists (m1 ++ m2). split; [by rewrite app_assoc|].
      cbn. by exists m1, m2, caps'.
    + destruct s as [|c s']; [done|]. destruct (cls c) eqn:Hc; [|done].
      destruct (IH _ _ _ H) as (m2 & -> & Hd).
      exists (c :: m2). split; [done|]. cbn. by exists c, m2.
    + assert (exists t s2, s = t ++ s2 /\ forallb cls t = true /\
                (if plus && is_nil t then None
                 else push cap t (match_items re s2)) = Some (caps, rest))
        as (t & s2 & -> & Ht & Hk).
      { destruct lazy;
          [apply rep_lazy_sound in H | apply rep_greedy_sound in H];
          destruct H as (t & s2 & ? & ? & ?); by exists t, s2. }
      destruct (plus && is_nil t) eqn:Hp; [done|].
      destruct (push_Some _ _ _ _ _ Hk) as (caps' & Hm & ->).
      destruct (IH _ _ _ Hm) as (m2 & -> & Hd).
      exists (t ++ m2). split; [by rewrite app_assoc|].
      cbn. exists t, m2, caps'. repeat split; try done.
      intros -> ->. done.
Qed.

Lemma found_in_order_before {A} (shape : chars -> A -> Prop) pre text l :
  found_in_order shape text l -> found_in_order shape (pre ++ text) l.
Proof.
  intros H. destruct H as [text|before piece rest x l Hs Hl]; [constructor|].
  rewrite app_assoc. by constructor.
Qed.

(** The matches listed by [exec_all] are matches of the expression, found
    one after the other in the text. *)
Lemma exec_all_in_order re s skip :
  found_in_order (den re) (drop skip s) (exec_all re skip s).
Proof.
  revert skip. induction s as [|c s IH]; intros skip; [constructor|].
  destruct skip as [|n]; cbn [exec_all]; [|apply IH].
  cbn [drop].
  destruct (match_items re (c :: s)) as [[caps rest]|] eqn:Hm.
  - destruct (match_items_sound _ _ _ _ Hm) as (m & Heq & Hd).
    rewrite Heq at 1. apply (found_cons _ [] m rest); [done|].
    destruct m as [|c' m].
    + cbn in Heq. subst rest. cbn.
      replace (length s - length s - 1) with 0 by lia.
      apply (found_in_order_before _ [c] s), (IH 0).
    + cbn in Heq. injection Heq as <- ->.
      replace (length (c :: m ++ rest) - length rest - 1) with (length m)
        by (cbn [length]; rewrite length_app; lia).
      specialize (IH (length m)). by rewrite drop_app_length in IH.
  - apply (found_in_order_before _ [c] s), (IH 0).
Qed.

Lemma found_in_order_map {A B} (shape : chars -> A -> Prop) (shape' : chars -> B -> Prop)
    (f : A -> B) text l :
  (forall piece x, shape piece x -> shape' piece (f x)) ->
  found_in_order shape text l -> found_in_order shape' text (map f l).
Proof. intros Hf H. induction H; cbn; constructor; auto. Qed.

Lemma forallb_neq_char x (t : chars) : forallb (neq_char x) t = true -> x ∉ t.
Proof.
  induction t as [|c t IH]; cbn; [intros _; apply not_elem_of_nil|].
  intros [Hc Ht]%andb_true_iff. apply not_elem_of_cons. split; [|auto].
  intros ->. unfold neq_char, ascii_eqb in Hc. by rewrite Ascii.eqb_refl in Hc.
Qed.

Lemma lit_eq_exact l m : lit_eq false l m -> m = l.
Proof. unfold lit_eq. induction 1; congruence. Qed.

End Matcher.

(** ** [parseHtml] *)

Section ParseHtml.

Lemma den_scriptRegex m caps :
  den scriptRegex m caps -> external_script m (group1 caps).
Proof.
  unfold scriptRegex. cbn [den]. intros H.
  destruct H as (l1 & r1 & c1 & -> & L1 & H & ->).
  destruct H as (a & r2 & c2 & -> & Ha & _ & H & ->).
  destruct H as (l2 & r3 & c3 & -> & L2 & H & ->).
  destruct H as (u & r4 & c4 & -> & Hu & Hne & H & ->).
  destruct H as (l3 & r5 & c5 & -> & L3 & H & ->).
  destruct H as (b & r6 & c6 & -> & Hb & _ & H & ->).
  destruct H as (l4 & r7 & c7 & -> & L4 & [-> ->] & ->).
  apply lit_eq_exact in L1, L2, L3, L4. subst.
  exists a, b. cbn [group1]. rewrite app_nil_r, <- !app_assoc.
  repeat split; auto using forallb_neq_char.
Qed.

Lemma den_styleRegex m caps :
  den styleRegex m caps -> stylesheet_link m (group1 caps).
Proof.
  unfold styleRegex. cbn [den]. intros H.
  destruct H as (l1 & r1 & c1 & -> & L1 & H & ->).
  destruct H as (a & r2 & c2 & -> & Ha & _ & H & ->).
  destruct H as (l2 & r3 & c3 & -> & L2 & H & ->).
  destruct H as (b & r4 & c4 & -> & Hb & _ & H & ->).
  destruct H as (l3 & r5 & c5 & -> & L3 & H & ->).
  destruct H as (u & r6 & c6 & -> & Hu & Hne & H & ->).
  destruct H as (l4 & r7 & c7 & -> & L4 & H & ->).
  destruct H as (c & r8 & c8 & -> & Hc & _ & H & ->).
  destruct H as (l5 & r9 & c9 & -> & L5 & [-> ->] & ->).
  apply lit_eq_exact in L1, L2, L3, L4, L5. subst.
  exists a, b, c. cbn [group1]. rewrite app_nil_r, <- !app_assoc.
  repeat split; auto using forallb_neq_char.
Qed.

End ParseHtml.

(** ** The style rewriting *)

Section ScopeCss.

Implicit Types (s sel body rest taken : chars).

Lemma rep_greedy_max cls k taken t s2 r :
  forallb cls t = true ->
  match s2 with [] => True | c :: _ => cls c = false end ->
  k (taken ++ t) s2 = Some r ->
  rep_greedy cls k taken (t ++ s2) = Some r.
Proof.
  revert taken. induction t as [|c t IH]; intros taken Ht Hs Hk.
  - rewrite app_nil_r in Hk. cbn. destruct s2 as [|c s2]; [done|].
    cbn. by rewrite Hs.
  - cbn in Ht. apply andb_true_iff in Ht as [Hc Ht].
    cbn. rewrite Hc. rewrite (IH (taken ++ [c])); [done|done|done|].
    by rewrite <- app_assoc.
Qed.

Lemma rep_greedy_none cls k taken s :
  (forall t s2, s = t ++ s2 -> k (taken ++ t) s2 = None) ->
  rep_greedy cls k taken s = None.
Proof.
  revert taken. induction s as [|c s IH]; intros taken H; cbn.
  - specialize (H [] [] eq_refl). by rewrite app_nil_r in H.
  - assert (k taken (c :: s) = None) as Hk.
    { specialize (H [] (c :: s) eq_refl). by rewrite app_nil_r in H. }
    destruct (cls c); [|done].
    rewrite IH; [done|]. intros t s2 ->.
    rewrite <- app_assoc. by apply (H (c :: t) s2).
Qed.

Lemma neq_char_forallb x (t : chars) : x ∉ t -> forallb (neq_char x) t = true.
Proof.
  induction t as [|c t IH]; [done|].
  intros [Hc Ht]%not_elem_of_cons. cbn. rewrite IH by done.
  unfold neq_char, ascii_eqb. rewrite andb_true_r. apply negb_true_iff.
  apply Ascii.eqb_neq. congruence.
Qed.

Lemma match_selector sel rest :
  sel <> [] -> lbrace ∉ sel ->
  match_items selectorRegex (sel ++ lbrace :: rest) = Some ([sel; [lbrace]], rest).
Proof.
  intros Hne Hsel. unfold selectorRegex. cbn [match_items].
  apply rep_greedy_max; [by apply neq_char_forallb|done|].
  destruct sel; [done|]. reflexivity.
Qed.

Lemma match_selector_none s :
  lbrace ∉ s -> match_items selectorRegex s = None.
Proof.
  intros Hs. unfold selectorRegex. cbn [match_items].
  apply rep_greedy_none. intros t s2 ->. cbn [Datatypes.app].
  destruct (true && is_nil t); [done|].
  destruct s2 as [|c s2]; [done|]. cbn [strip].
  assert (ascii_eqb lbrace c = false) as ->; [|done].
  apply Ascii.eqb_neq. intros <-. apply Hs.
  apply elem_of_app. right. apply list_elem_of_here.
Qed.

Lemma replace_all_skip re f pre rest :
  replace_all re f (length pre) (pre ++ rest) = replace_all re f 0 rest.
Proof. induction pre as [|c pre IH]; [done|]. cbn. apply IH. Qed.

Lemma replace_all_none re f s :
  (forall k, match_items re (drop k s) = None) -> replace_all re f 0 s = s.
Proof.
  induction s as [|c s IH]; intros H; [done|].
  pose proof (H 0) as H0. cbn [drop] in H0.
  cbn [replace_all]. rewrite H0. f_equal. apply IH.
  intros k. apply (H (S k)).
Qed.

Lemma scopedCss_none s appName : lbrace ∉ s -> scopedCss s appName = s.
Proof.
  intros Hs. apply replace_all_none. intros k. apply match_selector_none.
  intros Hin. apply Hs. by apply (subseteq_drop k s).
Qed.

(** The first piece of text that ends with a brace is handed to the
    callback; the rewriting goes on after the brace. *)
Lemma scopedCss_step sel rest appName :
  sel <> [] -> lbrace ∉ sel ->
  scopedCss (sel ++ lbrace :: rest) appName =
  scope_selector appName (sel ++ [lbrace]) [sel; [lbrace]] ++ scopedCss rest appName.
Proof.
  intros Hne Hsel. unfold scopedCss.
  pose proof (match_selector sel rest Hne Hsel) as Hm.
  destruct sel as [|c sel]; [done|].
  cbn [Datatypes.app] in *. cbn [replace_all]. rewrite Hm.
  replace (length (c :: sel ++ lbrace :: rest) - length rest)
    with (S (length (sel ++ [lbrace])))
    by (cbn [length]; rewrite !length_app; cbn [length]; lia).
  cbn [take].
  replace (sel ++ lbrace :: rest) with ((sel ++ [lbrace]) ++ rest)
    by (by rewrite <- app_assoc).
  rewrite take_app_length, replace_all_skip. reflexivity.
Qed.

End ScopeCss.

(** C9, as the code has it.  For a style sheet that is one rule, the text
    before the brace (the selector, with the blanks around it) is kept as
    it is when it contains [@media] or [@keyframes]; otherwise the class
    of the application, [.micro-app-] and its name, and a blank are put
    before it, and a blank after it.  For [.btn { color: red; }] and the
    application [app-a] the result is
    [.micro-app-app-a .btn  { color: red; }]. *)
Theorem scopedCss_single_rule (sel body appName : chars) :
  sel <> [] ->
  lbrace ∉ sel ->
  lbrace ∉ body ->
  scopedCss (sel ++ [lbrace] ++ body) appName =
  if includes (cs "@media") sel || includes (cs "@keyframes") sel
  then sel ++ [lbrace] ++ body
  else cs ".micro-app-" ++ appName ++ cs " " ++ sel ++ cs " {" ++ body.
Proof.
  intros Hne Hsel Hbody. cbn [Datatypes.app].
  rewrite scopedCss_step, scopedCss_none by done.
  unfold scope_selector. cbn [group1].
  destruct (includes (cs "@media") sel || includes (cs "@keyframes") sel).
  - by rewrite <- app_assoc.
  - by rewrite <- !app_assoc.
Qed.

Lemma scopedCss_single_rule_witness :
  scopedCss (cs ".btn " ++ [lbrace] ++ cs " color: red; }") (cs "app-a") =
  if includes (cs "@media") (cs ".btn ") || includes (cs "@keyframes") (cs ".btn ")
  then cs ".btn " ++ [lbrace] ++ cs " color: red; }"
  else cs ".micro-app-" ++ cs "app-a" ++ cs " " ++ cs ".btn " ++ cs " {"
       ++ cs " color: red; }".
Proof.
  refine (scopedCss_single_rule (cs ".btn ") (cs " color: red; }") (cs "app-a") _ _ _).
  - discriminate.
  - apply forallb_neq_char. vm_compute. reflexivity.
  - apply forallb_neq_char. vm_compute. reflexivity.
Defined.

Example scopedCss_btn :
  scopedCss (cs ".btn { color: red; }") (cs "app-a") =
  cs ".micro-app-app-a .btn  { color: red; }".
Proof. vm_compute. reflexivity. Qed.

(** C9, counterexample: the rule inside a media query block is rewritten
    as well, and the class put before [.btn] is [.micro-app-app-a]. *)
Lemma media_block_rewritten :
  ~ passes_through media_block (cs "app-a") /\ ~ btn_as_written.
Proof.
  split.
  - unfold passes_through. vm_compute. discriminate.
  - unfold btn_as_written. vm_compute. discriminate.
Qed.

Example scopedCss_media_block :
  scopedCss media_block (cs "app-a") =
  cs "@media (max-width: 600px) {.micro-app-app-a  .btn  { color: red; } }".
Proof. vm_compute. reflexivity. Qed.

(** ** The tutorial text *)

Section TutorialText.

Import Tutorial.

Lemma mount_first_not_loaded n l :
  Forall (fun x => l_status x = NOT_LOADED) l -> mount_first n l = (l, []).
Proof.
  induction 1 as [|x l Hx Hl IH]; [done|]. cbn.
  destruct (String.eqb (l_name x) n).
  - rewrite Hx. done.
  - by rewrite IH.
Qed.

Lemma filter_mounted_not_loaded l :
  Forall (fun x => l_status x = NOT_LOADED) l ->
  List.filter (fun x => bool_decide (l_status x = MOUNTED)) l = [] /\
  map (fun x => if bool_decide (l_status x = MOUNTED)
                then {| l_name := l_name x; l_status := NOT_MOUNTED |} else x) l = l.
Proof.
  induction 1 as [|x l Hx Hl [IH1 IH2]]; [done|]. cbn.
  rewrite Hx, IH1, IH2. done.
Qed.

Lemma never_mounted_reroute s : never_mounted s -> never_mounted (Tutorial.reroute s).
Proof.
  intros [Ha Ht]. unfold Tutorial.reroute.
  assert (never_mounted (unmount_step s) /\
          t_apps (unmount_step s) = t_apps s) as [[Ha1 Ht1] Heq].
  { unfold unmount_step. destruct (existsb _ _); [done|].
    destruct (filter_mounted_not_loaded _ Ha) as [H1 H2].
    rewrite H1. unfold never_mounted. cbn [t_apps t_trace t_log t_set_apps map].
    by rewrite H2, app_nil_r. }
  destruct (List.find _ (microApps (unmount_step s))) as [m|]; [|done].
  destruct (List.find _ (t_apps (unmount_step s))).
  - unfold mount_if_ready. rewrite mount_first_not_loaded by done.
    split; cbn; [done|by rewrite app_nil_r].
  - split; cbn; [done|]. apply Forall_app_2; [done|]. repeat constructor. eauto.
Qed.

Lemma never_mounted_settle i s : never_mounted s -> never_mounted (Tutorial.settle i s).
Proof.
  intros [Ha Ht]. unfold Tutorial.settle.
  assert (forall m s0, never_mounted s0 -> never_mounted (loaded_step m s0)) as Hl.
  { intros m s0 [Ha0 Ht0]. unfold loaded_step. cbn. split; [|done].
    apply Forall_app_2; [done|]. by repeat constructor. }
  destruct (t_tasks s !! i) as [t|]; [|done].
  destruct (tt_stage t) as [|urls].
  - destruct (t_net s (cs (entry (tt_config t))) ≫= _) as [[scr sty]|]; [|done].
    destruct (external_urls sty) as [|u urls]; [by apply Hl|].
    split; [done|]. cbn [t_trace t_set_tasks t_log].
    apply Forall_app_2; [done|]. apply Forall_forall.
    intros e (u' & -> & _)%list_elem_of_fmap. eauto.
  - destruct (forallb _ urls); [by apply Hl|done].
Qed.

Lemma never_mounted_run xs s : never_mounted s -> never_mounted (Tutorial.run s xs).
Proof.
  revert s. induction xs as [|x xs IH]; intros s H; [done|].
  cbn. apply IH. destruct x as [path|i]; cbn.
  - apply never_mounted_reroute. by destruct H.
  - by apply never_mounted_settle.
Qed.

(** Each load settling before the next notification, an application is
    loaded once and found in [apps] afterwards. *)
Example tutorial_loads_once :
  let s := Tutorial.run sample_state
             [TNotify "/a"; TSettle 0; TNotify "/b"; TSettle 0; TNotify "/a"] in
  t_trace s = [TFetch (cs "http://x/a"); TFetch (cs "http://x/b")] /\
  map l_name (t_apps s) = ["a"; "b"].
Proof. cbv zeta. split; vm_compute; reflexivity. Qed.

(** Two notifications before the first load has settled: the application
    is loaded twice and [apps] holds two objects for it. *)
Example tutorial_loads_twice :
  let s := Tutorial.run sample_state
             [TNotify "/a"; TNotify "/a/detail"; TSettle 0; TSettle 0] in
  t_trace s = [TFetch (cs "http://x/a"); TFetch (cs "http://x/a")] /\
  map l_name (t_apps s) = ["a"; "a"].
Proof. cbv zeta. split; vm_compute; reflexivity. Qed.

(** On markup with two external scripts and one inline script the
    tutorial's [parseHTML] lists five references: the two resolved URLs
    first, then one inline entry for every script element, the external
    ones with an empty text. *)
Lemma tutorial_parseHTML_sample resolve base r :
  parseHTML resolve sample_entry base = Some r ->
  exists u1 u2,
    resolve (cs "./a.js") base = Some u1 /\ resolve (cs "./b.js") base = Some u2 /\
    r.1 = [External u1; External u2; Inline []; Inline []; Inline (cs "boot()")].
Proof.
  unfold parseHTML.
  assert (exec_all Tutorial.scriptRegex 0 sample_entry = [[cs "./a.js"]; [cs "./b.js"]])
    as -> by (vm_compute; reflexivity).
  assert (exec_all inlineScriptRegex 0 sample_entry = [[[]]; [[]]; [cs "boot()"]])
    as -> by (vm_compute; reflexivity).
  assert (exec_all Tutorial.styleRegex 0 sample_entry = []) as ->
    by (vm_compute; reflexivity).
  assert (exec_all inlineStyleRegex 0 sample_entry = []) as ->
    by (vm_compute; reflexivity).
  cbn [mapM group1 map].
  destruct (resolve (cs "./a.js") base) as [u1|]; [|done].
  destruct (resolve (cs "./b.js") base) as [u2|]; [|done].
  cbn. intros H. injection H as <-. by exists u1, u2.
Qed.

End TutorialText.

(** On the same markup the tutorial's [parseHTML] does not give three
    references either. *)
Lemma tutorial_parseHTML_five resolve base r :
  Tutorial.parseHTML resolve sample_entry base = Some r ->
  ~ three_references r.1.
Proof.
  intros (u1 & u2 & _ & _ & ->)%tutorial_parseHTML_sample.
  unfold three_references. cbn. discriminate.
Qed.

(** * Further properties *)

(** ** What a run leaves alone *)

Section Frames.

Implicit Types (s : state) (a m : app) (x : action).

Lemma resume_keeps a st s :
  apps (resume a st s).1 = apps s /\
  pathname (resume a st s).1 = pathname s /\
  activeApp (resume a st s).1 = activeApp s /\
  pushState (resume a st s).1 = pushState s /\
  replaceState (resume a st s).1 = replaceState s /\
  popstate (resume a st s).1 = popstate s.
Proof.
  unfold resume, next_style, executeScripts, next_script, mount_step.
  repeat case_match; done.
Qed.

Lemma settle_keeps i s :
  apps (settle i s) = apps s /\
  pathname (settle i s) = pathname s /\
  activeApp (settle i s) = activeApp s /\
  pushState (settle i s) = pushState s /\
  replaceState (settle i s) = replaceState s /\
  popstate (settle i s) = popstate s.
Proof.
  unfold settle. destruct (tasks s !! i) as [t|]; [|done].
  pose proof (resume_keeps (t_app t) (t_stage t) s) as H.
  by destruct (resume (t_app t) (t_stage t) s) as [s' [st|]].
Qed.

Lemma iter_reroute_frame n s :
  apps (Nat.iter n reroute s) = apps s /\
  pathname (Nat.iter n reroute s) = pathname s.
Proof.
  induction n as [|n [IH1 IH2]]; [done|].
  change (Nat.iter (S n) reroute s) with (reroute (Nat.iter n reroute s)).
  destruct (reroute_frame (Nat.iter n reroute s)) as (-> & -> & _). done.
Qed.

Lemma call_history_frame f url s :
  apps (after (call_history f url s)) = apps s.
Proof.
  induction f as [|f IH]; cbn [call_history].
  - by destruct (resolve s (pathname s) url).
  - destruct (call_history f url s) as [s'|s']; cbn [after] in *; [|done].
    change (after (reroute_call s')) with (reroute s').
    by destruct (reroute_frame s') as (-> & _).
Qed.

Lemma apps_step s x : apps (step s x) = apps s ++ registered [x].
Proof.
  destruct x as [a| |path|path|path|i]; cbn [step registered omap];
    rewrite ?app_nil_r; try reflexivity.
  - unfold start.
    by destruct (reroute_frame (patchRouter (set_sandbox createSandbox s))) as (-> & _).
  - unfold navigateTo. apply call_history_frame.
  - apply call_history_frame.
  - unfold fire_popstate.
    by destruct (iter_reroute_frame (popstate s) (set_pathname (fun _ => path) s)) as [-> _].
  - apply settle_keeps.
Qed.

Lemma find_first {A} (f : A -> bool) (l : list A) (x : A) :
  List.find f l = Some x <->
  exists l1 l2, l = l1 ++ x :: l2 /\ f x = true /\ Forall (fun y => f y = false) l1.
Proof.
  induction l as [|y l IH]; cbn.
  - split; [done|]. intros (l1 & l2 & H & _). by destruct l1.
  - destruct (f y) eqn:Hy.
    + split.
      * intros [= ->]. exists [], l. by repeat split.
      * intros (l1 & l2 & H & Hx & Hl1). destruct l1 as [|z l1].
        -- by injection H as ->.
        -- injection H as -> _. apply Forall_cons in Hl1 as [Hz _]. congruence.
    + rewrite IH. split.
      * intros (l1 & l2 & -> & Hx & Hl1). exists (y :: l1), l2.
        repeat split; [done|]. by constructor.
      * intros (l1 & l2 & H & Hx & Hl1). destruct l1 as [|z l1].
        -- injection H as -> _. congruence.
        -- injection H as -> ->. apply Forall_cons in Hl1 as [_ Hl1].
           by exists l1, l2.
Qed.

End Frames.

(** X1.  Nothing but [registerMicroApps] changes the registry, and it
    only adds at the end: after any run the registry is what it was
    followed by the applications registered in the run, in order. *)
Theorem registry_append_only (s : state) (xs : list action) :
  apps (run s xs) = apps s ++ registered xs.
Proof.
  revert s. induction xs as [|x xs IH]; intros s.
  - cbn. by rewrite app_nil_r.
  - change (run s (x :: xs)) with (run (step s x) xs).
    rewrite IH, apps_step, <- app_assoc. f_equal.
    by destruct x.
Qed.

(** X2.  The application [reroute] picks is the first one in the order
    of registration whose rule is a prefix of the path: an application
    is picked exactly when its rule is a prefix of the path and no rule
    of an application registered before it is. *)
Theorem find_app_first_match (s : state) (m : app) :
  find_app s = Some m <->
  exists before after,
    apps s = before ++ m :: after /\
    String.prefix (activeRule m) (pathname s) = true /\
    Forall (fun a => String.prefix (activeRule a) (pathname s) = false) before.
Proof.
  unfold find_app.
  apply (find_first (fun a => String.prefix (activeRule a) (pathname s))).
Qed.

(** ** Navigation, failures and what a load requests *)

Section Loads.

Implicit Types (s : state) (a m act : app) (t : task) (st : stage).

Lemma fetches_app (t1 t2 : list event) : fetches (t1 ++ t2) = fetches t1 ++ fetches t2.
Proof. apply omap_app. Qed.

Lemma fetches_unmount_events act s : fetches (unmount_events act s) = [].
Proof.
  unfold unmount_events. by repeat case_match.
Qed.

Lemma served_frame s s' :
  apps s' = apps s -> pathname s' = pathname s -> activeApp s' = activeApp s ->
  served s -> served s'.
Proof.
  intros Ha Hp Hact. unfold served.
  rewrite (find_app_frame s s' Ha Hp), Hact. done.
Qed.

Lemma next_script_requests a todo s s' o :
  next_script a todo s = (s', o) ->
  fetches (trace s') = fetches (trace s) ++ take 1 todo /\
  match o with
  | Some st' => st' <> AwaitEntry /\ requests_of st' = todo
  | None => todo = []
  end.
Proof.
  unfold next_script, mount_step. destruct todo as [|u more]; intros [= <- <-].
  - destruct (has_hook (name a) "mount" s); [|by rewrite app_nil_r].
    destruct (hook_throws (name a) "mount" s); cbn; rewrite !fetches_app; cbn;
      by rewrite !app_nil_r.
  - cbn. by rewrite fetches_app.
Qed.

Lemma next_style_requests a todo scripts_todo s s' o :
  next_style a todo scripts_todo s = (s', o) ->
  fetches (trace s') = fetches (trace s) ++ take 1 (todo ++ scripts_todo) /\
  match o with
  | Some st' => st' <> AwaitEntry /\ requests_of st' = todo ++ scripts_todo
  | None => todo ++ scripts_todo = []
  end.
Proof.
  unfold next_style, executeScripts. destruct todo as [|u more].
  - intros H. by apply next_script_requests in H.
  - intros [= <- <-]. cbn. by rewrite fetches_app.
Qed.

Lemma resume_requests a st s s' o u rest :
  requests_of st = u :: rest ->
  resume a st s = (s', o) ->
  fetches (trace s') = fetches (trace s) ++ take 1 rest /\
  match o with
  | Some st' => st' <> AwaitEntry /\ requests_of st' = rest
  | None => rest = []
  end.
Proof.
  destruct st as [|u0 more scr|u0 more]; cbn [requests_of resume]; [done| |].
  - intros [= -> <-] H. apply next_style_requests in H as [H1 H2].
    split; [|done]. rewrite H1. destruct (net s u); [done|].
    cbn. rewrite fetches_app. cbn. by rewrite app_nil_r.
  - intros [= -> <-] H. apply next_script_requests in H as [H1 H2].
    split; [|done]. rewrite H1. destruct (net s u) as [r|].
    + destruct (exec_throws (program r) (name a) (sandbox s)); [|done].
      cbn. rewrite fetches_app. cbn. by rewrite app_nil_r.
    + cbn. rewrite fetches_app. cbn. by rewrite app_nil_r.
Qed.

Lemma settle_single s t s' o :
  tasks s = [t] ->
  resume (t_app t) (t_stage t) s = (s', o) ->
  trace (settle 0 s) = trace s' /\
  tasks (settle 0 s) =
    match o with
    | Some st' => [ {| t_app := t_app t; t_stage := st' |} ]
    | None => []
    end.
Proof.
  intros Ht E. unfold settle. rewrite Ht. cbn [lookup list_lookup]. rewrite E.
  apply resume_frame in E as (H1 & _).
  destruct o as [st'|]; cbn; rewrite H1, Ht; done.
Qed.

Lemma drain_requests n s a st u rest :
  tasks s = [ {| t_app := a; t_stage := st |} ] ->
  requests_of st = u :: rest ->
  length rest < n ->
  tasks (drain n s) = [] /\
  fetches (trace (drain n s)) = fetches (trace s) ++ rest.
Proof.
  revert s st u rest. induction n as [|n IH]; intros s st u rest Ht Hreq Hn; [lia|].
  cbn [drain]. rewrite Ht.
  destruct (resume a st s) as [s' o] eqn:E.
  destruct (settle_single s _ s' o Ht E) as [Htr Hts].
  destruct (resume_requests _ _ _ _ _ _ _ Hreq E) as [Hf Ho].
  destruct o as [st'|].
  - destruct Ho as [Hne Ho].
    destruct rest as [|u' rest']; [destruct st'; [by destruct Hne|done|done]|].
    destruct (IH (settle 0 s) st' u' rest' Hts Ho) as [H1 H2]; [cbn in Hn; lia|].
    split; [done|]. rewrite H2, Htr, Hf. cbn. by rewrite <- app_assoc.
  - subst rest. rewrite drain_nil by done. split; [done|].
    rewrite Htr, Hf. done.
Qed.

Lemma head_reroute s : head (reroute s) = head s.
Proof. apply reroute_page. Qed.

Lemma head_call_history f url s : head (after (call_history f url s)) = head s.
Proof.
  induction f as [|f IH]; cbn [call_history].
  - by destruct (resolve s (pathname s) url).
  - destruct (call_history f url s) as [s'|s']; cbn [after] in *; [|done].
    change (after (reroute_call s')) with (reroute s'). by rewrite head_reroute.
Qed.

Lemma head_iter_reroute n s : head (Nat.iter n reroute s) = head s.
Proof.
  induction n as [|n IH]; [done|].
  change (Nat.iter (S n) reroute s) with (reroute (Nat.iter n reroute s)).
  by rewrite head_reroute.
Qed.

Lemma head_resume a st s : head s `prefix_of` head (resume a st s).1.
Proof.
  unfold resume, next_style, executeScripts, next_script, mount_step.
  repeat case_match; cbn; first [reflexivity | by apply prefix_app_r].
Qed.

Lemma head_step s x : head s `prefix_of` head (step s x).
Proof.
  destruct x as [a| |path|path|path|i]; cbn [step].
  - reflexivity.
  - unfold start. by rewrite head_reroute.
  - unfold navigateTo. by rewrite head_call_history.
  - by rewrite head_call_history.
  - unfold fire_popstate. by rewrite head_iter_reroute.
  - unfold settle. destruct (tasks s !! i) as [t|]; [|done].
    pose proof (head_resume (t_app t) (t_stage t) s) as H.
    by destruct (resume (t_app t) (t_stage t) s) as [s' [st|]].
Qed.

Lemma store_reroute s (n : string) :
  global (sandbox s) !! n = None -> global (sandbox (reroute s)) !! n = None.
Proof.
  intros H. rewrite reroute_eq.
  destruct (find_app s) as [m|]; [|done].
  destruct (activeApp s) as [act|];
    [destruct (String.eqb _ _); [done|]|
     by destruct (loadAndMountApp_frame m (set_activeApp (fun _ => Some m) (logged s)))
       as (_ & _ & _ & _ & _ & -> & _)].
  destruct (unmountApp act (logged s)) as [s3|s3] eqn:E.
  - destruct (loadAndMountApp_frame m (set_activeApp (fun _ => Some m) s3))
      as (_ & _ & _ & _ & _ & -> & _).
    apply unmountApp_Returned in E as (_ & _ & _ & Hg).
    change (global (sandbox s3) !! n = None). rewrite Hg.
    destruct (containers (logged s) !! container act); [|done].
    apply lookup_delete_None. by right.
  - apply unmountApp_Thrown in E as (_ & _ & _ & ->). done.
Qed.

End Loads.

(** X3.  [navigateTo] hands its argument to [pushState].  Before
    [start] has run the browser puts the page on the path the URL
    resolves to and nobody is notified.  Once [start] has run: a URL the
    browser refuses changes nothing; otherwise the page is on the path
    the URL resolves to, and the path is served (no application matches
    it, or the matching application is the active one) unless the
    notification has been left by an exception of [unmountApp], which
    leaves what that one notification has left. *)
Theorem navigateTo_served (s : state) (url : string) :
  match resolve s (pathname s) url with
  | None => navigateTo url s = s
  | Some path =>
      match pushState s with
      | Native => navigateTo url s = set_pathname (fun _ => path) s
      | Patched _ =>
          pathname (navigateTo url s) = path /\
          if thrown (reroute_call (set_pathname (fun _ => path) s))
          then navigateTo url s = reroute (set_pathname (fun _ => path) s)
          else served (navigateTo url s)
      end
  end.
Proof.
  unfold navigateTo.
  assert (exists n, pushState s = Nat.iter n Patched Native) as [n ->].
  { induction (pushState s) as [|f [n ->]]; [by exists 0|by exists (S n)]. }
  destruct (resolve s (pathname s) url) as [path|] eqn:H.
  - destruct n as [|n].
    + change (Nat.iter 0 Patched Native) with Native. cbn [call_history].
      by rewrite H.
    + change (Nat.iter (S n) Patched Native) with (Patched (Nat.iter n Patched Native)).
      cbv iota.
      change (Patched (Nat.iter n Patched Native)) with (Nat.iter (S n) Patched Native).
      rewrite (call_history_wrapped n url s path H).
      destruct (thrown (reroute_call (set_pathname (fun _ => path) s))) eqn:E;
        cbn [after].
      * split; [|done]. by destruct (reroute_frame (set_pathname (fun _ => path) s))
          as (_ & -> & _).
      * assert (served (Nat.iter (S n) reroute (set_pathname (fun _ => path) s))
                /\ pathname (Nat.iter (S n) reroute (set_pathname (fun _ => path) s))
                   = path) as [H1 H2]; [|done].
        split.
        -- rewrite Nat.iter_succ_r. by apply iter_reroute_quiet, reroute_served.
        -- by destruct (iter_reroute_frame (S n) (set_pathname (fun _ => path) s))
             as [_ ->].
  - by rewrite call_history_refused.
Qed.

(** A URL with a dot segment, on a page whose browser resolves it: the
    page is on the resolved path and the application of that path is
    loaded. *)
Example navigateTo_resolved :
  let s := set_resolve (fun _ url => if String.eqb url "/b/../a" then Some "/a"
                                    else Some url) sample_page in
  pathname (navigateTo "/b/../a" s) = "/a" /\
  activeApp (navigateTo "/b/../a" s) = Some appA.
Proof. cbv zeta. split; vm_compute; reflexivity. Qed.

(** X4.  A notification that matches an application whose container is
    not in the page, or whose selector the browser refuses, makes that
    application the active one all the same, provided that the call of
    [unmountApp] for the application that was active, if any, is not
    left by an exception.  Nothing is requested and no load is started;
    an error is printed when the selector is a valid one and nothing
    when it is refused; further notifications on the same path do
    nothing but print. *)
Theorem missing_container_stays_active (s : state) (m : app) :
  find_app s = Some m ->
  bad_selector s (container m) = true \/ containers s !! container m = None ->
  (forall act, activeApp s = Some act ->
     name act <> name m /\ unmount_throws act s = false) ->
  activeApp (reroute s) = Some m /\
  tasks (reroute s) = tasks s /\
  fetches (trace (reroute s)) = fetches (trace s) /\
  trace (reroute s) =
    trace s ++ [LRoute (pathname s); LMatched (Some m)]
    ++ match activeApp s with
       | Some act => unmount_events act s
       | None => []
       end
    ++ (if bad_selector s (container m) then [] else [ENoContainer (container m)]) /\
  forall n, observable (Nat.iter n reroute (reroute s)) = observable (reroute s).
Proof.
  intros Hm Hc Hact.
  assert (load_events m s =
          if bad_selector s (container m) then [] else [ENoContainer (container m)])
    as Hload.
  { unfold load_events. destruct (bad_selector s (container m)); [done|].
    by destruct Hc as [?| ->]. }
  assert (reroute_events s =
          match activeApp s with
          | Some act => unmount_events act s
          | None => []
          end ++ (if bad_selector s (container m) then []
                  else [ENoContainer (container m)])) as Hev.
  { unfold reroute_events. rewrite Hm, Hload.
    destruct (activeApp s) as [act|] eqn:E; [|done].
    destruct (Hact act eq_refl) as [Hne ->].
    by apply String.eqb_neq in Hne as ->. }
  assert (thrown (reroute_call s) = false) as Hth.
  { rewrite reroute_call_thrown, Hm. destruct (activeApp s) as [act|]; [|done].
    destruct (Hact act eq_refl) as [_ ->]. by rewrite andb_false_r. }
  assert (forall s1, bad_selector s1 = bad_selector s ->
            (is_Some (containers s1 !! container m)
             <-> is_Some (containers s !! container m)) ->
            tasks (loadAndMountApp m s1) = tasks s1) as Hl.
  { intros s1 Hb Hk. unfold loadAndMountApp. rewrite Hb.
    destruct (bad_selector s (container m)) eqn:Eb; [done|].
    destruct Hc as [?| Hc]; [done|].
    destruct (containers s1 !! container m) eqn:E1; [|done].
    destruct Hk as [Hk _]. rewrite Hc in Hk. by destruct Hk; [eauto|]. }
  split; [|split; [|split; [|split]]].
  - rewrite reroute_eq, Hm. destruct (activeApp s) as [act|] eqn:E.
    + destruct (Hact act eq_refl) as [Hne Hf].
      apply String.eqb_neq in Hne as ->.
      destruct (unmountApp act (logged s)) as [s3|s3] eqn:Eu.
      * by destruct (loadAndMountApp_frame m (set_activeApp (fun _ => Some m) s3))
          as (_ & _ & -> & _).
      * apply unmountApp_Thrown in Eu as (Hf' & _).
        rewrite unmount_throws_logged in Hf'. congruence.
    + by destruct (loadAndMountApp_frame m (set_activeApp (fun _ => Some m) (logged s)))
        as (_ & _ & -> & _).
  - rewrite reroute_eq, Hm. destruct (activeApp s) as [act|] eqn:E.
    + destruct (Hact act eq_refl) as [Hne Hf].
      apply String.eqb_neq in Hne as ->.
      pose proof (containers_unmountApp_key act (logged s) (container m)) as Hk.
      pose proof (unmountApp_frame act (logged s)) as (_ & _ & _ & _ & _ & Hts).
      pose proof (unmountApp_page act (logged s)) as (Hb & _).
      destruct (unmountApp act (logged s)) as [s3|s3] eqn:Eu; cbn [after] in *.
      * rewrite (Hl (set_activeApp (fun _ => Some m) s3)); [exact Hts|exact Hb|exact Hk].
      * exact Hts.
    + by rewrite (Hl (set_activeApp (fun _ => Some m) (logged s))).
  - rewrite trace_reroute, Hev, !fetches_app.
    destruct (activeApp s) as [act|]; [rewrite fetches_unmount_events|];
      destruct (bad_selector s (container m)); cbn; by rewrite ?app_nil_r.
  - by rewrite trace_reroute, Hev, Hm.
  - intros n. by apply iter_reroute_quiet, reroute_served.
Qed.

Lemma missing_container_stays_active_witness :
  activeApp (reroute (set_pathname (fun _ => "/lost") more_page)) = Some appLost /\
  tasks (reroute (set_pathname (fun _ => "/lost") more_page))
    = tasks (set_pathname (fun _ => "/lost") more_page) /\
  fetches (trace (reroute (set_pathname (fun _ => "/lost") more_page)))
    = fetches (trace (set_pathname (fun _ => "/lost") more_page)) /\
  trace (reroute (set_pathname (fun _ => "/lost") more_page)) =
    trace (set_pathname (fun _ => "/lost") more_page)
    ++ [LRoute (pathname (set_pathname (fun _ => "/lost") more_page));
        LMatched (Some appLost)]
    ++ match activeApp (set_pathname (fun _ => "/lost") more_page) with
       | Some act => unmount_events act (set_pathname (fun _ => "/lost") more_page)
       | None => []
       end
    ++ (if bad_selector (set_pathname (fun _ => "/lost") more_page) (container appLost)
        then [] else [ENoContainer (container appLost)]) /\
  forall n, observable (Nat.iter n reroute
                          (reroute (set_pathname (fun _ => "/lost") more_page)))
            = observable (reroute (set_pathname (fun _ => "/lost") more_page)).
Proof.
  refine (missing_container_stays_active
            (set_pathname (fun _ => "/lost") more_page) appLost _ _ _).
  - vm_compute. reflexivity.
  - right. vm_compute. reflexivity.
  - intros act H. vm_compute in H. discriminate.
Defined.

(** The same on the page where the selector is refused: the application
    has become the active one at [start], nothing was requested and
    nothing printed but the two lines of the notification. *)
Example refused_selector_prints_nothing :
  activeApp bad_page = Some appBad /\
  tasks bad_page = [] /\
  fetches (trace bad_page) = [] /\
  work (trace bad_page) = [].
Proof. repeat split; vm_compute; reflexivity. Qed.

(** X5.  When the request for the entry document fails, the load ends
    with an error printed and nothing else changed: the application
    stays the active one, with its container empty as the load found or
    left it, and further notifications on its path do not start the
    load again. *)
Theorem failed_entry_not_retried (s : state) (i : nat) (a : app) :
  tasks s !! i = Some {| t_app := a; t_stage := AwaitEntry |} ->
  net s (cs (entry a)) = None ->
  activeApp s = Some a ->
  find_app s = Some a ->
  trace (settle i s) = trace s ++ [ELoadFailed (name a)] /\
  tasks (settle i s) = delete i (tasks s) /\
  activeApp (settle i s) = Some a /\
  containers (settle i s) = containers s /\
  head (settle i s) = head s /\
  sandbox (settle i s) = sandbox s /\
  forall n, observable (Nat.iter n reroute (settle i s)) = observable (settle i s).
Proof.
  intros Ht Hnet Hact Hm.
  assert (settle i s = set_tasks (fun ts => delete i ts) (log (ELoadFailed (name a)) s))
    as Hs by (unfold settle; rewrite Ht; cbn [resume t_app t_stage]; by rewrite Hnet).
  rewrite Hs. repeat split; try done.
  intros n. apply iter_reroute_quiet.
  apply (served_frame s); try done.
  unfold served. rewrite Hm. by exists a.
Qed.

Lemma failed_entry_not_retried_witness :
  trace (settle 0 (run more_page [ANavigate "/down"]))
    = trace (run more_page [ANavigate "/down"]) ++ [ELoadFailed (name appDown)] /\
  tasks (settle 0 (run more_page [ANavigate "/down"]))
    = delete 0 (tasks (run more_page [ANavigate "/down"])) /\
  activeApp (settle 0 (run more_page [ANavigate "/down"])) = Some appDown /\
  containers (settle 0 (run more_page [ANavigate "/down"]))
    = containers (run more_page [ANavigate "/down"]) /\
  head (settle 0 (run more_page [ANavigate "/down"]))
    = head (run more_page [ANavigate "/down"]) /\
  sandbox (settle 0 (run more_page [ANavigate "/down"]))
    = sandbox (run more_page [ANavigate "/down"]) /\
  forall n, observable (Nat.iter n reroute (settle 0 (run more_page [ANavigate "/down"])))
            = observable (settle 0 (run more_page [ANavigate "/down"])).
Proof.
  refine (failed_entry_not_retried (run more_page [ANavigate "/down"]) 0 appDown _ _ _ _);
    vm_compute; reflexivity.
Defined.



(** X7.  A style element put into the head is never taken out again,
    and none is put before it: whatever happens next, unmounting
    included, the head goes on from what it held. *)
Theorem styles_never_removed (s : state) (xs : list action) :
  head s `prefix_of` head (run s xs).
Proof.
  revert s. induction xs as [|x xs IH]; intros s; [done|].
  change (run s (x :: xs)) with (run (step s x) xs).
  etrans; [apply head_step|apply IH].
Qed.


(** ** Serial runs on the sample page *)

Lemma sample_page_quiet : quiet sample_page.
Proof.
  pose (s0 := page "/" ["#c"] ∅ sample_net).
  pose (s1 := drain 0 (step s0 (ARegister appA))).
  pose (s2 := drain 0 (step s1 (ARegister appB))).
  pose (s3 := drain 0 (step s2 AStart)).
  assert (sample_page = s3) as -> by (vm_compute; reflexivity).
  assert (serial s0 s1) as H1 by (apply (serial_next s0 s0); [constructor|done|done]).
  assert (serial s0 s2) as H2 by (apply (serial_next s0 s1); done).
  assert (serial s0 s3) as H3 by (apply (serial_next s0 s2); done).
  apply (serial_quiet s0); [apply page_quiet|done].
Qed.


Lemma serial_can_settle_witness :
  exists n, tasks (drain n (step sample_page (ANavigate "/a"))) = [].
Proof.
  exact (serial_can_settle sample_page (ANavigate "/a") sample_page_quiet eq_refl).
Defined.

(** ** More on the sandbox *)

Section SandboxMore.

Implicit Types (rl : realm) (v : value) (prop : string) (r : ref).

(** Reading a property changes nothing but the cache of proxies. *)
Lemma wrap_frame v (b : option string) rl :
  window (wrap v b rl).2 = window rl /\
  heap (wrap v b rl).2 = heap rl /\
  sandboxWindow (wrap v b rl).2 = sandboxWindow rl /\
  global (wrap v b rl).2 = global rl.
Proof.
  unfold wrap, createProxy. destruct (is_object v) as [r|]; [|done].
  by destruct (cache_get r (proxyCache rl)).
Qed.

Lemma get_prop_frame r prop rl :
  window (get_prop r prop rl).2 = window rl /\
  heap (get_prop r prop rl).2 = heap rl /\
  sandboxWindow (get_prop r prop rl).2 = sandboxWindow rl /\
  global (get_prop r prop rl).2 = global rl.
Proof.
  revert rl. induction r as [| |n|target IH b]; intros rl; cbn [get_prop]; try done.
  destruct (global rl !! store_key b ≫= _) as [v0|]; [apply wrap_frame|].
  specialize (IH rl). destruct (get_prop target prop rl) as [v rl1]. cbn [snd] in IH.
  destruct IH as (H1 & H2 & H3 & H4).
  destruct (bool_decide (prop ∈ self_names)); [done|].
  destruct (bool_decide (prop ∈ passthrough_names)); [done|].
  destruct (wrap_frame v b rl1) as (-> & -> & -> & ->). done.
Qed.

(** A write on the proxy an application is given. *)
Lemma set_prop_view (a : string) prop v rl :
  window (set_prop (view (Some a)) prop v rl) = window rl /\
  heap (set_prop (view (Some a)) prop v rl) = heap rl /\
  forall n, n <> a ->
    global (set_prop (view (Some a)) prop v rl) !! n = global rl !! n.
Proof.
  unfold view. cbn [set_prop store_key].
  destruct (name_truthy (Some a) && negb (is_function v)); [|done].
  repeat split. intros n Hn. cbn. by rewrite lookup_insert_ne.
Qed.

Lemma run_stmt_direct (a : string) (st : stmt) rl rl' :
  direct st ->
  run_stmt (view (Some a)) a st rl = Some rl' ->
  window rl' = window rl /\ heap rl' = heap rl /\
  forall n, n <> a -> global rl' !! n = global rl !! n.
Proof.
  destruct st as [path prop v|path prop|prop v]; cbn [direct run_stmt].
  - intros -> [= <-]. apply set_prop_view.
  - intros ->. cbn [Datatypes.app follow].
    pose proof (get_prop_frame (view (Some a)) prop rl) as (H1 & H2 & _ & H4).
    destruct (get_prop (view (Some a)) prop rl) as [v rl1]. cbn [snd] in *.
    intros [= <-]. by rewrite H1, H2, H4.
  - intros _. destruct (global rl !! a) as [st|]; [|done].
    intros [= <-]. repeat split. intros n Hn. cbn. by rewrite lookup_insert_ne.
Qed.

Lemma run_code_direct (a : string) (code : list stmt) rl :
  Forall direct code ->
  window (run_code (view (Some a)) a code rl) = window rl /\
  heap (run_code (view (Some a)) a code rl) = heap rl /\
  forall n, n <> a ->
    global (run_code (view (Some a)) a code rl) !! n = global rl !! n.
Proof.
  intros H. revert rl. induction H as [|st code Hst Hcode IH]; intros rl; [done|].
  cbn [run_code]. destruct (run_stmt (view (Some a)) a st rl) as [rl'|] eqn:E; [|done].
  destruct (run_stmt_direct a st rl rl' Hst E) as (H1 & H2 & H3).
  destruct (IH rl') as (-> & -> & H6). repeat split; try done.
  intros n Hn. by rewrite H6, H3.
Qed.

End SandboxMore.



(** X12.  A function written through the window of an application goes
    to the shared [sandboxWindow].  When the store of the application
    already holds the property, the application does not read the
    function back: it goes on reading the stored value. *)
Theorem stored_value_shadows_function (rl : realm) (a prop : string) (v0 f : value) :
  is_function f = true ->
  global rl !! a ≫= (fun st => st !! prop) = Some v0 ->
  let rl' := set_prop (view (Some a)) prop f rl in
  sandboxWindow rl' !! prop = Some f /\
  global rl' = global rl /\
  (get_prop (view (Some a)) prop rl').1 = (get_prop (view (Some a)) prop rl).1.
Proof.
  intros Hf Hst rl'.
  assert (rl' = set_sandboxWindow (fun w => <[prop := f]> w) rl) as ->.
  { subst rl'. unfold view. cbn [set_prop]. rewrite Hf, andb_false_r. done. }
  repeat split.
  - cbn. by rewrite lookup_insert_eq.
  - rewrite !get_prop_view. cbn [global set_sandboxWindow store_key].
    rewrite Hst. by apply wrap_fst.
Qed.

Lemma stored_value_shadows_function_witness :
  let rl := set_prop (view (Some "a")) "onload" VNull host_realm in
  let rl' := set_prop (view (Some "a")) "onload" (VFun 1) rl in
  sandboxWindow rl' !! "onload" = Some (VFun 1) /\
  global rl' = global rl /\
  (get_prop (view (Some "a")) "onload" rl').1 = (get_prop (view (Some "a")) "onload" rl).1.
Proof.
  refine (stored_value_shadows_function
            (set_prop (view (Some "a")) "onload" VNull host_realm)
            "a" "onload" VNull (VFun 1) _ _).
  - reflexivity.
  - vm_compute. reflexivity.
Defined.

(** X13.  Code that reads and assigns properties of the window it is
    given, and registers hooks, without going through an object read
    from that window, changes neither the host's [window] nor any other
    object of the page nor the store of another application.  This is
    for the application names that [Object.prototype] does not define:
    for the others [global[appName]] is a built-in object, and the
    assignments land on it. *)
Theorem direct_code_confined (code : list stmt) (a : string) (rl : realm) :
  ordinary a ->
  Forall direct code ->
  window (exec code a rl) = window rl /\
  heap (exec code a rl) = heap rl /\
  forall n, n <> a -> global (exec code a rl) !! n = global rl !! n.
Proof.
  intros _ H. unfold exec. cbn [createProxy proxyCache set_proxyCache cache_get].
  change (RProxy RSandboxWindow (Some a)) with (view (Some a)).
  match goal with
  | |- context [run_code _ a code ?rl3] =>
      destruct (run_code_direct a code rl3 H) as (H1 & H2 & H3)
  end.
  rewrite H1, H2. split; [done|]. split; [done|].
  intros n Hn. by rewrite H3.
Qed.

Lemma direct_code_confined_witness :
  window (exec [SSet [] "x" (VNum 1); SSet [] "alert" (VFun 3); SGet [] "alert"]
            "a" host_realm) = window host_realm /\
  heap (exec [SSet [] "x" (VNum 1); SSet [] "alert" (VFun 3); SGet [] "alert"]
          "a" host_realm) = heap host_realm /\
  forall n, n <> "a" ->
    global (exec [SSet [] "x" (VNum 1); SSet [] "alert" (VFun 3); SGet [] "alert"]
              "a" host_realm) !! n = global host_realm !! n.
Proof.
  refine (direct_code_confined
            [SSet [] "x" (VNum 1); SSet [] "alert" (VFun 3); SGet [] "alert"]
            "a" host_realm _ _).
  - apply (bool_decide_unpack _). vm_compute. exact I.
  - repeat constructor.
Defined.



(** ** More on the style rewriting and on [parseHtml] *)

Section TextMore.

Implicit Types (s sel rest tail text html : chars).

Lemma scopedCss_brace rest appName :
  scopedCss (lbrace :: rest) appName = lbrace :: scopedCss rest appName.
Proof. reflexivity. Qed.

Lemma includes_false_strip needle hay :
  includes needle hay = false -> forall k, strip false needle (drop k hay) = None.
Proof.
  induction hay as [|c hay IH]; intros H k.
  - rewrite drop_nil. cbn in H. by destruct (strip false needle []).
  - cbn [includes] in H. destruct (strip false needle (c :: hay)) eqn:E; [done|].
    destruct k as [|k]; [done|]. cbn [drop]. by apply IH.
Qed.

Lemma match_lit_none cap ci l re s :
  strip ci l s = None -> match_items (Lit cap ci l :: re) s = None.
Proof. intros H. cbn [match_items]. by rewrite H. Qed.

Lemma exec_all_none re s :
  (forall k, match_items re (drop k s) = None) -> exec_all re 0 s = [].
Proof.
  induction s as [|c s IH]; intros H; [done|].
  pose proof (H 0) as H0. cbn [drop] in H0.
  cbn [exec_all]. rewrite H0. apply IH. intros k. apply (H (S k)).
Qed.

Lemma replace_all_delete re skip s :
  replace_all re (fun _ _ => []) skip s `sublist_of` s.
Proof.
  revert skip. induction s as [|c s IH]; intros skip; [done|].
  cbn [replace_all]. destruct skip as [|n]; [|by apply sublist_cons].
  destruct (match_items re (c :: s)) as [[caps rest]|].
  - destruct (length (c :: s) - length rest) as [|n]; cbn [Datatypes.app].
    + by apply sublist_skip.
    + by apply sublist_cons.
  - by apply sublist_skip.
Qed.

End TextMore.

(** X15.  The style rewriting cuts the text at every opening brace and
    hands each piece that is not empty to the callback as a selector,
    whatever the piece holds: for the second rule of a sheet the piece
    is the rest of the first block followed by the selector.  A brace
    with nothing before it stays as it is, and so does the text after
    the last brace. *)
Theorem scopedCss_every_piece (pieces : list chars) (tail appName : chars) :
  Forall (fun piece => lbrace ∉ piece) pieces ->
  lbrace ∉ tail ->
  scopedCss (concat (map (fun piece => piece ++ [lbrace]) pieces) ++ tail) appName =
  concat (map (fun piece =>
                 if is_nil piece then [lbrace]
                 else scope_selector appName (piece ++ [lbrace]) [piece; [lbrace]])
              pieces)
  ++ tail.
Proof.
  intros Hp Ht. induction Hp as [|piece pieces Hpiece Hpieces IH].
  - by apply scopedCss_none.
  - cbn [map concat]. rewrite <- !app_assoc. destruct piece as [|c piece].
    + cbn [Datatypes.app is_nil]. by rewrite scopedCss_brace, IH.
    + cbn [is_nil]. change ([lbrace] ++ ?x) with (lbrace :: x).
      rewrite scopedCss_step by done. by rewrite IH.
Qed.

Lemma scopedCss_every_piece_witness :
  scopedCss (concat (map (fun piece => piece ++ [lbrace])
                       [cs ".a "; cs " color: red; } .b "])
             ++ cs " color: blue; }") (cs "app") =
  concat (map (fun piece =>
                 if is_nil piece then [lbrace]
                 else scope_selector (cs "app") (piece ++ [lbrace]) [piece; [lbrace]])
              [cs ".a "; cs " color: red; } .b "])
  ++ cs " color: blue; }".
Proof.
  refine (scopedCss_every_piece [cs ".a "; cs " color: red; } .b "]
            (cs " color: blue; }") (cs "app") _ _).
  - repeat constructor; apply (bool_decide_unpack _); vm_compute; exact I.
  - apply (bool_decide_unpack _). vm_compute. exact I.
Defined.

(** X16.  A document that holds neither the text [<script] nor the text
    [<link] comes back as it is, with no script and no style sheet. *)
Theorem parseHtml_without_tags (html : chars) :
  includes (cs "<script") html = false ->
  includes (cs "<link") html = false ->
  parseHtml html = {| scripts := []; styles := []; htmlContent := html |}.
Proof.
  intros Hs Hl.
  assert (forall k, match_items scriptRegex (drop k html) = None) as H1
    by (intros k; by apply match_lit_none, includes_false_strip).
  assert (forall k, match_items styleRegex (drop k html) = None) as H2
    by (intros k; by apply match_lit_none, includes_false_strip).
  unfold parseHtml. rewrite !exec_all_none by done.
  rewrite (replace_all_none scriptRegex) by done.
  by rewrite (replace_all_none styleRegex) by done.
Qed.

Lemma parseHtml_without_tags_witness :
  parseHtml (cs "<p>a < b</p>")
  = {| scripts := []; styles := []; htmlContent := cs "<p>a < b</p>" |}.
Proof.
  refine (parseHtml_without_tags (cs "<p>a < b</p>") _ _); vm_compute; reflexivity.
Defined.

(** X17.  [parseHtml] only takes text out: what is left as the content
    is the document with some of its characters removed, nothing added
    and nothing moved. *)
Theorem htmlContent_sublist (html : chars) :
  htmlContent (parseHtml html) `sublist_of` html.
Proof.
  unfold parseHtml. cbn [htmlContent].
  etrans; apply replace_all_delete.
Qed.

(** ** Documents in the plain form are read back *)

Section Plain.

Implicit Types (s t u rest taken : chars) (c e g : ascii) (re : regex).

Lemma strip_app l s : strip false l (l ++ s) = Some (l, s).
Proof.
  induction l as [|a l IH]; [done|]. cbn.
  unfold ascii_eqb. rewrite Ascii.eqb_refl, IH. done.
Qed.

Lemma match_lit cap l re s :
  match_items (Lit cap false l :: re) (l ++ s) = push cap l (match_items re s).
Proof. cbn [match_items]. by rewrite strip_app. Qed.

(** A literal does not start a text in which a character is out of
    place: [e] is missing from the text before [g], and [g] is none of
    the characters of the literal up to [e]. *)
Lemma strip_none_marker l1 e l2 u g rest :
  e ∉ u -> g ∉ l1 ++ [e] ->
  strip false (l1 ++ e :: l2) (u ++ g :: rest) = None.
Proof.
  revert l1. induction u as [|b u IH]; intros l1 He Hg.
  - cbn [Datatypes.app]. destruct l1 as [|a l1]; cbn [Datatypes.app strip].
    + assert (ascii_eqb e g = false) as ->; [|done].
      apply Ascii.eqb_neq. intros ->. apply Hg. by left.
    + assert (ascii_eqb a g = false) as ->; [|done].
      apply Ascii.eqb_neq. intros ->. apply Hg. by left.
  - apply not_elem_of_cons in He as [Hb He].
    destruct l1 as [|a l1]; cbn [Datatypes.app strip].
    + assert (ascii_eqb e b = false) as ->; [|done].
      by apply Ascii.eqb_neq.
    + destruct (ascii_eqb a b); [|done].
      rewrite (IH l1); [done|done|].
      intros H. apply Hg. by right.
Qed.

Lemma rep_greedy_only_here cls k taken t2 s2 :
  (forall t2a t2b, t2 = t2a ++ t2b -> t2a <> [] ->
     k (taken ++ t2a) (t2b ++ s2) = None) ->
  match s2 with [] => True | c :: _ => cls c = false end ->
  rep_greedy cls k taken (t2 ++ s2) = k taken (t2 ++ s2).
Proof.
  revert taken. induction t2 as [|c t2 IH]; intros taken H Hs.
  - cbn [Datatypes.app]. destruct s2 as [|c s2]; [done|]. cbn. by rewrite Hs.
  - cbn [Datatypes.app rep_greedy]. destruct (cls c); [|done].
    rewrite IH; [|intros t2a t2b -> Hne|done].
    + by rewrite (H [c] t2).
    + rewrite <- app_assoc. by apply (H (c :: t2a) t2b).
Qed.

(** Greedy repetition ends on the longest stretch after which what
    follows matches. *)
Lemma rep_greedy_last cls k taken t1 t2 s2 r :
  forallb cls t1 = true ->
  k (taken ++ t1) (t2 ++ s2) = Some r ->
  (forall t2a t2b, t2 = t2a ++ t2b -> t2a <> [] ->
     k (taken ++ t1 ++ t2a) (t2b ++ s2) = None) ->
  match s2 with [] => True | c :: _ => cls c = false end ->
  rep_greedy cls k taken (t1 ++ t2 ++ s2) = Some r.
Proof.
  revert taken. induction t1 as [|c t1 IH]; intros taken Ht Hk Hnone Hs.
  - cbn [Datatypes.app]. rewrite rep_greedy_only_here; [|done|done].
    by rewrite app_nil_r in Hk.
  - cbn in Ht. apply andb_true_iff in Ht as [Hc Ht].
    cbn [Datatypes.app rep_greedy]. rewrite Hc.
    rewrite (IH (taken ++ [c])); [done|done| |  |done].
    + by rewrite <- app_assoc.
    + intros t2a t2b H1 H2. rewrite <- app_assoc. by apply Hnone.
Qed.

Lemma match_not_lt cap l re c s :
  c <> lt_char -> match_items (Lit cap false (lt_char :: l) :: re) (c :: s) = None.
Proof.
  intros Hc. cbn [match_items strip].
  assert (ascii_eqb lt_char c = false) as ->; [|done].
  apply Ascii.eqb_neq. congruence.
Qed.

(** *** Passing over text in which nothing matches, and over a match *)

Lemma exec_all_pass1 re c s :
  match_items re (c :: s) = None -> exec_all re 0 (c :: s) = exec_all re 0 s.
Proof. intros H. cbn [exec_all]. by rewrite H. Qed.

Lemma replace_all_pass1 re f c s :
  match_items re (c :: s) = None ->
  replace_all re f 0 (c :: s) = c :: replace_all re f 0 s.
Proof. intros H. cbn [replace_all]. by rewrite H. Qed.

Lemma exec_all_pass cap l re t rest :
  lt_char ∉ t ->
  exec_all (Lit cap false (lt_char :: l) :: re) 0 (t ++ rest)
  = exec_all (Lit cap false (lt_char :: l) :: re) 0 rest.
Proof.
  induction t as [|c t IH]; [done|]. intros [Hc Ht]%not_elem_of_cons.
  cbn [Datatypes.app]. rewrite exec_all_pass1; [by apply IH|].
  apply match_not_lt. congruence.
Qed.

Lemma replace_all_pass cap l re f t rest :
  lt_char ∉ t ->
  replace_all (Lit cap false (lt_char :: l) :: re) f 0 (t ++ rest)
  = t ++ replace_all (Lit cap false (lt_char :: l) :: re) f 0 rest.
Proof.
  induction t as [|c t IH]; [done|]. intros [Hc Ht]%not_elem_of_cons.
  cbn [Datatypes.app]. rewrite replace_all_pass1; [by rewrite IH|].
  apply match_not_lt. congruence.
Qed.

Lemma exec_all_skip re pre rest :
  exec_all re (length pre) (pre ++ rest) = exec_all re 0 rest.
Proof. induction pre as [|c pre IH]; [done|]. cbn. apply IH. Qed.

Lemma exec_all_hit re c tag rest caps :
  match_items re (c :: tag ++ rest) = Some (caps, rest) ->
  exec_all re 0 (c :: tag ++ rest) = caps :: exec_all re 0 rest.
Proof.
  intros H. cbn [exec_all]. rewrite H. f_equal.
  replace (length (c :: tag ++ rest) - length rest - 1) with (length tag)
    by (cbn [length]; rewrite length_app; lia).
  apply exec_all_skip.
Qed.

Lemma replace_all_hit re c tag rest caps :
  match_items re (c :: tag ++ rest) = Some (caps, rest) ->
  replace_all re (fun _ _ => []) 0 (c :: tag ++ rest)
  = replace_all re (fun _ _ => []) 0 rest.
Proof.
  intros H. cbn [replace_all]. rewrite H.
  replace (length (c :: tag ++ rest) - length rest) with (S (length tag))
    by (cbn [length]; rewrite length_app; lia).
  cbn [Datatypes.app]. apply replace_all_skip.
Qed.

End Plain.

Section PlainTags.

Implicit Types (s t u rest taken : chars) (c e g : ascii) (re : regex).

Lemma plain_url_marker u t2a t2b :
  eq_char ∉ u -> u ++ [dq] = t2a ++ t2b -> eq_char ∉ t2b.
Proof.
  intros Hu H Hin.
  assert (eq_char ∈ u ++ [dq]) as Hm by (rewrite H; apply elem_of_app; by right).
  apply elem_of_app in Hm as [Hm|Hm]; [done|].
  apply list_elem_of_singleton in Hm. discriminate Hm.
Qed.

Lemma match_script_tag u rest :
  plain_url u -> match_items scriptRegex (script_tag u ++ rest) = Some ([u], rest).
Proof.
  intros (Hne & Hdq & _ & Hgt & Heq).
  pose (s2 := cs "></script>" ++ rest).
  assert (script_tag u ++ rest
          = cs "<script" ++ cs " " ++ ((cs "src=" ++ [dq]) ++ u ++ [dq]) ++ s2) as ->
    by (unfold script_tag, s2; by rewrite <- !app_assoc).
  unfold scriptRegex. rewrite match_lit. cbn [match_items].
  rewrite (rep_greedy_last _ _ [] (cs " ") _ s2 ([u], rest)); [done|done| | |done].
  - cbn [Datatypes.app andb is_nil]. rewrite <- app_assoc, strip_app. cbn [push].
    rewrite <- app_assoc.
    rewrite (rep_greedy_max _ _ [] u ([dq] ++ s2) ([u], rest)); [done| |done|].
    + by apply neq_char_forallb.
    + cbn [Datatypes.app andb]. destruct u; [done|]. reflexivity.
  - intros t2a t2b H Hne2. cbn [andb].
    assert (strip false (cs "src=" ++ [dq]) (t2b ++ s2) = None) as Hs; [|by rewrite Hs].
    do 5 (destruct t2a as [|? t2a]; [cbn in H; subst t2b; try done; reflexivity|];
          injection H as <- H).
    change (cs "src=" ++ [dq]) with (cs "src" ++ eq_char :: [dq]).
    apply strip_none_marker; [by apply (plain_url_marker u t2a)|].
    apply (bool_decide_unpack _). vm_compute. exact I.
Qed.

Lemma match_link_tag u rest :
  plain_url u -> match_items styleRegex (link_tag u ++ rest) = Some ([u], rest).
Proof.
  intros (Hne & Hdq & _ & Hgt & Heq).
  pose (s2 := cs ">" ++ rest).
  pose (l1 := cs "rel=" ++ [dq] ++ cs "stylesheet" ++ [dq]).
  pose (l2 := cs "href=" ++ [dq]).
  assert (link_tag u ++ rest
          = cs "<link" ++ cs " " ++ (l1 ++ cs " " ++ l2 ++ u ++ [dq]) ++ s2) as ->
    by (unfold link_tag, s2, l1, l2; by rewrite <- !app_assoc).
  unfold styleRegex. rewrite match_lit. cbn [match_items].
  fold l1 l2.
  rewrite (rep_greedy_last _ _ [] (cs " ") _ s2 ([u], rest)); [done|done| | |done].
  - cbn [Datatypes.app andb is_nil]. rewrite <- app_assoc, strip_app. cbn [push].
    replace ((cs " " ++ l2 ++ u ++ [dq]) ++ s2)
      with (cs " " ++ (l2 ++ u ++ [dq]) ++ s2) by (by rewrite <- !app_assoc).
    rewrite (rep_greedy_last _ _ [] (cs " ") _ s2 ([u], rest)); [done|done| | |done].
    + cbn [Datatypes.app andb is_nil]. rewrite <- app_assoc, strip_app. cbn [push].
      rewrite <- app_assoc.
      rewrite (rep_greedy_max _ _ [] u ([dq] ++ s2) ([u], rest)); [done| |done|].
      * by apply neq_char_forallb.
      * cbn [Datatypes.app andb]. destruct u; [done|]. reflexivity.
    + intros t2a t2b H Hne2. cbn [andb].
      assert (strip false l2 (t2b ++ s2) = None) as Hs; [|by rewrite Hs].
      do 6 (destruct t2a as [|? t2a]; [cbn in H; subst t2b; try done; reflexivity|];
            injection H as <- H).
      change l2 with (cs "href" ++ eq_char :: [dq]).
      apply strip_none_marker; [by apply (plain_url_marker u t2a)|].
      apply (bool_decide_unpack _). vm_compute. exact I.
  - intros t2a t2b H Hne2. cbn [andb].
    assert (strip false l1 (t2b ++ s2) = None) as Hs; [|by rewrite Hs].
    do 23 (destruct t2a as [|? t2a]; [cbn in H; subst t2b; try done; reflexivity|];
           injection H as <- H).
    change l1 with (cs "rel" ++ eq_char :: [dq] ++ cs "stylesheet" ++ [dq]).
    apply strip_none_marker; [by apply (plain_url_marker u t2a)|].
    apply (bool_decide_unpack _). vm_compute. exact I.
Qed.

(** Nothing matches inside plain text, whatever follows it. *)
Lemma match_plain_text cap a l re c t rest :
  a = "s"%char \/ a = "l"%char ->
  plain_text (c :: t) = true ->
  match_items (Lit cap false (lt_char :: a :: l) :: re) (c :: t ++ rest) = None.
Proof.
  intros Ha H. cbn [plain_text] in H. apply andb_true_iff in H as [H _].
  cbn [match_items strip]. unfold ascii_eqb in *.
  rewrite (Ascii.eqb_sym lt_char c).
  destruct (Ascii.eqb c lt_char); [|done].
  destruct t as [|c' t]; [done|]. cbn [Datatypes.app strip].
  apply andb_true_iff in H as [Hs Hl]. unfold ascii_eqb.
  rewrite (Ascii.eqb_sym a c').
  apply negb_true_iff in Hs, Hl.
  destruct Ha as [-> | ->]; [by rewrite Hs|by rewrite Hl].
Qed.

End PlainTags.

Section PlainDocument.

Implicit Types (u t rest : chars) (ns : list node).

Lemma plain_text_cons c t : plain_text (c :: t) = true -> plain_text t = true.
Proof. cbn [plain_text]. by intros [_ H]%andb_true_iff. Qed.

Lemma exec_all_text cap a l re t rest :
  a = "s"%char \/ a = "l"%char ->
  plain_text t = true ->
  exec_all (Lit cap false (lt_char :: a :: l) :: re) 0 (t ++ rest)
  = exec_all (Lit cap false (lt_char :: a :: l) :: re) 0 rest.
Proof.
  intros Ha. induction t as [|c t IH]; [done|]. intros H.
  cbn [Datatypes.app]. rewrite exec_all_pass1 by (by apply match_plain_text).
  apply IH. by apply (plain_text_cons c).
Qed.

Lemma replace_all_text cap a l re f t rest :
  a = "s"%char \/ a = "l"%char ->
  plain_text t = true ->
  replace_all (Lit cap false (lt_char :: a :: l) :: re) f 0 (t ++ rest)
  = t ++ replace_all (Lit cap false (lt_char :: a :: l) :: re) f 0 rest.
Proof.
  intros Ha. induction t as [|c t IH]; [done|]. intros H.
  cbn [Datatypes.app]. rewrite replace_all_pass1 by (by apply match_plain_text).
  rewrite IH; [done|]. by apply (plain_text_cons c).
Qed.

Lemma script_tag_shape u :
  script_tag u
  = lt_char :: (cs "script src=" ++ [dq] ++ u ++ [dq] ++ cs ">")
    ++ lt_char :: cs "/script>".
Proof. unfold script_tag. rewrite <- !app_assoc. reflexivity. Qed.

Lemma link_tag_shape u :
  link_tag u
  = lt_char :: cs "link rel=" ++ [dq] ++ cs "stylesheet" ++ [dq] ++ cs " href=" ++ [dq]
    ++ u ++ [dq] ++ cs ">".
Proof. reflexivity. Qed.

Lemma lt_not_in_script u :
  lt_char ∉ u -> lt_char ∉ cs "script src=" ++ [dq] ++ u ++ [dq] ++ cs ">".
Proof.
  intros Hu. rewrite !not_elem_of_app. repeat split; try done;
    apply (bool_decide_unpack _); vm_compute; exact I.
Qed.

Lemma lt_not_in_link u :
  lt_char ∉ u ->
  lt_char ∉ cs "link rel=" ++ [dq] ++ cs "stylesheet" ++ [dq] ++ cs " href=" ++ [dq]
            ++ u ++ [dq] ++ cs ">".
Proof.
  intros Hu. rewrite !not_elem_of_app. repeat split; try done;
    apply (bool_decide_unpack _); vm_compute; exact I.
Qed.

(** A script element under the expression for links, and a link under
    the expression for scripts: nothing matches. *)
Lemma exec_style_over_script u rest :
  lt_char ∉ u ->
  exec_all styleRegex 0 (script_tag u ++ rest) = exec_all styleRegex 0 rest.
Proof.
  intros Hu. rewrite script_tag_shape. cbn [Datatypes.app]. rewrite <- app_assoc.
  rewrite exec_all_pass1 by reflexivity.
  unfold styleRegex.
  rewrite (exec_all_pass false (cs "link")) by (by apply lt_not_in_script).
  cbn [Datatypes.app]. rewrite exec_all_pass1 by reflexivity.
  by rewrite (exec_all_pass false (cs "link") _ (cs "/script>"))
    by (apply (bool_decide_unpack _); vm_compute; exact I).
Qed.

Lemma exec_script_over_link u rest :
  lt_char ∉ u ->
  exec_all scriptRegex 0 (link_tag u ++ rest) = exec_all scriptRegex 0 rest.
Proof.
  intros Hu. rewrite link_tag_shape. cbn [Datatypes.app].
  rewrite exec_all_pass1 by reflexivity.
  unfold scriptRegex.
  by rewrite (exec_all_pass false (cs "script")) by (by apply lt_not_in_link).
Qed.

Lemma replace_script_over_link f u rest :
  lt_char ∉ u ->
  replace_all scriptRegex f 0 (link_tag u ++ rest)
  = link_tag u ++ replace_all scriptRegex f 0 rest.
Proof.
  intros Hu. rewrite link_tag_shape. cbn [Datatypes.app].
  rewrite replace_all_pass1 by reflexivity.
  unfold scriptRegex.
  by rewrite (replace_all_pass false (cs "script")) by (by apply lt_not_in_link).
Qed.

Lemma scripts_of_document ns :
  Forall plain ns ->
  exec_all scriptRegex 0 (document ns) = map (fun u => [u]) (srcs ns).
Proof.
  induction 1 as [|n ns Hn Hns IH]; [done|].
  change (document (n :: ns)) with (render n ++ document ns).
  destruct n as [t|u|u]; cbn [render srcs omap plain] in *.
  - unfold scriptRegex at 1.
    rewrite (exec_all_text false "s" (cs "cript")) by (by try left).
    apply IH.
  - pose proof (match_script_tag u (document ns) Hn) as Hm.
    rewrite script_tag_shape in *. cbn [Datatypes.app] in *.
    rewrite (exec_all_hit _ _ _ _ _ Hm). cbn. f_equal. apply IH.
  - rewrite exec_script_over_link by apply Hn. apply IH.
Qed.

Lemma styles_of_document ns :
  Forall plain ns ->
  exec_all styleRegex 0 (document ns) = map (fun u => [u]) (hrefs ns).
Proof.
  induction 1 as [|n ns Hn Hns IH]; [done|].
  change (document (n :: ns)) with (render n ++ document ns).
  destruct n as [t|u|u]; cbn [render hrefs omap plain] in *.
  - unfold styleRegex at 1.
    rewrite (exec_all_text false "l" (cs "ink")) by (by try right).
    apply IH.
  - rewrite exec_style_over_script by apply Hn. apply IH.
  - pose proof (match_link_tag u (document ns) Hn) as Hm.
    rewrite link_tag_shape in *. cbn [Datatypes.app] in *.
    rewrite (exec_all_hit _ _ _ _ _ Hm). cbn. f_equal. apply IH.
Qed.

Lemma content_without_scripts ns :
  Forall plain ns ->
  replace_all scriptRegex (fun _ _ => []) 0 (document ns)
  = document (List.filter (fun n => match n with Script _ => false | _ => true end) ns).
Proof.
  induction 1 as [|n ns Hn Hns IH]; [done|].
  change (document (n :: ns)) with (render n ++ document ns).
  destruct n as [t|u|u]; cbn [render List.filter plain] in *.
  - unfold scriptRegex at 1.
    rewrite (replace_all_text false "s" (cs "cript")) by (by try left).
    change (document (Text t :: ?l)) with (t ++ document l). f_equal. apply IH.
  - pose proof (match_script_tag u (document ns) Hn) as Hm.
    rewrite script_tag_shape in *. cbn [Datatypes.app] in *.
    rewrite (replace_all_hit _ _ _ _ _ Hm). apply IH.
  - rewrite replace_script_over_link by apply Hn.
    change (document (Link u :: ?l)) with (link_tag u ++ document l). f_equal. apply IH.
Qed.

Lemma content_without_links ns :
  Forall plain ns ->
  replace_all styleRegex (fun _ _ => []) 0
    (document (List.filter (fun n => match n with Script _ => false | _ => true end) ns))
  = texts ns.
Proof.
  induction 1 as [|n ns Hn Hns IH]; [done|].
  destruct n as [t|u|u]; cbn [List.filter plain] in *.
  - change (document (Text t :: ?l)) with (t ++ document l).
    unfold styleRegex at 1.
    rewrite (replace_all_text false "l" (cs "ink")) by (by try right).
    change (texts (Text t :: ns)) with (t ++ texts ns). f_equal. apply IH.
  - apply IH.
  - change (document (Link u :: ?l)) with (link_tag u ++ document l).
    match goal with
    | |- context [link_tag u ++ ?r] => pose proof (match_link_tag u r Hn) as Hm
    end.
    rewrite link_tag_shape in *. cbn [Datatypes.app] in *.
    rewrite (replace_all_hit _ _ _ _ _ Hm). apply IH.
Qed.

End PlainDocument.






(** ** More on the tutorial text *)

Section TutorialMore.

Import Tutorial.

Lemma mount_first_events n l l' es :
  mount_first n l = (l', es) -> es = [] \/ es = [TMount n].
Proof.
  revert l' es. induction l as [|x l IH]; intros l' es; cbn [mount_first].
  - intros [= <- <-]. by left.
  - destruct (String.eqb (l_name x) n).
    + destruct (bool_decide (l_status x = NOT_MOUNTED)); intros [= <- <-]; [by right|by left].
    + destruct (mount_first n l) as [l'' es'']. intros [= <- <-]. by apply (IH l'').
Qed.

Lemma find_some_exists {A} (f : A -> bool) (l : list A) (x : A) :
  x ∈ l -> f x = true -> exists y, List.find f l = Some y.
Proof.
  induction 1 as [x l|x y l Hin IH]; intros Hf; cbn.
  - rewrite Hf. by eexists.
  - destruct (f y); [by eexists|]. by apply IH.
Qed.

End TutorialMore.

(** X19.  In the program of the tutorial text no application is ever
    mounted.  The object [loadMicroApp] returns keeps the status it is
    made with, so the test [reroute] makes before it calls [mount]
    fails; from a page with nothing loaded, whatever the notifications
    and however the requests settle, no [mount] and no [unmount] hook is
    called. *)
Theorem tutorial_never_mounts (s : Tutorial.t_state) (xs : list Tutorial.t_action)
    (n : string) :
  Tutorial.t_apps s = [] ->
  Tutorial.t_trace s = [] ->
  (Tutorial.TMount n ∉ Tutorial.t_trace (Tutorial.run s xs)) /\
  (Tutorial.TUnmount n ∉ Tutorial.t_trace (Tutorial.run s xs)) /\
  Forall (fun l => Tutorial.l_status l = Tutorial.NOT_LOADED)
         (Tutorial.t_apps (Tutorial.run s xs)).
Proof.
  intros Ha Ht.
  assert (Tutorial.never_mounted s) as H0
    by (unfold Tutorial.never_mounted; rewrite Ha, Ht; by split).
  destruct (never_mounted_run xs s H0) as [H1 H2].
  rewrite Forall_forall in H2.
  repeat split; [| |done]; intros Hin; by destruct (H2 _ Hin) as [u Hu].
Qed.

Lemma tutorial_never_mounts_witness :
  (Tutorial.TMount "a" ∉
    Tutorial.t_trace (Tutorial.run Tutorial.sample_state
      [Tutorial.TNotify "/a"; Tutorial.TSettle 0; Tutorial.TNotify "/b";
       Tutorial.TSettle 0; Tutorial.TNotify "/a"])) /\
  (Tutorial.TUnmount "a" ∉
    Tutorial.t_trace (Tutorial.run Tutorial.sample_state
      [Tutorial.TNotify "/a"; Tutorial.TSettle 0; Tutorial.TNotify "/b";
       Tutorial.TSettle 0; Tutorial.TNotify "/a"])) /\
  Forall (fun l => Tutorial.l_status l = Tutorial.NOT_LOADED)
         (Tutorial.t_apps (Tutorial.run Tutorial.sample_state
            [Tutorial.TNotify "/a"; Tutorial.TSettle 0; Tutorial.TNotify "/b";
             Tutorial.TSettle 0; Tutorial.TNotify "/a"])).
Proof.
  exact (tutorial_never_mounts Tutorial.sample_state
           [Tutorial.TNotify "/a"; Tutorial.TSettle 0; Tutorial.TNotify "/b";
            Tutorial.TSettle 0; Tutorial.TNotify "/a"] "a" eq_refl eq_refl).
Defined.

(** X20.  In the program of the tutorial text an application that has
    been loaded is not loaded again: when the list [apps] holds an
    object with the name of the application that matches the path, a
    notification sends no request and suspends nothing. *)
Theorem tutorial_reuses_loaded (s : Tutorial.t_state) (m : app) (l : Tutorial.loaded) :
  List.find (Tutorial.rule_matches (Tutorial.t_pathname s)) (Tutorial.microApps s)
    = Some m ->
  l ∈ Tutorial.t_apps s ->
  Tutorial.l_name l = name m ->
  Tutorial.t_tasks (Tutorial.reroute s) = Tutorial.t_tasks s /\
  exists es,
    Tutorial.t_trace (Tutorial.reroute s) = Tutorial.t_trace s ++ es /\
    (es = [] \/ es = [Tutorial.TMount (name m)]).
Proof.
  intros Hm Hl Hname.
  assert (Tutorial.unmount_step s = s) as Hu.
  { unfold Tutorial.unmount_step.
    destruct (existsb _ (Tutorial.microApps s)) eqn:E; [done|].
    apply find_some in Hm as [Hin Hr].
    assert (existsb (Tutorial.rule_matches (Tutorial.t_pathname s)) (Tutorial.microApps s)
            = true) as E'
      by (apply existsb_exists; by exists m).
    congruence. }
  unfold Tutorial.reroute. rewrite Hu. cbn zeta. rewrite Hm.
  destruct (find_some_exists (fun l0 => String.eqb (Tutorial.l_name l0) (name m))
              (Tutorial.t_apps s) l Hl) as [y Hy].
  { by apply String.eqb_eq. }
  rewrite Hy. unfold Tutorial.mount_if_ready.
  destruct (Tutorial.mount_first (name m) (Tutorial.t_apps s)) as [l' es] eqn:E.
  split; [done|]. exists es. split; [done|].
  by apply (mount_first_events _ _ _ _ E).
Qed.

Lemma tutorial_reuses_loaded_witness :
  Tutorial.t_tasks (Tutorial.reroute
    (Tutorial.t_set_pathname "/a"
       (Tutorial.run Tutorial.sample_state [Tutorial.TNotify "/a"; Tutorial.TSettle 0])))
  = Tutorial.t_tasks
      (Tutorial.t_set_pathname "/a"
         (Tutorial.run Tutorial.sample_state [Tutorial.TNotify "/a"; Tutorial.TSettle 0]))
  /\
  exists es,
    Tutorial.t_trace (Tutorial.reroute
      (Tutorial.t_set_pathname "/a"
         (Tutorial.run Tutorial.sample_state [Tutorial.TNotify "/a"; Tutorial.TSettle 0])))
    = Tutorial.t_trace
        (Tutorial.t_set_pathname "/a"
           (Tutorial.run Tutorial.sample_state [Tutorial.TNotify "/a"; Tutorial.TSettle 0]))
      ++ es /\
    (es = [] \/ es = [Tutorial.TMount (name appA)]).
Proof.
  refine (tutorial_reuses_loaded
            (Tutorial.t_set_pathname "/a"
               (Tutorial.run Tutorial.sample_state
                  [Tutorial.TNotify "/a"; Tutorial.TSettle 0]))
            appA {| Tutorial.l_name := "a"; Tutorial.l_status := Tutorial.NOT_LOADED |}
            _ _ _).
  - vm_compute. reflexivity.
  - vm_compute. apply list_elem_of_here.
  - reflexivity.
Defined.

(** ** The call of the [mount] hook *)

Section MountStep.

Implicit Types (s : state) (a : app) (t : task).

Lemma hook_calls_app (t1 t2 : list event) :
  hook_calls (t1 ++ t2) = hook_calls t1 ++ hook_calls t2.
Proof. unfold hook_calls. apply List.filter_app. Qed.

Lemma has_hook_sandbox n h s s' : sandbox s' = sandbox s -> has_hook n h s' = has_hook n h s.
Proof. unfold has_hook. by intros ->. Qed.

Lemma settle_single_sandbox s t s' o :
  tasks s = [t] ->
  resume (t_app t) (t_stage t) s = (s', o) ->
  sandbox (settle 0 s) = sandbox s'.
Proof.
  intros Ht E. unfold settle. rewrite Ht. cbn [lookup list_lookup]. rewrite E.
  by destruct o.
Qed.

Lemma resume_script_hooks a u more s s' o :
  resume a (AwaitScript u more) s = (s', o) ->
  match o with
  | Some st' => st' = match more with
                      | [] => st'
                      | u' :: more' => AwaitScript u' more'
                      end /\ more <> [] /\
                hook_calls (trace s') = hook_calls (trace s)
  | None =>
      more = [] /\
      hook_calls (trace s') =
        hook_calls (trace s)
        ++ (if has_hook (name a) "mount" s' then [Hook (name a) "mount"] else [])
  end.
Proof.
  cbn [resume]. unfold next_script, mount_step.
  assert (forall X, X = match net s u with
                        | Some r =>
                            if exec_throws (program r) (name a) (sandbox s)
                            then log EExecFailed
                                   (set_sandbox (exec (program r) (name a)) s)
                            else set_sandbox (exec (program r) (name a)) s
                        | None => log (EScriptFailed u) s
                        end -> hook_calls (trace X) = hook_calls (trace s)) as HX.
  { intros X ->. destruct (net s u) as [r|].
    - destruct (exec_throws (program r) (name a) (sandbox s)); [|done].
      cbn. rewrite hook_calls_app. cbn. by rewrite app_nil_r.
    - cbn. rewrite hook_calls_app. cbn. by rewrite app_nil_r. }
  specialize (HX _ eq_refl). revert HX.
  generalize (match net s u with
              | Some r =>
                  if exec_throws (program r) (name a) (sandbox s)
                  then log EExecFailed (set_sandbox (exec (program r) (name a)) s)
                  else set_sandbox (exec (program r) (name a)) s
              | None => log (EScriptFailed u) s
              end). intros s1 H1.
  destruct more as [|u' more'].
  - intros [= <- <-]. split; [done|].
    destruct (has_hook (name a) "mount" s1) eqn:E.
    + destruct (hook_throws (name a) "mount" s1);
        rewrite (has_hook_sandbox _ _ s1) by done; rewrite E; cbn;
        rewrite !hook_calls_app, H1; cbn; by rewrite <- app_assoc.
    + rewrite E. by rewrite app_nil_r.
  - intros [= <- <-]. repeat split; [done|].
    cbn. rewrite hook_calls_app, H1. cbn. by rewrite app_nil_r.
Qed.

End MountStep.

(** X21.  A load that has come to its scripts calls no hook until the
    last script has settled.  Then it calls [mount] once if the store of
    the application holds a function [mount] at that time, and nothing
    otherwise, whether the scripts were run or their requests failed. *)
Theorem mount_once_after_scripts (s : state) (a : app) (u : chars)
    (more : list chars) (n : nat) :
  tasks s = [ {| t_app := a; t_stage := AwaitScript u more |} ] ->
  length more < n ->
  tasks (drain n s) = [] /\
  hook_calls (trace (drain n s)) =
    hook_calls (trace s)
    ++ (if has_hook (name a) "mount" (drain n s) then [Hook (name a) "mount"] else []).
Proof.
  revert s u more. induction n as [|n IH]; intros s u more Ht Hn; [lia|].
  cbn [drain]. rewrite Ht.
  destruct (resume a (AwaitScript u more) s) as [s' o] eqn:E.
  destruct (settle_single s _ s' o Ht E) as [Htr Hts].
  pose proof (settle_single_sandbox s _ s' o Ht E) as Hsb.
  apply resume_script_hooks in E.
  destruct o as [st'|].
  - destruct E as (Hst & Hne & Hh). destruct more as [|u' more']; [done|]. subst st'.
    destruct (IH (settle 0 s) u' more' Hts) as [H1 H2]; [cbn in Hn; lia|].
    split; [done|]. by rewrite H2, Htr, Hh.
  - destruct E as [-> Hh]. rewrite drain_nil by done. split; [done|].
    rewrite Htr, Hh. by rewrite (has_hook_sandbox _ _ s' (settle 0 s)).
Qed.

Lemma mount_once_after_scripts_witness :
  tasks (drain 1 (run sample_page [ANavigate "/a"; ASettle 0])) = [] /\
  hook_calls (trace (drain 1 (run sample_page [ANavigate "/a"; ASettle 0]))) =
    hook_calls (trace (run sample_page [ANavigate "/a"; ASettle 0]))
    ++ (if has_hook (name appA) "mount"
             (drain 1 (run sample_page [ANavigate "/a"; ASettle 0]))
        then [Hook (name appA) "mount"] else []).
Proof.
  refine (mount_once_after_scripts (run sample_page [ANavigate "/a"; ASettle 0])
            appA (cs "a.js") [] 1 _ _).
  - vm_compute. reflexivity.
  - vm_compute. lia.
Defined.

(** ** The base proxy *)



(** ** Forms that are not recognised *)

Section NotRecognised.

Implicit Types (u t rest before after : chars).

Lemma marker_suffix u c t2a t2b :
  eq_char ∉ u -> c <> eq_char -> u ++ [c] = t2a ++ t2b -> eq_char ∉ t2b.
Proof.
  intros Hu Hc H Hin.
  assert (eq_char ∈ u ++ [c]) as Hm by (rewrite H; apply elem_of_app; by right).
  apply elem_of_app in Hm as [Hm|Hm]; [done|].
  apply list_elem_of_singleton in Hm. congruence.
Qed.

Lemma match_link_href_first u rest :
  plain_url u -> match_items styleRegex (link_tag_href_first u ++ rest) = None.
Proof.
  intros (Hne & Hdq & _ & Hgt & Heq).
  pose (s2 := cs ">" ++ rest).
  pose (l1 := cs "rel=" ++ [dq] ++ cs "stylesheet" ++ [dq]).
  pose (p2 := [dq] ++ cs " rel=" ++ [dq] ++ cs "stylesheet" ++ [dq]).
  assert (link_tag_href_first u ++ rest
          = cs "<link" ++ ((cs " href=" ++ [dq]) ++ u ++ p2) ++ s2) as ->
    by (unfold link_tag_href_first, s2, p2; by rewrite <- !app_assoc).
  unfold styleRegex. rewrite match_lit. cbn [match_items]. fold l1.
  rewrite rep_greedy_only_here; [reflexivity| |done].
  intros t2a t2b H Hne2. cbn [andb Datatypes.app].
  do 7 (destruct t2a as [|? t2a]; [cbn in H; subst t2b; try done; reflexivity|];
        injection H as <- H).
  apply app_eq_inv in H as [(k & Hu & ->)|(k & -> & Hk)].
  - assert (strip false l1 ((k ++ p2) ++ s2) = None) as Hs; [|by rewrite Hs].
    rewrite <- app_assoc.
    change l1 with (cs "rel" ++ eq_char :: [dq] ++ cs "stylesheet" ++ [dq]).
    change (p2 ++ s2) with (dq :: (cs " rel=" ++ [dq] ++ cs "stylesheet" ++ [dq]) ++ s2).
    apply strip_none_marker.
    + intros Hin. apply Heq. rewrite Hu. apply elem_of_app. by right.
    + apply (bool_decide_unpack _). vm_compute. exact I.
  - unfold p2 in Hk.
    do 18 (destruct k as [|? k]; [cbn in Hk; subst t2b; reflexivity|];
           injection Hk as <- Hk).
    destruct k as [|? k]; [cbn in Hk; subst t2b; reflexivity|discriminate Hk].
Qed.

Lemma match_script_single u rest :
  plain_url u -> match_items scriptRegex (script_tag_single u ++ rest) = None.
Proof.
  intros (Hne & Hdq & _ & Hgt & Heq).
  pose (s2 := cs "></script>" ++ rest).
  assert (script_tag_single u ++ rest
          = cs "<script" ++ (cs " src='" ++ u ++ cs "'") ++ s2) as ->
    by (unfold script_tag_single, s2; by rewrite <- !app_assoc).
  unfold scriptRegex. rewrite match_lit. cbn [match_items].
  rewrite rep_greedy_only_here; [reflexivity| |done].
  intros t2a t2b H Hne2. cbn [andb Datatypes.app].
  assert (strip false (cs "src=" ++ [dq]) (t2b ++ s2) = None) as Hs; [|by rewrite Hs].
  do 6 (destruct t2a as [|? t2a]; [cbn in H; subst t2b; try done; reflexivity|];
        injection H as <- H).
  change (cs "src=" ++ [dq]) with (cs "src" ++ eq_char :: [dq]).
  apply strip_none_marker; [by apply (marker_suffix u "'"%char t2a)|].
  apply (bool_decide_unpack _). vm_compute. exact I.
Qed.

End NotRecognised.

(** X23.  A link that gives [href] before [rel] is not recognised: in
    plain text around it, it is not listed among the style sheets and
    stays in the content as it is. *)
Theorem link_href_first_not_found (before after u : chars) :
  plain_text before = true ->
  plain_text after = true ->
  plain_url u ->
  parseHtml (before ++ link_tag_href_first u ++ after)
  = {| scripts := []; styles := [];
       htmlContent := before ++ link_tag_href_first u ++ after |}.
Proof.
  intros Hb Ha Hu.
  assert (lt_char ∉ cs "link href=" ++ [dq] ++ u ++ [dq] ++ cs " rel=" ++ [dq]
                    ++ cs "stylesheet" ++ [dq] ++ cs ">") as Hin.
  { destruct Hu as (_ & _ & Hlt & _).
    rewrite !not_elem_of_app. repeat split; try done;
      apply (bool_decide_unpack _); vm_compute; exact I. }
  assert (forall rest, link_tag_href_first u ++ rest
            = lt_char :: (cs "link href=" ++ [dq] ++ u ++ [dq] ++ cs " rel=" ++ [dq]
                          ++ cs "stylesheet" ++ [dq] ++ cs ">") ++ rest) as Hshape
    by (intros rest; unfold link_tag_href_first; by rewrite <- !app_assoc).
  assert (exec_all scriptRegex 0 (before ++ link_tag_href_first u ++ after) = []) as H1.
  { unfold scriptRegex.
    rewrite (exec_all_text false "s" (cs "cript")) by (by try left).
    rewrite Hshape. rewrite exec_all_pass1 by reflexivity.
    rewrite (exec_all_pass false (cs "script")) by done.
    rewrite <- (app_nil_r after).
    by rewrite (exec_all_text false "s" (cs "cript")) by (by try left). }
  assert (forall f, replace_all scriptRegex f 0 (before ++ link_tag_href_first u ++ after)
                    = before ++ link_tag_href_first u ++ after) as H2.
  { intros f. unfold scriptRegex.
    rewrite (replace_all_text false "s" (cs "cript")) by (by try left).
    rewrite Hshape. rewrite replace_all_pass1 by reflexivity.
    rewrite (replace_all_pass false (cs "script")) by done.
    rewrite <- (app_nil_r after) at 1.
    rewrite (replace_all_text false "s" (cs "cript")) by (by try left).
    by rewrite app_nil_r. }
  pose proof (match_link_href_first u after Hu) as Hm. rewrite Hshape in Hm.
  assert (exec_all styleRegex 0 (before ++ link_tag_href_first u ++ after) = []) as H3.
  { unfold styleRegex at 1.
    rewrite (exec_all_text false "l" (cs "ink")) by (by try right).
    rewrite Hshape. rewrite exec_all_pass1 by exact Hm.
    unfold styleRegex.
    rewrite (exec_all_pass false (cs "link")) by done.
    rewrite <- (app_nil_r after).
    by rewrite (exec_all_text false "l" (cs "ink")) by (by try right). }
  assert (forall f, replace_all styleRegex f 0 (before ++ link_tag_href_first u ++ after)
                    = before ++ link_tag_href_first u ++ after) as H4.
  { intros f. unfold styleRegex at 1.
    rewrite (replace_all_text false "l" (cs "ink")) by (by try right).
    rewrite Hshape. rewrite replace_all_pass1 by exact Hm.
    unfold styleRegex.
    rewrite (replace_all_pass false (cs "link")) by done.
    rewrite <- (app_nil_r after) at 1.
    rewrite (replace_all_text false "l" (cs "ink")) by (by try right).
    by rewrite app_nil_r. }
  unfold parseHtml. by rewrite H1, H2, H3, H4.
Qed.

Lemma link_href_first_not_found_witness :
  parseHtml (cs "<div id=app></div>" ++ link_tag_href_first (cs "a.css") ++ cs "<p>x</p>")
  = {| scripts := []; styles := [];
       htmlContent := cs "<div id=app></div>" ++ link_tag_href_first (cs "a.css")
                      ++ cs "<p>x</p>" |}.
Proof.
  refine (link_href_first_not_found (cs "<div id=app></div>") (cs "<p>x</p>")
            (cs "a.css") _ _ _).
  - vm_compute. reflexivity.
  - vm_compute. reflexivity.
  - repeat split; try discriminate; apply (bool_decide_unpack _); vm_compute; exact I.
Defined.

(** X24.  A script element whose address stands in single quotes is not
    recognised either: in plain text around it, it is not listed among
    the scripts and stays in the content. *)
Theorem script_single_quotes_not_found (before after u : chars) :
  plain_text before = true ->
  plain_text after = true ->
  plain_url u ->
  parseHtml (before ++ script_tag_single u ++ after)
  = {| scripts := []; styles := [];
       htmlContent := before ++ script_tag_single u ++ after |}.
Proof.
  intros Hb Ha Hu.
  assert (lt_char ∉ cs "script src='" ++ u ++ cs "'>") as Hin.
  { destruct Hu as (_ & _ & Hlt & _).
    rewrite !not_elem_of_app. repeat split; try done;
      apply (bool_decide_unpack _); vm_compute; exact I. }
  assert (lt_char ∉ cs "/script>") as Hin2
    by (apply (bool_decide_unpack _); vm_compute; exact I).
  assert (forall rest, script_tag_single u ++ rest
            = lt_char :: (cs "script src='" ++ u ++ cs "'>")
              ++ lt_char :: cs "/script>" ++ rest) as Hshape
    by (intros rest; unfold script_tag_single; by rewrite <- !app_assoc).
  pose proof (match_script_single u after Hu) as Hm. rewrite Hshape in Hm.
  assert (exec_all scriptRegex 0 (before ++ script_tag_single u ++ after) = []) as H1.
  { unfold scriptRegex at 1.
    rewrite (exec_all_text false "s" (cs "cript")) by (by try left).
    rewrite Hshape. rewrite exec_all_pass1 by exact Hm.
    unfold scriptRegex.
    rewrite (exec_all_pass false (cs "script")) by done.
    rewrite exec_all_pass1 by reflexivity.
    rewrite (exec_all_pass false (cs "script")) by done.
    rewrite <- (app_nil_r after).
    by rewrite (exec_all_text false "s" (cs "cript")) by (by try left). }
  assert (forall f, replace_all scriptRegex f 0 (before ++ script_tag_single u ++ after)
                    = before ++ script_tag_single u ++ after) as H2.
  { intros f. unfold scriptRegex at 1.
    rewrite (replace_all_text false "s" (cs "cript")) by (by try left).
    rewrite Hshape. rewrite replace_all_pass1 by exact Hm.
    unfold scriptRegex.
    rewrite (replace_all_pass false (cs "script")) by done.
    rewrite replace_all_pass1 by reflexivity.
    rewrite (replace_all_pass false (cs "script")) by done.
    rewrite <- (app_nil_r after) at 1.
    rewrite (replace_all_text false "s" (cs "cript")) by (by try left).
    by rewrite app_nil_r. }
  assert (exec_all styleRegex 0 (before ++ script_tag_single u ++ after) = []) as H3.
  { unfold styleRegex.
    rewrite (exec_all_text false "l" (cs "ink")) by (by try right).
    rewrite Hshape. rewrite exec_all_pass1 by reflexivity.
    rewrite (exec_all_pass false (cs "link")) by done.
    rewrite exec_all_pass1 by reflexivity.
    rewrite (exec_all_pass false (cs "link")) by done.
    rewrite <- (app_nil_r after).
    by rewrite (exec_all_text false "l" (cs "ink")) by (by try right). }
  assert (forall f, replace_all styleRegex f 0 (before ++ script_tag_single u ++ after)
                    = before ++ script_tag_single u ++ after) as H4.
  { intros f. unfold styleRegex.
    rewrite (replace_all_text false "l" (cs "ink")) by (by try right).
    rewrite Hshape. rewrite replace_all_pass1 by reflexivity.
    rewrite (replace_all_pass false (cs "link")) by done.
    rewrite replace_all_pass1 by reflexivity.
    rewrite (replace_all_pass false (cs "link")) by done.
    rewrite <- (app_nil_r after) at 1.
    rewrite (replace_all_text false "l" (cs "ink")) by (by try right).
    by rewrite app_nil_r. }
  unfold parseHtml. by rewrite H1, H2, H3, H4.
Qed.

Lemma script_single_quotes_not_found_witness :
  parseHtml (cs "<div id=app></div>" ++ script_tag_single (cs "a.js") ++ cs "<p>x</p>")
  = {| scripts := []; styles := [];
       htmlContent := cs "<div id=app></div>" ++ script_tag_single (cs "a.js")
                      ++ cs "<p>x</p>" |}.
Proof.
  refine (script_single_quotes_not_found (cs "<div id=app></div>") (cs "<p>x</p>")
            (cs "a.js") _ _ _).
  - vm_compute. reflexivity.
  - vm_compute. reflexivity.
  - repeat split; try discriminate; apply (bool_decide_unpack _); vm_compute; exact I.
Defined.

(** ** A load does not look at the active application *)

(** X25.  When the entry document of a suspended load arrives, the
    element of its application is added to the container after whatever
    the container holds, whichever application is the active one by
    then: the load does not ask whether its application is still
    active. *)
Theorem stale_load_still_appends (s : state) (i : nat) (a : app) (r : response)
    (els : list element) :
  tasks s !! i = Some {| t_app := a; t_stage := AwaitEntry |} ->
  net s (cs (entry a)) = Some r ->
  containers s !! container a = Some els ->
  containers (settle i s) !! container a
    = Some (els ++ [appElement a (htmlContent (parseHtml (body r)))]) /\
  activeApp (settle i s) = activeApp s.
Proof.
  intros Ht Hnet Hc. split; [|apply settle_keeps].
  unfold settle. rewrite Ht. cbn [t_app t_stage resume]. rewrite Hnet.
  destruct (next_style a _ _ _) as [s' o] eqn:E.
  apply next_style_frame in E as (_ & _ & Hcont & _).
  cbn [containers log set_trace set_containers] in Hcont.
  assert (containers s' !! container a
          = Some (els ++ [appElement a (htmlContent (parseHtml (body r)))])) as H
    by (by rewrite Hcont, lookup_alter_eq, Hc).
  by destruct o.
Qed.

Lemma stale_load_still_appends_witness :
  containers (settle 0 (run sample_page [ANavigate "/a"; ANavigate "/b"]))
    !! container appA
    = Some ([] ++ [appElement appA
                     (htmlContent (parseHtml
                        (body {| body := cs "<p>A</p>" ++ script_tag (cs "a.js");
                                 program := [] |})))]) /\
  activeApp (settle 0 (run sample_page [ANavigate "/a"; ANavigate "/b"]))
    = activeApp (run sample_page [ANavigate "/a"; ANavigate "/b"]).
Proof.
  refine (stale_load_still_appends (run sample_page [ANavigate "/a"; ANavigate "/b"]) 0
            appA {| body := cs "<p>A</p>" ++ script_tag (cs "a.js"); program := [] |}
            [] _ _ _); vm_compute; reflexivity.
Defined.
